(** * ExplicitlyAudioTech: the delay-and-censor engine, embedded in Rocq

    A shallow embedding of
      - [hardware/src/AudioProcessor.cpp] (delay line, capture buffer,
        playback gate, word timing, censor, resampling, token cleaning,
        reported values, life cycle),
      - [desktop/Source/LyricsAlignment.cpp] (text normalisation, edit
        distance matrix, backtracking) and
      - [hardware/src/main.cpp] (the command line of the daemon),
    followed by the properties of the engine's specification and further
    properties of the code.

    Conventions of the embedding.
      - C++ [int] values are [Z].  Signed overflow is undefined behaviour in
        the source, so no wrap-around is written; [%] is [Z.rem] and [/] on
        integers is [Z.quot] (both truncate toward zero, as in C++).
      - [float] and [double] values are exact rationals [Q]: the embedding
        describes the arithmetic the code writes down, without rounding.
        The cast [(int)x] truncates toward zero.
      - The two casts of the censor, [(int)(seconds * config.sampleRate)],
        truncate a product that was rounded to a [double]: for a word that
        ends at 0.48 s the product at 48 kHz is rounded to just below
        27840 and truncated to 27839, a frame less than the truncation of
        the exact product.  The embedding does not decide these casts: the
        censor is defined over a [SampleCast], and its properties hold for
        every cast.
      - [std::vector<float>] is [list Q]; indexing out of range is undefined
        behaviour in the source: reads give [0] and writes do nothing here,
        and the theorems establish that indices are in range.
      - Atomic variables and the function-local [static] of [process] are
        fields of the state record; the hand-off under [bufferMutex] is one
        atomic step of the audio callback, the pick-up one step of the
        worker. *)

From Stdlib Require Import ZArith QArith Qround Qabs Lia Lqa String Ascii.
From stdpp Require Import base list list_numbers.

Local Open Scope Z_scope.

(** ** C++ arithmetic *)

(** [a % b] on [int]. *)
Definition c_mod (a b : Z) : Z := Z.rem a b.

(** [a / b] on [int]. *)
Definition c_div (a b : Z) : Z := Z.quot a b.

(** [(int)x] for a floating-point [x]: truncation toward zero. *)
Definition to_int (x : Q) : Z := Z.quot (Qnum x) (Z.pos (Qden x)).

(** [a <= b] and [a < b] on floating-point values, and [std::max] and
    [std::min]: [max a b = (a < b) ? b : a], [min a b = (b < a) ? b : a]. *)
Definition fle (a b : Q) : bool := Qle_bool a b.
Definition flt (a b : Q) : bool := negb (Qle_bool b a).
Definition fmax (a b : Q) : Q := if flt a b then b else a.
Definition fmin (a b : Q) : Q := if flt b a then b else a.

(** ** Vectors of samples *)

(** [v[i]]. *)
Definition vec_get (v : list Q) (i : Z) : Q :=
  if 0 <=? i then default 0%Q (v !! Z.to_nat i) else 0%Q.

(** [v[i] = x]. *)
Definition vec_set (v : list Q) (i : Z) (x : Q) : list Q :=
  if 0 <=? i then <[Z.to_nat i := x]> v else v.

(** [for (int i = lo; i < hi; ++i) body(i)] over a piece of state. *)
Definition for_loop {A : Type} (lo hi : Z) (body : Z -> A -> A) (a : A) : A :=
  foldl (fun a i => body i a) a (seqZ lo (hi - lo)).

(** * LyricsAlignment *)

Module LyricsAlignment.

(** [struct WordSegment]. *)
Record WordSegment := mkWordSegment {
  word : string;
  start : Q;
  end_ : Q;
  confidence : Q
}.

(** *** Character classes of the "C" locale.  A [char] outside ASCII is
    neither alphanumeric nor a space. *)

Definition code (c : ascii) : nat := nat_of_ascii c.

Definition tolower (c : ascii) : ascii :=
  if ((65 <=? code c) && (code c <=? 90))%nat
  then ascii_of_nat (code c + 32) else c.

Definition isalnum (c : ascii) : bool :=
  (((48 <=? code c) && (code c <=? 57))
   || ((65 <=? code c) && (code c <=? 90))
   || ((97 <=? code c) && (code c <=? 122)))%nat.

Definition isspace (c : ascii) : bool :=
  ((code c =? 32) || ((9 <=? code c) && (code c <=? 13)))%nat.

(** [while (iss >> word) words.push_back(word)]: the maximal runs of
    non-space characters.  [cur] is the run being read, reversed. *)
Fixpoint extractWords (cs : list ascii) (cur : list ascii) : list (list ascii) :=
  match cs with
  | [] => match cur with [] => [] | _ => [rev cur] end
  | c :: cs' =>
      if isspace c
      then match cur with
           | [] => extractWords cs' []
           | _ => rev cur :: extractWords cs' []
           end
      else extractWords cs' (c :: cur)
  end.

(** The joining loop: [if (i > 0) result += " "; result += words[i]]. *)
Fixpoint joinWords (ws : list (list ascii)) : list ascii :=
  match ws with
  | [] => []
  | [w] => w
  | w :: ws' => w ++ " "%char :: joinWords ws'
  end.

(** [LyricsAlignment::normalizeText]. *)
Definition normalizeText (text : string) : string :=
  let result := map tolower (list_ascii_of_string text) in
  let result := List.filter (fun c => negb (negb (isalnum c) && negb (isspace c))) result in
  string_of_list_ascii (joinWords (extractWords result [])).

(** [LyricsAlignment::splitIntoWords]. *)
Definition splitIntoWords (text : string) : list string :=
  let normalized := normalizeText text in
  map string_of_list_ascii (extractWords (list_ascii_of_string normalized) []).

(** [matrix[i][j]], [matrix[i][j] = x], [seq[i]] and [segments[i]]. *)
Definition mat_get (matrix : list (list Z)) (i j : Z) : Z :=
  if (0 <=? i) && (0 <=? j)
  then default 0 (matrix !! Z.to_nat i ≫= fun row => row !! Z.to_nat j)
  else 0.

Definition mat_set (matrix : list (list Z)) (i j x : Z) : list (list Z) :=
  if (0 <=? i) && (0 <=? j)
  then alter (fun row => <[Z.to_nat j := x]> row) (Z.to_nat i) matrix
  else matrix.

Definition str_get (v : list string) (i : Z) : string :=
  if 0 <=? i then default EmptyString (v !! Z.to_nat i) else EmptyString.

Definition seg_get (v : list WordSegment) (i : Z) : WordSegment :=
  if 0 <=? i then default (mkWordSegment EmptyString 0 0 0) (v !! Z.to_nat i)
  else mkWordSegment EmptyString 0 0 0.

(** [LyricsAlignment::calculateEditDistance]. *)
Definition calculateEditDistance (seq1 seq2 : list string) : list (list Z) :=
  let m := Z.of_nat (length seq1) in
  let n := Z.of_nat (length seq2) in
  let matrix := replicate (Z.to_nat (m + 1)) (replicate (Z.to_nat (n + 1)) 0) in
  let matrix := for_loop 0 (m + 1) (fun i matrix => mat_set matrix i 0 i) matrix in
  let matrix := for_loop 0 (n + 1) (fun j matrix => mat_set matrix 0 j j) matrix in
  for_loop 1 (m + 1)
    (fun i matrix =>
       for_loop 1 (n + 1)
         (fun j matrix =>
            if String.eqb (str_get seq1 (i - 1)) (str_get seq2 (j - 1))
            then mat_set matrix i j (mat_get matrix (i - 1) (j - 1))
            else
              mat_set matrix i j
                (1 + Z.min (mat_get matrix (i - 1) j)
                       (Z.min (mat_get matrix i (j - 1))
                          (mat_get matrix (i - 1) (j - 1)))))
         matrix)
    matrix.

(** The [while (i > 0 || j > 0)] loop of [backtrackAlignment].  Each turn
    of the loop uses one unit of [fuel]; [None] is a loop that is still
    running when the fuel is gone.  When no branch applies the source loops
    without changing [i] or [j]. *)
Fixpoint backtrackLoop (fuel : nat) (matrix : list (list Z))
    (transcribedWords lyricsWords : list string) (i j : Z)
    (alignments : list (Z * Z)) : option (list (Z * Z)) :=
  if (0 <? i) || (0 <? j) then
    match fuel with
    | O => None
    | S fuel =>
        if (0 <? i) && (0 <? j)
           && String.eqb (str_get transcribedWords (i - 1)) (str_get lyricsWords (j - 1))
        then backtrackLoop fuel matrix transcribedWords lyricsWords (i - 1) (j - 1)
               (alignments ++ [(i - 1, j - 1)])
        else if (0 <? i) && (0 <? j)
                && (mat_get matrix i j =? mat_get matrix (i - 1) (j - 1) + 1)
        then backtrackLoop fuel matrix transcribedWords lyricsWords (i - 1) (j - 1)
               (alignments ++ [(i - 1, j - 1)])
        else if (0 <? j) && (mat_get matrix i j =? mat_get matrix i (j - 1) + 1)
        then backtrackLoop fuel matrix transcribedWords lyricsWords i (j - 1)
               (alignments ++ [(-1, j - 1)])
        else if 0 <? i
        then backtrackLoop fuel matrix transcribedWords lyricsWords (i - 1) j alignments
        else backtrackLoop fuel matrix transcribedWords lyricsWords i j alignments
    end
  else Some alignments.

(** The body of the loop "Create corrected segments". *)
Definition emitSegment (lyricsWords : list string)
    (originalSegments : list WordSegment)
    (correctedSegments : list WordSegment) (al : Z * Z) : list WordSegment :=
  let '(trans_idx, lyrics_idx) := al in
  if (0 <=? trans_idx) && (0 <=? lyrics_idx) then
    let original := seg_get originalSegments trans_idx in
    correctedSegments ++
      [mkWordSegment (str_get lyricsWords lyrics_idx) (start original)
         (end_ original) (confidence original * (95 # 100))%Q]
  else if 0 <=? lyrics_idx then
    let '(estimatedStart, estimatedEnd) :=
      match last correctedSegments with
      | Some back => (end_ back, (end_ back + (3 # 10))%Q)
      | None => (0%Q, (3 # 10)%Q)
      end in
    correctedSegments ++
      [mkWordSegment (str_get lyricsWords lyrics_idx) estimatedStart
         estimatedEnd (1 # 2)%Q]
  else correctedSegments.

(** [LyricsAlignment::backtrackAlignment]. *)
Definition backtrackAlignment (fuel : nat) (matrix : list (list Z))
    (transcribedWords lyricsWords : list string)
    (originalSegments : list WordSegment) : option (list WordSegment) :=
  let i := Z.of_nat (length transcribedWords) in
  let j := Z.of_nat (length lyricsWords) in
  match backtrackLoop fuel matrix transcribedWords lyricsWords i j [] with
  | None => None
  | Some alignments =>
      let alignments := reverse alignments in
      Some (foldl (emitSegment lyricsWords originalSegments) [] alignments)
  end.

(** [LyricsAlignment::alignLyricsToTranscription]. *)
Definition alignLyricsToTranscription (fuel : nat)
    (transcribedWords : list WordSegment) (lyrics : string)
    : option (list WordSegment) :=
  match lyrics, transcribedWords with
  | EmptyString, _ | _, [] => Some transcribedWords
  | _, _ =>
      let transcribedText := map (fun seg => normalizeText (word seg)) transcribedWords in
      let lyricsWords := splitIntoWords lyrics in
      match lyricsWords with
      | [] => Some transcribedWords
      | _ =>
          let matrix := calculateEditDistance transcribedText lyricsWords in
          backtrackAlignment fuel matrix transcribedText lyricsWords transcribedWords
      end
  end.

End LyricsAlignment.

(** * AudioProcessor *)

Module AudioProcessor.
Import LyricsAlignment.

Inductive CensorMode := Reverse | Mute.

(** [struct Config], the fields the engine computes with. *)
Record Config := mkConfig {
  sampleRate : Z;
  channels : Z;
  censorMode : CensorMode;
  initialDelaySeconds : Q;
  chunkSeconds : Q
}.

(** The member initialisers of [Config]. *)
Definition defaultConfig : Config :=
  {| sampleRate := 48000; channels := 2; censorMode := Reverse;
     initialDelaySeconds := 10; chunkSeconds := 5 |}.

(** The private members of [AudioProcessor] that [process], the worker and
    [processTranscription] read or write, and [wasPaused], the [static bool]
    of [process].  [currentInputLevel] (a square root, only reported) is left
    out. *)
Record State := mkState {
  config : Config;
  delayBuffer : list (list Q);
  delayBufferSize : Z;
  delayWritePos : Z;
  delayReadPos : Z;
  playbackStarted : bool;
  wasPaused : bool;
  audioBuffer : list Q;
  processingBuffer : list Q;
  bufferWritePos : Z;
  transcriptionInterval : Z;
  bufferCaptureTime : Q;
  hasNewBuffer : bool;
  profanityCount : Z;
  bufferUnderrun : bool;
  wasWaiting : bool;
  debugCounter : Z;
  streamTime : Q
}.

Definition set_delayBuffer (s : State) (b : list (list Q)) : State :=
  mkState (config s) b (delayBufferSize s) (delayWritePos s) (delayReadPos s)
    (playbackStarted s) (wasPaused s) (audioBuffer s) (processingBuffer s)
    (bufferWritePos s) (transcriptionInterval s) (bufferCaptureTime s)
    (hasNewBuffer s) (profanityCount s) (bufferUnderrun s) (wasWaiting s)
    (debugCounter s) (streamTime s).

Definition set_profanityCount (s : State) (n : Z) : State :=
  mkState (config s) (delayBuffer s) (delayBufferSize s) (delayWritePos s)
    (delayReadPos s) (playbackStarted s) (wasPaused s) (audioBuffer s)
    (processingBuffer s) (bufferWritePos s) (transcriptionInterval s)
    (bufferCaptureTime s) (hasNewBuffer s) n (bufferUnderrun s) (wasWaiting s)
    (debugCounter s) (streamTime s).

(** ** The censor ([processTranscription], from "Check profanity and apply
    censorship" on) *)

(** [(int)(seconds * config.sampleRate)] with [seconds] a [double]: the
    [int] that the cast gives for the seconds and the rate.  The source
    rounds the difference or sum that [seconds] stands for and the product
    to [double] before it truncates, and the cast is undefined when the
    rounded product is outside the range of [int]; a [SampleCast] is any
    outcome of that. *)
Definition SampleCast : Type := Q -> Z -> Z.

(** The cast when nothing is rounded: the truncation of the exact
    product. *)
Definition exactCast : SampleCast :=
  fun seconds rate => to_int (seconds * inject_Z rate).

Section Censor.

Variable toSample : SampleCast.

(** [startSample] and [endSample] of a hit on the words' span
    [wordStart .. wordEnd]: padding, conversion to samples, clamping. *)
Definition hitSpan (cfg : Config) (wordStart wordEnd : Q) : Z * Z :=
  let paddingBefore := (4 # 10)%Q in
  let paddingAfter := (1 # 10)%Q in
  let startSample := toSample (wordStart - paddingBefore)%Q (sampleRate cfg) in
  let endSample := toSample (wordEnd + paddingAfter)%Q (sampleRate cfg) in
  let startSample := Z.max 0 (Z.min startSample (sampleRate cfg * 5)) in
  let endSample := Z.max startSample (Z.min endSample (sampleRate cfg * 5)) in
  (startSample, endSample).

(** [fadeSamples = std::min(480, numSamplesToCensor / 4)]. *)
Definition fadeSamplesOf (numSamplesToCensor : Z) : Z :=
  Z.min 480 (c_div numSamplesToCensor 4).

(** The inner loop of the Mute branch, on one channel. *)
Definition muteChannel (L chunkStartPos startSample endSample : Z)
    (chan : list Q) : list Q :=
  for_loop startSample endSample
    (fun i chan => vec_set chan (c_mod (chunkStartPos + i) L) 0%Q) chan.

(** The gain of sample [i] in the Reverse branch of a single-word hit:
    [sample *= ((float)i / fadeSamples) * volumeReduction] and its two
    siblings. *)
Definition reverseGainSingle (i n fadeSamples : Z) (sample : Q) : Q :=
  let volumeReduction := (1 # 2)%Q in
  if i <? fadeSamples then
    (sample * ((inject_Z i / inject_Z fadeSamples) * volumeReduction))%Q
  else if n - fadeSamples <=? i then
    (sample * ((inject_Z (n - i) / inject_Z fadeSamples) * volumeReduction))%Q
  else (sample * volumeReduction)%Q.

(** The same in the bigram branch: [sample = tempBuffer[i] * 0.5f], then
    [sample *= (float)i / fadeSamples] or its sibling. *)
Definition reverseGainBigram (i n fadeSamples : Z) (sample : Q) : Q :=
  let sample := (sample * (1 # 2))%Q in
  if i <? fadeSamples then (sample * (inject_Z i / inject_Z fadeSamples))%Q
  else if n - fadeSamples <=? i then
    (sample * (inject_Z (n - i) / inject_Z fadeSamples))%Q
  else sample.

(** The body of the channel loop of a Reverse branch: copy the span to
    [tempBuffer], [std::reverse] it, write it back with the gain. *)
Definition reverseChannel (gain : Z -> Z -> Z -> Q -> Q)
    (L chunkStartPos startSample numSamplesToCensor fadeSamples : Z)
    (chan : list Q) : list Q :=
  let tempBuffer :=
    (fun i => vec_get chan (c_mod (chunkStartPos + startSample + i) L))
      <$> seqZ 0 numSamplesToCensor in
  let tempBuffer := reverse tempBuffer in
  for_loop 0 numSamplesToCensor
    (fun i chan =>
       vec_set chan (c_mod (chunkStartPos + startSample + i) L)
         (gain i numSamplesToCensor fadeSamples (vec_get tempBuffer i)))
    chan.

(** "Apply censorship": the [if (Mute) .. else if (Reverse) ..] of either
    branch, with the branch's gain. *)
Definition applyCensorship (gain : Z -> Z -> Z -> Q -> Q) (s : State)
    (chunkStartPos startSample endSample : Z) : State :=
  let numSamplesToCensor := endSample - startSample in
  let fadeSamples := fadeSamplesOf numSamplesToCensor in
  let L := delayBufferSize s in
  let perChannel :=
    match censorMode (config s) with
    | Mute => muteChannel L chunkStartPos startSample endSample
    | Reverse =>
        reverseChannel gain L chunkStartPos startSample numSamplesToCensor
          fadeSamples
    end in
  set_delayBuffer s
    (for_loop 0 (channels (config s))
       (fun ch buf => alter perChannel (Z.to_nat ch) buf) (delayBuffer s)).

(** A single-word hit that is not skipped. *)
Definition censorSingle (chunkStartPos : Z) (wordSeg : WordSegment)
    (s : State) : State :=
  let s := set_profanityCount s (profanityCount s + 1) in
  let '(startSample, endSample) :=
    hitSpan (config s) (start wordSeg) (end_ wordSeg) in
  applyCensorship reverseGainSingle s chunkStartPos startSample endSample.

(** A bigram hit that is not skipped. *)
Definition censorBigram (chunkStartPos : Z) (wordSeg nextWord : WordSegment)
    (s : State) : State :=
  let s := set_profanityCount s (profanityCount s + 1) in
  let '(startSample, endSample) :=
    hitSpan (config s) (start wordSeg) (end_ nextWord) in
  applyCensorship reverseGainBigram s chunkStartPos startSample endSample.

(** [ProfanityFilter::containsProfanity]: the lexicon lookup, whose source is
    not part of the engine. *)
Variable containsProfanity : string -> bool.

(** The loop over [transcribedWords].  The list is the words from [idx] on;
    the result is the state and [detectedWords].  A [continue] and the end of
    the body go on with the next word, [idx++; // Skip next word] with the
    one after. *)
Fixpoint censorLoop (chunkStartPos : Z) (words : list WordSegment)
    (acc : State * list string) : State * list string :=
  match words with
  | [] => acc
  | wordSeg :: rest =>
      let multiWord (acc : State * list string) :=
        match rest with
        | nextWord :: rest' =>
            let combined := normalizeText (word wordSeg ++ word nextWord) in
            if containsProfanity combined then
              if bufferUnderrun acc.1 then censorLoop chunkStartPos rest acc
              else
                censorLoop chunkStartPos rest'
                  (censorBigram chunkStartPos wordSeg nextWord acc.1,
                   acc.2 ++ [(word wordSeg ++ " " ++ word nextWord)%string])
            else censorLoop chunkStartPos rest acc
        | [] => censorLoop chunkStartPos rest acc
        end in
      let normalizedWord := normalizeText (word wordSeg) in
      if containsProfanity normalizedWord then
        if bufferUnderrun acc.1 then censorLoop chunkStartPos rest acc
        else
          multiWord (censorSingle chunkStartPos wordSeg acc.1,
                     acc.2 ++ [word wordSeg])
      else multiWord acc
  end.

(** [processTranscription] from the computation of [chunkStartPos] on, given
    the words that were extracted (and refined). *)
Definition censorTranscription (transcribedWords : list WordSegment)
    (captureTime : Q) (s : State) : State * list string :=
  let chunkEndPos := to_int captureTime in
  let chunkStartPos :=
    c_mod (chunkEndPos - sampleRate (config s) * 5 + delayBufferSize s)
      (delayBufferSize s) in
  censorLoop chunkStartPos transcribedWords (s, []).

End Censor.

(** ** Word timing ([processTranscription], "Distribute words across
    segment") *)

(** The words of one recognizer segment with times [segmentStart] and
    [segmentEnd] in centiseconds; [segmentWords] are its cleaned, non-empty
    token texts. *)
Definition distributeWords (segmentStart segmentEnd : Z)
    (segmentWords : list string) : list WordSegment :=
  let segStartSec := (inject_Z segmentStart * (1 # 100))%Q in
  let segEndSec := (inject_Z segmentEnd * (1 # 100))%Q in
  match segmentWords with
  | [] => []
  | _ =>
      let segmentDuration := (segEndSec - segStartSec)%Q in
      let wordDuration :=
        (segmentDuration / inject_Z (Z.of_nat (length segmentWords)))%Q in
      imap
        (fun k w =>
           let wordStart := (segStartSec + inject_Z (Z.of_nat k) * wordDuration)%Q in
           let wordEnd := (wordStart + wordDuration)%Q in
           let wordStart := fmax 0 (fmin 5 wordStart) in
           let wordEnd := fmax (wordStart + (5 # 100))%Q (fmin 5 wordEnd) in
           mkWordSegment w wordStart wordEnd (9 # 10)%Q)
        segmentWords
  end.

(** ** Life cycle *)

(** [v.resize(n, 0.0f)]. *)
Definition vec_resize (v : list Q) (n : Z) : list Q :=
  take (Z.to_nat n) v ++ replicate (Z.to_nat n - length v)%nat 0%Q.

(** An [AudioProcessor] after its constructor: the member initialisers. *)
Definition constructed : State :=
  {| config := defaultConfig; delayBuffer := []; delayBufferSize := 0;
     delayWritePos := 0; delayReadPos := 0; playbackStarted := false;
     wasPaused := false; audioBuffer := []; processingBuffer := [];
     bufferWritePos := 0; transcriptionInterval := 0; bufferCaptureTime := 0;
     hasNewBuffer := false; profanityCount := 0; bufferUnderrun := false;
     wasWaiting := false; debugCounter := 0; streamTime := 0 |}.

(** [AudioProcessor::initialize] when the lexicon and the model load: the
    configuration is stored and the buffers are allocated. *)
Definition initialize (cfg : Config) (s : State) : State :=
  let audioBufferSize := to_int (inject_Z (sampleRate cfg) * chunkSeconds cfg) in
  let L := to_int (inject_Z (sampleRate cfg) * (initialDelaySeconds cfg + 10)) in
  let chans :=
    take (Z.to_nat (channels cfg)) (delayBuffer s)
      ++ replicate (Z.to_nat (channels cfg) - length (delayBuffer s))%nat [] in
  mkState cfg ((fun channel => vec_resize channel L) <$> chans) L
    (delayWritePos s) (delayReadPos s) (playbackStarted s) (wasPaused s)
    (vec_resize (audioBuffer s) audioBufferSize)
    (vec_resize (processingBuffer s) audioBufferSize)
    (bufferWritePos s) (transcriptionInterval s) (bufferCaptureTime s)
    (hasNewBuffer s) (profanityCount s) (bufferUnderrun s) (wasWaiting s)
    (debugCounter s) (streamTime s).

(** [AudioProcessor::start] when it succeeds: "Reset state", "Clear
    buffers", and the worker starts with no chunk pending.  The [static]
    [wasPaused] of [process] is not touched. *)
Definition start (s : State) : State :=
  mkState (config s)
    ((fun channel => replicate (length channel) 0%Q) <$> delayBuffer s)
    (delayBufferSize s) 0 0 false (wasPaused s) (audioBuffer s)
    (processingBuffer s) 0 0 (bufferCaptureTime s) false 0 false false 0 0.

(** ** The audio callback ([AudioProcessor::process]) *)

(** The mono downmix of frame [i] of the interleaved [inputBuffer]. *)
Definition monoSample (cfg : Config) (inputBuffer : list Q) (i : Z) : Q :=
  let monoSample :=
    for_loop 0 (channels cfg)
      (fun ch monoSample =>
         (monoSample + vec_get inputBuffer (i * channels cfg + ch))%Q) 0%Q in
  (monoSample / inject_Z (channels cfg))%Q.

(** "Accumulate audio for Whisper": the pair is [audioBuffer] and
    [bufferWritePos]. *)
Definition accumulate (cfg : Config) (inputBuffer : list Q) (frames : Z)
    (acc : list Q * Z) : list Q * Z :=
  for_loop 0 frames
    (fun i acc =>
       let monoSample := monoSample cfg inputBuffer i in
       if acc.2 <? Z.of_nat (length acc.1)
       then (vec_set acc.1 acc.2 monoSample, acc.2 + 1)
       else acc)
    acc.

(** The variables of the loop "Delay buffer management": the delay buffer,
    the local [writePos] and [readPos], [playbackStarted], the static
    [wasPaused], and the output buffer. *)
Record DelayLoop := mkDelayLoop {
  dl_buffer : list (list Q);
  dl_writePos : Z;
  dl_readPos : Z;
  dl_playbackStarted : bool;
  dl_wasPaused : bool;
  dl_output : list Q
}.

(** [currentGap] of a turn of the loop. *)
Definition currentGap (L : Z) (st : DelayLoop) : Z :=
  c_mod (dl_writePos st - dl_readPos st + L) L.

(** "Start playback when buffer reaches target" and "Dynamic buffering":
    [canPlay] and the new [playbackStarted] and [wasPaused]. *)
Definition gate (cfg : Config) (bufferSeconds : Q)
    (playbackStarted wasPaused : bool) : bool * bool * bool :=
  if negb playbackStarted then
    let canPlay := fle (initialDelaySeconds cfg) bufferSeconds in
    (canPlay, (if canPlay then true else playbackStarted), wasPaused)
  else
    let pauseThreshold := (initialDelaySeconds cfg - 2)%Q in
    let resumeThreshold := initialDelaySeconds cfg in
    let wasPaused :=
      if flt bufferSeconds pauseThreshold && negb wasPaused then true
      else if fle resumeThreshold bufferSeconds && wasPaused then false
      else wasPaused in
    (negb wasPaused, playbackStarted, wasPaused).

(** One turn of the loop "Delay buffer management", for frame [i]. *)
Definition delayFrame (cfg : Config) (L : Z) (inputBuffer : list Q) (i : Z)
    (st : DelayLoop) : DelayLoop :=
  let writePos := dl_writePos st in
  let readPos := dl_readPos st in
  let buffer :=
    for_loop 0 (channels cfg)
      (fun ch buffer =>
         let sample := vec_get inputBuffer (i * channels cfg + ch) in
         alter (fun channel => vec_set channel writePos sample) (Z.to_nat ch) buffer)
      (dl_buffer st) in
  let bufferSeconds := (inject_Z (currentGap L st) / inject_Z (sampleRate cfg))%Q in
  let '(canPlay, playbackStarted, wasPaused) :=
    gate cfg bufferSeconds (dl_playbackStarted st) (dl_wasPaused st) in
  let output :=
    for_loop 0 (channels cfg)
      (fun ch output =>
         vec_set output (i * channels cfg + ch)
           (if canPlay
            then vec_get (default [] (buffer !! Z.to_nat ch)) readPos
            else 0%Q))
      (dl_output st) in
  mkDelayLoop buffer (c_mod (writePos + 1) L)
    (if canPlay then c_mod (readPos + 1) L else readPos)
    playbackStarted wasPaused output.

(** The loop variables when the loop starts, and after [n] turns. *)
Definition delayLoopInit (s : State) (outputBuffer : list Q) : DelayLoop :=
  mkDelayLoop (delayBuffer s) (delayWritePos s) (delayReadPos s)
    (playbackStarted s) (wasPaused s) outputBuffer.

Definition delayFrames (s : State) (inputBuffer outputBuffer : list Q)
    (n : Z) : DelayLoop :=
  for_loop 0 n (delayFrame (config s) (delayBufferSize s) inputBuffer)
    (delayLoopInit s outputBuffer).

(** [AudioProcessor::process]: the new state and the output buffer. *)
Definition process (inputBuffer outputBuffer : list Q) (frames : Z)
    (s : State) : State * list Q :=
  let cfg := config s in
  let '(audioBuffer1, bufferWritePos1) :=
    accumulate cfg inputBuffer frames (audioBuffer s, bufferWritePos s) in
  let transcriptionInterval1 := transcriptionInterval s + frames in
  let chunkLength := (inject_Z (sampleRate cfg) * chunkSeconds cfg)%Q in
  let due := fle chunkLength (inject_Z transcriptionInterval1) in
  let handoff := due && negb (hasNewBuffer s) in
  let waiting := due && hasNewBuffer s in
  let samplesToProcess := Z.min bufferWritePos1 (to_int chunkLength) in
  let processingBuffer1 :=
    if handoff
    then take (Z.to_nat samplesToProcess) audioBuffer1
           ++ drop (Z.to_nat samplesToProcess) (processingBuffer s)
    else processingBuffer s in
  let bufferCaptureTime1 :=
    if handoff then inject_Z (delayWritePos s) else bufferCaptureTime s in
  let debugCounter1 := if waiting then debugCounter s + 1 else debugCounter s in
  let wasWaiting1 :=
    if handoff then false
    else if waiting && (c_mod debugCounter1 100 =? 0) then true
    else wasWaiting s in
  let st := delayFrames s inputBuffer outputBuffer frames in
  (mkState cfg (dl_buffer st) (delayBufferSize s) (dl_writePos st)
     (dl_readPos st) (dl_playbackStarted st) (dl_wasPaused st) audioBuffer1
     processingBuffer1
     (if handoff then 0 else bufferWritePos1)
     (if handoff then 0 else transcriptionInterval1)
     bufferCaptureTime1
     (if handoff then true else hasNewBuffer s)
     (profanityCount s) (bufferUnderrun s) wasWaiting1 debugCounter1
     (streamTime s + inject_Z frames / inject_Z (sampleRate cfg))%Q,
   dl_output st).

(** ** The worker ([whisperThreadFunction]): picking up a pending chunk.
    The result is the state, the samples copied from [processingBuffer]
    into the worker's [localBuffer], and [captureTime]; [None] when no chunk
    is pending (the worker stays blocked). *)
Definition whisperTake (s : State) : option (State * list Q * Q) :=
  if hasNewBuffer s then
    Some (mkState (config s) (delayBuffer s) (delayBufferSize s)
            (delayWritePos s) (delayReadPos s) (playbackStarted s)
            (wasPaused s) (audioBuffer s) (processingBuffer s)
            (bufferWritePos s) (transcriptionInterval s)
            (bufferCaptureTime s) false (profanityCount s)
            (bufferUnderrun s) (wasWaiting s) (debugCounter s) (streamTime s),
          processingBuffer s, bufferCaptureTime s)
  else None.


(** ** Reported values *)

(** [AudioProcessor::getCurrentLatency], in milliseconds. *)
Definition getCurrentLatency (s : State) : Q :=
  (initialDelaySeconds (config s) * 1000)%Q.

(** [AudioProcessor::getBufferFill]. *)
Definition getBufferFill (s : State) : Q :=
  let writePos := delayWritePos s in
  let readPos := delayReadPos s in
  let gap := c_mod (writePos - readPos + delayBufferSize s) (delayBufferSize s) in
  (inject_Z gap / inject_Z (delayBufferSize s))%Q.

(** ** Resampling for the recognizer *)

(** [AudioProcessor::resampleTo16kHz]: linear interpolation between
    neighbouring input samples; [output] starts as [outputSize] zeros. *)
Definition resampleTo16kHz (cfg : Config) (input : list Q) : list Q :=
  if sampleRate cfg =? 16000 then input
  else
    let ratio := (inject_Z (sampleRate cfg) / 16000)%Q in
    let outputSize := to_int (inject_Z (Z.of_nat (length input)) / ratio) in
    let output := replicate (Z.to_nat outputSize) 0%Q in
    for_loop 0 outputSize
      (fun i output =>
         let srcPos := (inject_Z i * ratio)%Q in
         let srcIndex := to_int srcPos in
         let frac := (srcPos - inject_Z srcIndex)%Q in
         if srcIndex + 1 <? Z.of_nat (length input)
         then
           vec_set output i
             (vec_get input srcIndex * (1 - frac)
              + vec_get input (srcIndex + 1) * frac)%Q
         else vec_set output i (vec_get input srcIndex))
      output.

(** ** Cleaning the text of a token *)

(** The first [std::regex_replace], "Remove parenthetical content": every
    opening parenthesis that has a closing one after it is removed together
    with everything up to the first closing one.  [hasClose] tells whether
    a closing parenthesis follows; [skipParen] is the scan inside a
    match. *)
Definition hasClose (cs : list ascii) : bool :=
  existsb (Ascii.eqb ")") cs.

Fixpoint removeParens (cs : list ascii) : list ascii :=
  match cs with
  | [] => []
  | c :: cs' =>
      if Ascii.eqb c "(" then
        if hasClose cs' then skipParen cs' else c :: cs'
      else c :: removeParens cs'
  end
with skipParen (cs : list ascii) : list ascii :=
  match cs with
  | [] => []
  | c :: cs' => if Ascii.eqb c ")" then removeParens cs' else skipParen cs'
  end.

(** [std::regex_replace] of the three bytes [b1 b2 b3] by the character
    [r], from left to right. *)
Fixpoint replaceBytes (b1 b2 b3 r : ascii) (cs : list ascii) : list ascii :=
  match cs with
  | [] => []
  | c1 :: cs1 =>
      match cs1 with
      | c2 :: c3 :: rest =>
          if Ascii.eqb c1 b1 && Ascii.eqb c2 b2 && Ascii.eqb c3 b3
          then r :: replaceBytes b1 b2 b3 r rest
          else c1 :: replaceBytes b1 b2 b3 r cs1
      | _ => c1 :: replaceBytes b1 b2 b3 r cs1
      end
  end.

(** The test of the filter loop: [isalnum], an apostrophe, a hyphen or a
    space. *)
Definition keptChar (c : ascii) : bool :=
  isalnum c || Ascii.eqb c "'" || Ascii.eqb c "-" || Ascii.eqb c " ".

(** A character of [" \t\n\r"]. *)
Definition trimChar (c : ascii) : bool :=
  Ascii.eqb c " " || Ascii.eqb c "009" || Ascii.eqb c "010" || Ascii.eqb c "013".

(** [s.erase(0, s.find_first_not_of(" \t\n\r"))]. *)
Fixpoint trimLeft (cs : list ascii) : list ascii :=
  match cs with
  | [] => []
  | c :: cs' => if trimChar c then trimLeft cs' else cs
  end.

(** [s.erase(s.find_last_not_of(" \t\n\r") + 1)]. *)
Definition trimRight (cs : list ascii) : list ascii :=
  rev (trimLeft (rev cs)).

(** [AudioProcessor::cleanTranscriptText]. *)
Definition cleanTranscriptText (text : string) : string :=
  let cleaned := list_ascii_of_string text in
  let cleaned := removeParens cleaned in
  let cleaned := replaceBytes "195" "150" "172" "'" cleaned in
  let cleaned := replaceBytes "226" "128" "152" "'" cleaned in
  let cleaned := replaceBytes "226" "128" "153" "'" cleaned in
  let cleaned := replaceBytes "226" "128" "156" "034" cleaned in
  let cleaned := replaceBytes "226" "128" "157" "034" cleaned in
  let filtered := List.filter keptChar cleaned in
  string_of_list_ascii (trimRight (trimLeft filtered)).
End AudioProcessor.

(** * The life cycle of an AudioProcessor *)

Module Lifecycle.

(** [std::thread whisperThread]: no thread, a thread that can be joined,
    or a thread that was joined. *)
Inductive Thread := NoThread | Joinable | Joined.

(** The members that [start] and [stop] read or write, around the state of
    the engine; the recognizer context that [stop] frees is left out. *)
Record Processor := mkProcessor {
  engine : AudioProcessor.State;
  shouldStopThread : bool;
  whisperThread : Thread;
  lastError : string
}.

(** The object after its constructor: [shouldStopThread{false}]. *)
Definition constructed : Processor :=
  mkProcessor AudioProcessor.constructed false NoThread EmptyString.

(** [AudioProcessor::start] and its result.  The assignment to
    [whisperThread] ends the program in [std::terminate] when the thread
    it replaces can be joined: [None]. *)
Definition start (p : Processor) : option (Processor * bool) :=
  if shouldStopThread p then
    Some (mkProcessor (engine p) (shouldStopThread p) (whisperThread p)
            "Already running", false)
  else
    match whisperThread p with
    | Joinable => None
    | _ =>
        Some (mkProcessor (AudioProcessor.start (engine p)) false Joinable
                (lastError p), true)
    end.

(** [AudioProcessor::stop]. *)
Definition stop (p : Processor) : Processor :=
  if negb (shouldStopThread p) then p
  else
    mkProcessor (engine p) true
      (match whisperThread p with Joinable => Joined | t => t end)
      (lastError p).

End Lifecycle.

(** * The command line of the daemon ([hardware/src/main.cpp]) *)

Module Daemon.

(** How the argument loop of [main] ends: a [return] with an exit code, or
    the end of the loop with the path of the configuration file, with
    which [main] goes on. *)
Inductive Outcome := Exit (code : Z) | Run (configPath : string).

(** The loop "Parse command line arguments", from [argv[i]] on. *)
Fixpoint parseArguments (args : list string) (configPath : string) : Outcome :=
  match args with
  | [] => Run configPath
  | arg :: rest =>
      if String.eqb arg "-h" || String.eqb arg "--help" then Exit 0
      else if String.eqb arg "-v" || String.eqb arg "--version" then Exit 0
      else if String.eqb arg "-c" || String.eqb arg "--config" then
        match rest with
        | value :: rest' => parseArguments rest' value
        | [] => Exit 1
        end
      else Exit 1
  end.

(** [main] up to "Load configuration"; [argv[0]] is the program name. *)
Definition main (argv : list string) : Outcome :=
  parseArguments (tail argv) "/etc/explicitly/config.yaml".

End Daemon.

(** * Vocabulary of the properties

    Definitions in which the properties below are stated: views of the
    engine state, the wording of the specification, and small engines and
    inputs for the examples. *)

Import LyricsAlignment AudioProcessor.

(** ** Samples and patches *)

(** A sample of channel [ch] at position [p]; [None] when either is out of
    range. *)
Definition sampleAt (buf : list (list Q)) (ch p : nat) : option Q :=
  buf !! ch ≫= fun chan => chan !! p.

(** The fade ramp of the specification: [i / fadeSamples] over the first
    [fadeSamples] frames, [(n - i) / fadeSamples] over the last, and no
    ramp between them. *)
Definition fadeRamp (i n fadeSamples : Z) : Q :=
  if i <? fadeSamples then (inject_Z i / inject_Z fadeSamples)%Q
  else if n - fadeSamples <=? i then (inject_Z (n - i) / inject_Z fadeSamples)%Q
  else 1%Q.

(** What the censor leaves alone in a state: the configuration, the size of
    the delay line, the underrun flag, and the samples at [(ch, p)] when [p]
    is no ring position of the chunk that starts at [cs]. *)
Definition sameOutsideChunk (cs : Z) (ch p : nat) (s0 s : State) : Prop :=
  config s = config s0 /\ delayBufferSize s = delayBufferSize s0
  /\ bufferUnderrun s = bufferUnderrun s0
  /\ sampleAt (delayBuffer s) ch p = sampleAt (delayBuffer s0) ch p.

(** [K], the number of frames of a chunk: [sampleRate * chunkSeconds], the
    size of the capture buffer. *)
Definition chunkFrames (cfg : Config) : Z :=
  to_int (inject_Z (sampleRate cfg) * chunkSeconds cfg).

(** ** Hits of the scan *)

(** A hit, as the censor finds it: the index of its first word and the
    word segments it spans. *)
Inductive Hit :=
  | SingleHit (idx : nat) (wordSeg : WordSegment)
  | BigramHit (idx : nat) (wordSeg nextWord : WordSegment).

(** The index of the first word of a hit. *)
Definition hitIndex (h : Hit) : nat :=
  match h with SingleHit idx _ => idx | BigramHit idx _ _ => idx end.

(** What a hit does to the engine and to [detectedWords]. *)
Definition applyHit (toSample : SampleCast) (chunkStartPos : Z) (acc : State * list string) (h : Hit)
    : State * list string :=
  match h with
  | SingleHit _ wordSeg =>
      (censorSingle toSample chunkStartPos wordSeg acc.1, acc.2 ++ [word wordSeg])
  | BigramHit _ wordSeg nextWord =>
      (censorBigram toSample chunkStartPos wordSeg nextWord acc.1,
       acc.2 ++ [(word wordSeg ++ " " ++ word nextWord)%string])
  end.

Section HitScan.

Variable containsProfanity : string -> bool.

(** The hits of a scan, in words: at each index the single word is looked
    up and, when it matches, is a hit, unless the engine is in underrun, in
    which case the scan moves to the next index at once; then the bigram
    with the next word is looked up, whether or not the single word
    matched; a bigram hit consumes both words. *)
Fixpoint scanHits (underrun : bool) (idx : nat) (words : list WordSegment)
    : list Hit :=
  match words with
  | [] => []
  | wordSeg :: rest =>
      let multiWord :=
        match rest with
        | nextWord :: rest' =>
            if containsProfanity (normalizeText (word wordSeg ++ word nextWord))
            then
              if underrun then scanHits underrun (S idx) rest
              else BigramHit idx wordSeg nextWord
                     :: scanHits underrun (S (S idx)) rest'
            else scanHits underrun (S idx) rest
        | [] => scanHits underrun (S idx) rest
        end in
      if containsProfanity (normalizeText (word wordSeg)) then
        if underrun then scanHits underrun (S idx) rest
        else SingleHit idx wordSeg :: multiWord
      else multiWord
  end.

End HitScan.

(** ** The gate and the runs of the engine *)

(** The three states of the gate, read off [playbackStarted] and the static
    [wasPaused]. *)
Inductive GateState := Warming | Playing | Paused.

(** Warming until playback has started, then Paused or Playing. *)
Definition gateState (playbackStarted wasPaused : bool) : GateState :=
  if negb playbackStarted then Warming
  else if wasPaused then Paused else Playing.

(** The state of the gate in the variables of the delay loop. *)
Definition gateOf (st : DelayLoop) : GateState :=
  gateState (dl_playbackStarted st) (dl_wasPaused st).

(** The length of the delay line that [initialize] allocates. *)
Definition delayLength (cfg : Config) : Z :=
  to_int (inject_Z (sampleRate cfg) * (initialDelaySeconds cfg + 10)).

(** A configuration with a positive sample rate and a non-negative initial
    delay. *)
Definition configOk (cfg : Config) : Prop :=
  0 < sampleRate cfg /\ (0 <= initialDelaySeconds cfg)%Q.

(** What holds of the loop variables in every run from [start]: the gate
    never pauses, the positions are ring positions, and the fill is the
    warm-up count while warming and at least the initial delay after. *)
Definition GateInv (cfg : Config) (st : DelayLoop) : Prop :=
  dl_wasPaused st = false
  /\ 0 <= dl_writePos st < delayLength cfg
  /\ 0 <= dl_readPos st < delayLength cfg
  /\ if dl_playbackStarted st
     then (initialDelaySeconds cfg * inject_Z (sampleRate cfg)
           <= inject_Z (currentGap (delayLength cfg) st))%Q
     else dl_readPos st = 0
          /\ (inject_Z (dl_writePos st)
              < initialDelaySeconds cfg * inject_Z (sampleRate cfg) + 1)%Q.

(** The fields of the engine that the gate reads. *)
Definition gateFields (s : State) : Config * Z * Z * Z * bool * bool :=
  (config s, delayBufferSize s, delayWritePos s, delayReadPos s,
   playbackStarted s, wasPaused s).

(** The states of the engine in a run: [initialize] and [start] on a new
    object, then calls of [process], pick-ups of a chunk by the worker and
    runs of the censor, in any order. *)
Inductive reachable (cfg : Config) : State -> Prop :=
  | reach_start : reachable cfg (AudioProcessor.start (initialize cfg constructed))
  | reach_process s inputBuffer outputBuffer frames :
      reachable cfg s ->
      reachable cfg (process inputBuffer outputBuffer frames s).1
  | reach_take s s' chunk captureTime :
      reachable cfg s ->
      whisperTake s = Some (s', chunk, captureTime) ->
      reachable cfg s'
  | reach_censor s toSample containsProfanity words captureTime :
      reachable cfg s ->
      reachable cfg (censorTranscription toSample containsProfanity words captureTime s).1.

(** Calls of [process] with one mono frame each. *)
Definition feed (s : State) (samples : list Q) : State :=
  foldl (fun s v => (process [v] [0%Q] 1 s).1) s samples.

(** The engine after the worker's pick-up, and what the worker picked up:
    the chunk and its [captureTime]. *)
Definition afterTake (s : State) : State :=
  match whisperTake s with Some (s', _, _) => s' | None => s end.

Definition takenChunk (s : State) : option (list Q * Q) :=
  (fun r => (r.1.2, r.2)) <$> whisperTake s.

(** ** Edit scripts *)

(** The matrix has [rows] rows of [cols] entries. *)
Definition dims (matrix : list (list Z)) (rows cols : nat) : Prop :=
  length matrix = rows /\ forall r row, matrix !! r = Some row -> length row = cols.

(** An operation of the alignment: a transcribed word aligned with a lyric
    word (a match or a substitution), a lyric word inserted, a transcribed
    word deleted. *)
Inductive EditOp :=
  | Aligned (trans_idx lyrics_idx : Z)
  | Inserted (lyrics_idx : Z)
  | Deleted (trans_idx : Z).

(** [Script i j ops]: the operations [ops], in order, go through the first
    [i] transcribed words and the first [j] lyric words, each exactly once. *)
Inductive Script : Z -> Z -> list EditOp -> Prop :=
  | script_nil : Script 0 0 []
  | script_aligned i j ops :
      Script i j ops -> Script (i + 1) (j + 1) (ops ++ [Aligned i j])
  | script_inserted i j ops :
      Script i j ops -> Script i (j + 1) (ops ++ [Inserted j])
  | script_deleted i j ops :
      Script i j ops -> Script (i + 1) j (ops ++ [Deleted i]).

(** The segment, if any, that an operation adds to the segments emitted so
    far, in the words of the specification. *)
Definition emitOp (lyricsWords : list string)
    (originalSegments : list WordSegment) (emitted : list WordSegment)
    (op : EditOp) : list WordSegment :=
  match op with
  | Aligned trans_idx lyrics_idx =>
      let transcribed := seg_get originalSegments trans_idx in
      emitted ++
        [mkWordSegment (str_get lyricsWords lyrics_idx)
           (LyricsAlignment.start transcribed) (end_ transcribed)
           (confidence transcribed * (95 # 100))%Q]
  | Inserted lyrics_idx =>
      let start :=
        match last emitted with Some previous => end_ previous | None => 0%Q end in
      emitted ++
        [mkWordSegment (str_get lyricsWords lyrics_idx) start
           (start + (3 # 10))%Q (1 # 2)%Q]
  | Deleted _ => emitted
  end.

(** The entry of [alignments] for an operation. *)
Definition alignmentOf (op : EditOp) : option (Z * Z) :=
  match op with
  | Aligned trans_idx lyrics_idx => Some (trans_idx, lyrics_idx)
  | Inserted lyrics_idx => Some (-1, lyrics_idx)
  | Deleted _ => None
  end.

Definition opInRange (op : EditOp) : Prop :=
  match op with
  | Aligned trans_idx lyrics_idx => 0 <= trans_idx /\ 0 <= lyrics_idx
  | Inserted lyrics_idx => 0 <= lyrics_idx
  | Deleted trans_idx => 0 <= trans_idx
  end.

(** ** Engines and inputs of the examples *)

(** A small engine state for examples: two channels of eight samples. *)
Definition demoState (mode : CensorMode) : State :=
  {| config := mkConfig 1 2 mode 1 1;
     delayBuffer := [[1; 2; 3; 4; 5; 6; 7; 8]; [-1; -2; -3; -4; -5; -6; -7; -8]]%Q;
     delayBufferSize := 8;
     delayWritePos := 6; delayReadPos := 5; playbackStarted := true;
     wasPaused := false; audioBuffer := [0%Q]; processingBuffer := [0%Q];
     bufferWritePos := 0; transcriptionInterval := 0; bufferCaptureTime := 6;
     hasNewBuffer := false; profanityCount := 0; bufferUnderrun := false;
     wasWaiting := false; debugCounter := 0; streamTime := 6 |}.

(** The small engine state with chunks of five seconds. *)
Definition demoChunkState : State :=
  {| config := mkConfig 1 2 Reverse 1 5;
     delayBuffer := [[1; 2; 3; 4; 5; 6; 7; 8]; [-1; -2; -3; -4; -5; -6; -7; -8]]%Q;
     delayBufferSize := 8;
     delayWritePos := 6; delayReadPos := 5; playbackStarted := true;
     wasPaused := false; audioBuffer := [0; 0; 0; 0; 0]%Q;
     processingBuffer := [0; 0; 0; 0; 0]%Q;
     bufferWritePos := 0; transcriptionInterval := 0; bufferCaptureTime := 6;
     hasNewBuffer := false; profanityCount := 0; bufferUnderrun := false;
     wasWaiting := false; debugCounter := 0; streamTime := 6 |}.

(** A lexicon for the examples. *)
Definition demoLexicon (w : string) : bool :=
  String.eqb w "bull" || String.eqb w "bullshit" || String.eqb w "holycow".

(** Two words whose first is in the lexicon on its own and whose
    concatenation is in the lexicon too: "bull" from 1.05 s to 1.45 s and
    "shit" from 1.45 s to 2.05 s. *)
Definition bullWords : list WordSegment :=
  [mkWordSegment "bull" (105 # 100) (145 # 100) (9 # 10);
   mkWordSegment "shit" (145 # 100) (205 # 100) (9 # 10)].

(** The second of two words spread over the segment from 1 s to 2 s. *)
Definition demoWord : WordSegment :=
  Eval vm_compute in
    default (mkWordSegment EmptyString 0 0 0)
      (distributeWords 100 200 ["hello"; "world"]%string !! 1%nat).

(** A small configuration: 2 Hz, mono, one second of delay, chunks of one
    second; the delay line has 22 frames. *)
Definition tinyConfig : Config := mkConfig 2 1 Mute 1 1.

(** The mono frames with the values [a], [a + 1], .., [n] of them. *)
Definition framesFrom (a n : Z) : list Q := inject_Z <$> seqZ a n.

(** The engine at 1 Hz, mono, with ten seconds of delay and chunks of five
    seconds, started: [K = 5] frames, a delay line of 20 frames. *)
Definition chunkEngine : State :=
  AudioProcessor.start (initialize (mkConfig 1 1 Mute 10 5) constructed).


(** The engine at 10 Hz, mono, in Reverse mode and configured without
    delay, after the frames [1, 2, .., 50], one per call, and the worker's
    pick-up of the chunk they fill.  The chunk is handed over with
    [captureTime = 49]: its frame [i] is mapped to the ring position
    [(99 + i) % 100], which holds the input frame [i]. *)
Definition reverseEngine : State :=
  afterTake
    (feed (AudioProcessor.start (initialize (mkConfig 10 1 Reverse 0 5) constructed))
       (framesFrom 1 50)).

(** The samples of channel 0 at the chunk frames [from], .., [from + n - 1]
    of the chunk that starts at [chunkStartPos], in lowest terms. *)
Definition chunkFramesOf (s : State) (chunkStartPos from n : Z) : list Q :=
  (fun i =>
     Qred (vec_get (default [] (delayBuffer s !! 0%nat))
             (c_mod (chunkStartPos + i) (delayBufferSize s))))
    <$> seqZ from n.

(** The engine of the examples of the gate: 1 Hz, mono, ten seconds of
    delay, a delay line of twenty frames; and the variables of its delay
    loop with given positions and gate, before a frame whose output slot
    holds a 5. *)
Definition gateConfig : Config := mkConfig 1 1 Mute 10 5.

Definition gateLoop (writePos readPos : Z) (started paused : bool) : DelayLoop :=
  mkDelayLoop [replicate 20 1%Q] writePos readPos started paused [5%Q].


(** ** The delay line as a stream *)

(** The initial delay in frames: the least number of buffered frames with
    which the gate opens. *)
Definition delayInFrames (cfg : Config) : Z :=
  Qceiling (initialDelaySeconds cfg * inject_Z (sampleRate cfg)).

(** One call of the audio callback: the interleaved input block, the
    caller's output buffer and the frame count. *)
Record Block := mkBlock {
  blk_input : list Q;
  blk_output : list Q;
  blk_frames : Z
}.

(** Both buffers of a call hold [frames * channels] samples. *)
Definition blockOk (cfg : Config) (b : Block) : Prop :=
  0 <= blk_frames b
  /\ Z.of_nat (length (blk_input b)) = blk_frames b * channels cfg
  /\ Z.of_nat (length (blk_output b)) = blk_frames b * channels cfg.

(** A run of calls of [process]; the outputs one after the other. *)
Fixpoint processAll (s : State) (blocks : list Block) : State * list Q :=
  match blocks with
  | [] => (s, [])
  | b :: blocks =>
      let '(s1, out) := process (blk_input b) (blk_output b) (blk_frames b) s in
      let '(s2, outs) := processAll s1 blocks in
      (s2, out ++ outs)
  end.

(** The samples of [stream] from flat position [from] on, [count] of them,
    behind [delay] zeros. *)
Definition delayedSlice (delay from count : Z) (stream : list Q) : list Q :=
  take (Z.to_nat count)
    (drop (Z.to_nat from) (replicate (Z.to_nat delay) 0%Q ++ stream)).

(** [input], delayed by the initial delay and cut to its own length. *)
Definition delayedBy (cfg : Config) (input : list Q) : list Q :=
  delayedSlice (delayInFrames cfg * channels cfg) 0
    (Z.of_nat (length input)) input.

(** The loop variables after [n] frames with the samples [hist], in a run
    without pauses: positions, gate, and the last frames in the ring. *)
Definition StreamInv (cfg : Config) (hist : list Q) (n : Z)
    (st : DelayLoop) : Prop :=
  let C := channels cfg in
  let L := delayLength cfg in
  let D := delayInFrames cfg in
  0 <= n
  /\ Z.of_nat (length hist) = n * C
  /\ dl_wasPaused st = false
  /\ dl_writePos st = n `mod` L
  /\ dl_playbackStarted st = bool_decide (D < n)
  /\ dl_readPos st = (if decide (n <= D) then 0 else (n - D) `mod` L)
  /\ forall ch, 0 <= ch < C ->
       exists chan, dl_buffer st !! Z.to_nat ch = Some chan
         /\ Z.of_nat (length chan) = L
         /\ forall j, 0 <= j < n -> n - L <= j ->
              vec_get chan (j `mod` L) = vec_get hist (j * C + ch).

(** A call with the three frames 1, 2, 3, for the examples. *)
Definition threeFrames : Block := mkBlock (framesFrom 1 3) (framesFrom 0 3) 3.

(** ** The shape of the buffers *)

(** The buffers have the sizes that [initialize] gave them, and the
    positions lie within them. *)
Definition shapeOk (cfg : Config) (s : State) : Prop :=
  length (delayBuffer s) = Z.to_nat (channels cfg)
  /\ Forall (fun channel => Z.of_nat (length channel) = delayLength cfg)
       (delayBuffer s)
  /\ length (audioBuffer s) = Z.to_nat (chunkFrames cfg)
  /\ length (processingBuffer s) = Z.to_nat (chunkFrames cfg)
  /\ 0 <= bufferWritePos s <= Z.of_nat (length (audioBuffer s))
  /\ 0 <= delayWritePos s < delayLength cfg
  /\ 0 <= delayReadPos s < delayLength cfg.

(** ** Chunks and detections *)

(** [chunkEngine] after five frames: the first chunk is handed over and
    waits for the worker. *)
Definition pendingEngine : State := feed chunkEngine (framesFrom 1 5).

(** No word of the list and no pair of neighbours is in the lexicon. *)
Fixpoint noMatch (containsProfanity : string -> bool)
    (words : list WordSegment) : Prop :=
  match words with
  | [] => True
  | wordSeg :: rest =>
      containsProfanity (normalizeText (word wordSeg)) = false
      /\ match rest with
         | nextWord :: _ =>
             containsProfanity (normalizeText (word wordSeg ++ word nextWord))
             = false
         | [] => True
         end
      /\ noMatch containsProfanity rest
  end.



(** The tiny engine in Mute mode after three frames: playback has started
    and two frames are buffered. *)
Definition warmEngine : State :=
  (process (framesFrom 1 3) (framesFrom 0 3) 3
     (AudioProcessor.start (initialize tinyConfig constructed))).1.

(** The first of two words spread over the segment from 1 s to 2 s. *)
Definition demoFirstWord : WordSegment :=
  Eval vm_compute in
    default (mkWordSegment EmptyString 0 0 0)
      (distributeWords 100 200 ["hello"; "world"]%string !! 0%nat).

(** A cast whose product is rounded by at most [eps] before it is
    truncated: [toSample seconds rate] is the truncation of a value within
    [eps] of [seconds * rate]. *)
Definition castWithin (eps : Q) (toSample : SampleCast) : Prop :=
  forall (seconds : Q) (rate : Z),
    exists product : Q,
      (Qabs (product - seconds * inject_Z rate) <= eps)%Q
      /\ toSample seconds rate = to_int product.

(** ** Edit distance *)

(** The edit distance between the first [i] words of [seq1] and the first
    [j] words of [seq2], by the recurrence on prefixes: nothing to pay for
    two equal last words, and otherwise one more than the least of a
    deletion, an insertion and a replacement. *)
Fixpoint levenshtein (seq1 seq2 : list string) (i : nat) : nat -> Z :=
  match i with
  | O => fun j => Z.of_nat j
  | S i' =>
      fix row (j : nat) : Z :=
        match j with
        | O => Z.of_nat (S i')
        | S j' =>
            if String.eqb (str_get seq1 (Z.of_nat i')) (str_get seq2 (Z.of_nat j'))
            then levenshtein seq1 seq2 i' j'
            else 1 + Z.min (levenshtein seq1 seq2 i' (S j'))
                       (Z.min (row j') (levenshtein seq1 seq2 i' j'))
        end
  end.

(** ** Normalised text *)

(** A lower-case letter or a digit. *)
Definition islowernum (c : ascii) : bool :=
  (((48 <=? code c) && (code c <=? 57))
   || ((97 <=? code c) && (code c <=? 122)))%nat.

(** A word of a normalised text: not empty, lower-case letters and
    digits only. *)
Definition normalWord (w : string) : Prop :=
  w ≠ EmptyString
  /\ Forall (fun c => islowernum c = true) (list_ascii_of_string w).

(** A mono configuration at 8 kHz, and one at 48 kHz. *)
Definition eightKilohertz : Config := mkConfig 8000 1 Mute 1 1.
Definition fortyEightKilohertz : Config := mkConfig 48000 1 Mute 1 1.

(** ** The life cycle *)

(** The processors of a run: the constructed object, then calls of [start]
    that return, calls of [stop], and whatever the callback, the worker
    and the censor do to the engine between them. *)
Inductive alive : Lifecycle.Processor -> Prop :=
  | alive_constructed : alive Lifecycle.constructed
  | alive_start p p' ok :
      alive p -> Lifecycle.start p = Some (p', ok) -> alive p'
  | alive_stop p : alive p -> alive (Lifecycle.stop p)
  | alive_engine p s :
      alive p ->
      alive (Lifecycle.mkProcessor s (Lifecycle.shouldStopThread p)
               (Lifecycle.whisperThread p) (Lifecycle.lastError p)).

(** The processor after [start]. *)
Definition startedProcessor : Lifecycle.Processor :=
  Lifecycle.mkProcessor (AudioProcessor.start AudioProcessor.constructed)
    false Lifecycle.Joinable EmptyString.

(** ** The captured chunk *)

(** The mono downmix of the frames of a call, and the number of frames of
    a run of calls. *)
Definition blockMono (cfg : Config) (b : Block) : list Q :=
  monoSample cfg (blk_input b) <$> seqZ 0 (blk_frames b).

Definition totalFrames (blocks : list Block) : Z :=
  foldr (fun b n => blk_frames b + n) 0 blocks.

(** The capture starts a chunk: nothing captured, no chunk pending, and
    capture and processing buffer of [chunkFrames] samples. *)
Definition captureIdle (cfg : Config) (s : State) : Prop :=
  config s = cfg
  /\ hasNewBuffer s = false
  /\ bufferWritePos s = 0 /\ transcriptionInterval s = 0
  /\ Z.of_nat (length (audioBuffer s)) = chunkFrames cfg
  /\ Z.of_nat (length (processingBuffer s)) = chunkFrames cfg.

(** ** The command line *)

(** An option that takes the path of the configuration file. *)
Definition configOption (opt : string) : Prop :=
  opt = "-c"%string \/ opt = "--config"%string.

(** The arguments that are options with their values, one after the
    other. *)
Definition optionArgs (pairs : list (string * string)) : list string :=
  concat ((fun pr => [pr.1; pr.2]) <$> pairs).

(** ** What is played *)

(** Channel [ch] of the delay line. *)
Definition delayChannel (s : State) (ch : Z) : list Q :=
  default [] (delayBuffer s !! Z.to_nat ch).

(** The loop variables [k] frames into a call on [s] that plays what the
    delay line of [s] holds. *)
Definition PlayInv (cfg : Config) (s : State) (outb : list Q) (k : Z)
    (st : DelayLoop) : Prop :=
  let C := channels cfg in
  let L := delayLength cfg in
  GateInv cfg st
  /\ dl_playbackStarted st = true
  /\ dl_writePos st = (delayWritePos s + k) `mod` L
  /\ dl_readPos st = (delayReadPos s + k) `mod` L
  /\ length (dl_output st) = length outb
  /\ (forall ch p, 0 <= ch < C ->
        (forall i', 0 <= i' < k -> (delayWritePos s + i') `mod` L ≠ p) ->
        vec_get (default [] (dl_buffer st !! Z.to_nat ch)) p
        = vec_get (delayChannel s ch) p)
  /\ (forall i ch, 0 <= i < k -> 0 <= ch < C ->
        vec_get (dl_output st) (i * C + ch)
        = vec_get (delayChannel s ch) ((delayReadPos s + i) `mod` L)).

(** ** Scripts that follow the matrix *)

(** [Traceback matrix transcribedWords lyricsWords i j ops]: the script
    [ops] for the first [i] transcribed and the first [j] lyric words
    retraces the matrix.  Two equal words are paired where the matrix
    does not grow; two different words are paired (a substitution), a
    lyric word is inserted and a transcribed word is deleted where the
    matrix grows by one. *)
Inductive Traceback (matrix : list (list Z))
    (transcribedWords lyricsWords : list string)
    : Z -> Z -> list EditOp -> Prop :=
  | trace_nil : Traceback matrix transcribedWords lyricsWords 0 0 []
  | trace_match i j ops :
      0 <= i -> 0 <= j ->
      str_get transcribedWords i = str_get lyricsWords j ->
      mat_get matrix (i + 1) (j + 1) = mat_get matrix i j ->
      Traceback matrix transcribedWords lyricsWords i j ops ->
      Traceback matrix transcribedWords lyricsWords (i + 1) (j + 1)
        (ops ++ [Aligned i j])
  | trace_substitute i j ops :
      0 <= i -> 0 <= j ->
      str_get transcribedWords i ≠ str_get lyricsWords j ->
      mat_get matrix (i + 1) (j + 1) = mat_get matrix i j + 1 ->
      Traceback matrix transcribedWords lyricsWords i j ops ->
      Traceback matrix transcribedWords lyricsWords (i + 1) (j + 1)
        (ops ++ [Aligned i j])
  | trace_insert i j ops :
      0 <= i -> 0 <= j ->
      mat_get matrix i (j + 1) = mat_get matrix i j + 1 ->
      Traceback matrix transcribedWords lyricsWords i j ops ->
      Traceback matrix transcribedWords lyricsWords i (j + 1)
        (ops ++ [Inserted j])
  | trace_delete i j ops :
      0 <= i -> 0 <= j ->
      mat_get matrix (i + 1) j = mat_get matrix i j + 1 ->
      Traceback matrix transcribedWords lyricsWords i j ops ->
      Traceback matrix transcribedWords lyricsWords (i + 1) j
        (ops ++ [Deleted i]).

(** The cost of an operation, nothing for a pair of equal words and one
    for every other operation, and the cost of a script. *)
Definition opCost (transcribedWords lyricsWords : list string) (op : EditOp)
    : Z :=
  match op with
  | Aligned trans_idx lyrics_idx =>
      if String.eqb (str_get transcribedWords trans_idx)
           (str_get lyricsWords lyrics_idx)
      then 0 else 1
  | Inserted _ | Deleted _ => 1
  end.

Definition scriptCost (transcribedWords lyricsWords : list string)
    (ops : list EditOp) : Z :=
  foldl (fun cost op => cost + opCost transcribedWords lyricsWords op) 0 ops.

(** The segment of the specification for a transcribed word paired with
    a lyric word: the lyric word with the transcribed word's times and
    its confidence times 0.95. *)
Definition pairedSegment (lyricsWords : list string)
    (originalSegments : list WordSegment) (trans_idx lyrics_idx : Z)
    : WordSegment :=
  let transcribed := seg_get originalSegments trans_idx in
  mkWordSegment (str_get lyricsWords lyrics_idx)
    (LyricsAlignment.start transcribed) (end_ transcribed)
    (confidence transcribed * (95 # 100))%Q.

(** * Properties *)

(** ** Vectors and loops *)

Section VectorLemmas.

Implicit Types (v : list Q) (i j : Z) (x : Q).

Lemma length_vec_set v i x : length (vec_set v i x) = length v.
Proof. unfold vec_set. destruct (0 <=? i); [apply length_insert | done]. Qed.

Lemma vec_set_lookup_ne v i x (k : nat) :
  i ≠ Z.of_nat k -> vec_set v i x !! k = v !! k.
Proof.
  intros Hne. unfold vec_set. destruct (Z.leb_spec 0 i); [|done].
  apply list_lookup_insert_ne. lia.
Qed.

Lemma vec_set_lookup_eq v i x :
  0 <= i < Z.of_nat (length v) -> vec_set v i x !! Z.to_nat i = Some x.
Proof.
  intros Hi. unfold vec_set. destruct (Z.leb_spec 0 i); [|lia].
  apply list_lookup_insert_eq. lia.
Qed.

Lemma vec_get_lookup v i :
  0 <= i -> vec_get v i = default 0%Q (v !! Z.to_nat i).
Proof. intros Hi. unfold vec_get. destruct (Z.leb_spec 0 i); [done | lia]. Qed.

Lemma vec_get_set_eq v i x :
  0 <= i < Z.of_nat (length v) -> vec_get (vec_set v i x) i = x.
Proof.
  intros Hi. rewrite vec_get_lookup by lia. by rewrite vec_set_lookup_eq.
Qed.

Lemma vec_get_set_ne v i j x : i ≠ j -> vec_get (vec_set v i x) j = vec_get v j.
Proof.
  intros Hne. unfold vec_get. destruct (Z.leb_spec 0 j); [|done].
  rewrite vec_set_lookup_ne; [done | lia].
Qed.

Lemma vec_set_vec_set_zero v i j :
  vec_set (vec_set v i 0%Q) j 0%Q = vec_set (vec_set v j 0%Q) i 0%Q.
Proof.
  unfold vec_set. destruct (0 <=? i), (0 <=? j); try done.
  destruct (decide (Z.to_nat i = Z.to_nat j)) as [->|Hne]; [done|].
  by apply list_insert_insert_ne.
Qed.

Lemma vec_set_idemp v i x : vec_set (vec_set v i x) i x = vec_set v i x.
Proof.
  unfold vec_set. destruct (0 <=? i); [apply list_insert_insert_eq | done].
Qed.

End VectorLemmas.

(** A loop that stores [val i] at [pos i], over any list of indices. *)
Section WriteLoop.

Variables (pos : Z -> Z) (val : Z -> Q).

Let store (v : list Q) (i : Z) : list Q := vec_set v (pos i) (val i).

Lemma write_loop_length (idxs : list Z) (v : list Q) :
  length (foldl store v idxs) = length v.
Proof.
  revert v. induction idxs as [|i idxs IH]; intros v; simpl; [done|].
  rewrite IH. apply length_vec_set.
Qed.

Lemma write_loop_lookup_other (idxs : list Z) (v : list Q) (k : nat) :
  (forall i, i ∈ idxs -> pos i ≠ Z.of_nat k) ->
  foldl store v idxs !! k = v !! k.
Proof.
  revert v. induction idxs as [|i idxs IH]; intros v Hk; simpl; [done|].
  rewrite IH.
  - apply vec_set_lookup_ne, Hk. left.
  - intros j Hj. apply Hk. by right.
Qed.

Lemma write_loop_get_other (idxs : list Z) (v : list Q) (p : Z) :
  (forall i, i ∈ idxs -> pos i ≠ p) ->
  vec_get (foldl store v idxs) p = vec_get v p.
Proof.
  intros Hp. unfold vec_get. destruct (Z.leb_spec 0 p); [|done].
  rewrite write_loop_lookup_other; [done|].
  intros i Hi. specialize (Hp i Hi). lia.
Qed.

Lemma write_loop_get_hit (idxs : list Z) (v : list Q) (i : Z) :
  i ∈ idxs ->
  (forall j, j ∈ idxs -> pos j = pos i -> j = i) ->
  0 <= pos i < Z.of_nat (length v) ->
  vec_get (foldl store v idxs) (pos i) = val i.
Proof.
  revert v. induction idxs as [|j idxs IH] using rev_ind; intros v Hi Hinj Hr.
  - by apply elem_of_nil in Hi.
  - rewrite foldl_snoc. unfold store at 1.
    destruct (decide (j = i)) as [->|Hne].
    + apply vec_get_set_eq. by rewrite write_loop_length.
    + rewrite vec_get_set_ne.
      * apply IH; [|intros k Hk; apply Hinj, elem_of_app; by left|done].
        apply elem_of_app in Hi as [Hi|Hi]; [done|].
        apply list_elem_of_singleton in Hi. congruence.
      * intros Heq. apply Hne, Hinj; [|done].
        apply elem_of_app. right. apply list_elem_of_singleton. done.
Qed.

End WriteLoop.

(** The loop over the channels: channel [ch] is rewritten by [f ch]. *)
Lemma channel_loop_lookup (f : Z -> list Q -> list Q) (C : Z)
    (buf : list (list Q)) (k : nat) :
  for_loop 0 C (fun ch buf => alter (f ch) (Z.to_nat ch) buf) buf !! k =
  if decide (Z.of_nat k < C) then f (Z.of_nat k) <$> buf !! k else buf !! k.
Proof.
  unfold for_loop. rewrite Z.sub_0_r.
  destruct (Z.le_gt_cases C 0) as [HC|HC].
  { rewrite seqZ_nil by done. simpl. case_decide; [lia | done]. }
  rewrite <- (Z2Nat.id C) by lia. generalize (Z.to_nat C) as n. clear HC.
  intros n. induction n as [|n IH].
  - simpl. case_decide; [lia | done].
  - rewrite seqZ_S, foldl_snoc. simpl. rewrite Z.add_0_l, Nat2Z.id.
    destruct (decide (n = k)) as [->|Hne].
    + rewrite list_lookup_alter_eq, IH.
      repeat case_decide; try lia. done.
    + rewrite list_lookup_alter_ne by done. rewrite IH.
      repeat case_decide; try lia; done.
Qed.

Lemma channel_loop_length (f : Z -> list Q -> list Q) (C : Z)
    (buf : list (list Q)) :
  length (for_loop 0 C (fun ch buf => alter (f ch) (Z.to_nat ch) buf) buf)
  = length buf.
Proof.
  unfold for_loop. generalize (seqZ 0 (C - 0)) as idxs. intros idxs. revert buf.
  induction idxs as [|i idxs IH]; intros buf; simpl; [done|].
  rewrite IH. apply length_alter.
Qed.

(** ** Ring positions *)

Lemma c_mod_range (x L : Z) : 0 <= x -> 0 < L -> 0 <= c_mod x L < L.
Proof.
  intros Hx HL. unfold c_mod. rewrite Z.rem_mod_nonneg by lia.
  apply Z.mod_pos_bound. lia.
Qed.

Lemma c_mod_inj (base L i j : Z) :
  0 <= base -> 0 <= i -> 0 <= j -> i < L -> j < L ->
  c_mod (base + i) L = c_mod (base + j) L -> i = j.
Proof.
  intros Hb Hi Hj HiL HjL. unfold c_mod.
  rewrite !Z.rem_mod_nonneg by lia. intros Heq.
  pose proof (Z.div_mod (base + i) L ltac:(lia)) as E1.
  pose proof (Z.div_mod (base + j) L ltac:(lia)) as E2.
  rewrite Heq in E1.
  assert ((base + i) / L = (base + j) / L) by nia. nia.
Qed.

(** ** The Mute patch *)

Section ZeroLoop.

Variable pos : Z -> Z.

Let store0 (v : list Q) (i : Z) : list Q := vec_set v (pos i) 0%Q.

Lemma zero_loop_commute (idxs : list Z) (v : list Q) (p : Z) :
  vec_set (foldl store0 v idxs) p 0%Q = foldl store0 (vec_set v p 0%Q) idxs.
Proof.
  revert v. induction idxs as [|i idxs IH]; intros v; simpl; [done|].
  rewrite IH. unfold store0. by rewrite vec_set_vec_set_zero.
Qed.

Lemma zero_loop_idemp (idxs : list Z) (v : list Q) :
  foldl store0 (foldl store0 v idxs) idxs = foldl store0 v idxs.
Proof.
  revert v. induction idxs as [|i idxs IH]; intros v; simpl; [done|].
  unfold store0 at 2. rewrite zero_loop_commute.
  unfold store0 at 3. rewrite vec_set_idemp. apply IH.
Qed.

End ZeroLoop.

Lemma muteChannel_idemp (L cs a b : Z) (chan : list Q) :
  muteChannel L cs a b (muteChannel L cs a b chan) = muteChannel L cs a b chan.
Proof.
  unfold muteChannel, for_loop.
  apply (zero_loop_idemp (fun i => c_mod (cs + i) L)).
Qed.

Lemma muteChannel_lookup_other (L cs a b : Z) (chan : list Q) (p : nat) :
  (forall i, a <= i < b -> c_mod (cs + i) L ≠ Z.of_nat p) ->
  muteChannel L cs a b chan !! p = chan !! p.
Proof.
  intros Hp. unfold muteChannel, for_loop.
  apply (write_loop_lookup_other (fun i => c_mod (cs + i) L) (fun _ => 0%Q)).
  intros i Hi. apply Hp. apply elem_of_seqZ in Hi. lia.
Qed.

Lemma muteChannel_get_hit (L cs a b : Z) (chan : list Q) (i : Z) :
  0 <= cs -> 0 <= a -> b - a <= L -> Z.of_nat (length chan) = L ->
  a <= i < b ->
  vec_get (muteChannel L cs a b chan) (c_mod (cs + i) L) = 0%Q.
Proof.
  intros Hcs Ha Hn Hlen Hi. unfold muteChannel, for_loop.
  apply (write_loop_get_hit (fun i => c_mod (cs + i) L) (fun _ => 0%Q)).
  - apply elem_of_seqZ. lia.
  - intros j Hj Heq. apply elem_of_seqZ in Hj.
    assert (j - a = i - a); [|lia].
    apply (c_mod_inj (cs + a) L); try lia.
    by replace (cs + a + (j - a)) with (cs + j) by lia;
       replace (cs + a + (i - a)) with (cs + i) by lia.
  - rewrite Hlen. apply c_mod_range; lia.
Qed.

(** ** The Reverse patch *)

Lemma reverseGainSingle_ramp (i n fade : Z) (x : Q) :
  (reverseGainSingle i n fade x == x * (1 # 2) * fadeRamp i n fade)%Q.
Proof.
  unfold reverseGainSingle, fadeRamp.
  destruct (i <? fade); [ring|]. destruct (n - fade <=? i); ring.
Qed.

Lemma reverseGainBigram_ramp (i n fade : Z) (x : Q) :
  (reverseGainBigram i n fade x == x * (1 # 2) * fadeRamp i n fade)%Q.
Proof.
  unfold reverseGainBigram, fadeRamp.
  destruct (i <? fade); [ring|]. destruct (n - fade <=? i); ring.
Qed.

Lemma reverseChannel_get_hit (gain : Z -> Z -> Z -> Q -> Q)
    (L cs a n fade : Z) (chan : list Q) (i : Z) :
  0 <= cs -> 0 <= a -> n <= L -> Z.of_nat (length chan) = L ->
  0 <= i < n ->
  vec_get (reverseChannel gain L cs a n fade chan) (c_mod (cs + a + i) L)
  = gain i n fade (vec_get chan (c_mod (cs + a + (n - 1 - i)) L)).
Proof.
  intros Hcs Ha Hn Hlen Hi. unfold reverseChannel, for_loop.
  rewrite (write_loop_get_hit (fun i => c_mod (cs + a + i) L)
             (fun i => gain i n fade
                (vec_get (reverse ((fun i => vec_get chan (c_mod (cs + a + i) L))
                                     <$> seqZ 0 n)) i))).
  - f_equal. rewrite vec_get_lookup by lia.
    rewrite reverse_lookup; rewrite length_fmap, length_seqZ; [|lia].
    rewrite list_lookup_fmap.
    rewrite (lookup_seqZ_lt 0 n) by lia. simpl.
    do 2 f_equal. lia.
  - apply elem_of_seqZ. lia.
  - intros j Hj Heq. apply elem_of_seqZ in Hj.
    apply (c_mod_inj (cs + a) L); lia || done.
  - rewrite Hlen. apply c_mod_range; lia.
Qed.

Lemma reverseChannel_lookup_other (gain : Z -> Z -> Z -> Q -> Q)
    (L cs a n fade : Z) (chan : list Q) (p : nat) :
  (forall i, 0 <= i < n -> c_mod (cs + a + i) L ≠ Z.of_nat p) ->
  reverseChannel gain L cs a n fade chan !! p = chan !! p.
Proof.
  intros Hp. unfold reverseChannel, for_loop.
  apply (write_loop_lookup_other (fun i => c_mod (cs + a + i) L)
           (fun i => gain i n fade
              (vec_get (reverse ((fun i => vec_get chan (c_mod (cs + a + i) L))
                                   <$> seqZ 0 n)) i))).
  intros i Hi. apply Hp. apply elem_of_seqZ in Hi. lia.
Qed.

(** ** [applyCensorship] on the channels *)

Lemma applyCensorship_channel (gain : Z -> Z -> Z -> Q -> Q) (s : State)
    (cs a b : Z) (ch : nat) :
  delayBuffer (applyCensorship gain s cs a b) !! ch =
  if decide (Z.of_nat ch < channels (config s)) then
    match censorMode (config s) with
    | Mute => muteChannel (delayBufferSize s) cs a b
    | Reverse =>
        reverseChannel gain (delayBufferSize s) cs a (b - a)
          (fadeSamplesOf (b - a))
    end <$> delayBuffer s !! ch
  else delayBuffer s !! ch.
Proof.
  unfold applyCensorship. simpl.
  apply (channel_loop_lookup (fun _ => _)).
Qed.

Lemma applyCensorship_other (gain : Z -> Z -> Z -> Q -> Q) (s : State)
    (cs a b : Z) (ch p : nat) :
  (forall i, a <= i < b -> c_mod (cs + i) (delayBufferSize s) ≠ Z.of_nat p) ->
  sampleAt (delayBuffer (applyCensorship gain s cs a b)) ch p
  = sampleAt (delayBuffer s) ch p.
Proof.
  intros Hp. unfold sampleAt. rewrite applyCensorship_channel.
  case_decide; [|done].
  destruct (delayBuffer s !! ch) as [chan|]; [simpl|done].
  destruct (censorMode (config s)).
  - apply reverseChannel_lookup_other. intros i Hi.
    replace (cs + a + i) with (cs + (a + i)) by lia. apply Hp. lia.
  - by apply muteChannel_lookup_other.
Qed.

(** C10.  Applying a Mute patch twice to the same span of the delay line
    yields the same engine state, hence the same delay-line contents, as
    applying it once; and the patch leaves every sample whose ring position
    is not a position of the span as it was. *)
Theorem mute_twice_is_mute_once (gain : Z -> Z -> Z -> Q -> Q) (s : State)
    (chunkStartPos startSample endSample : Z) :
  censorMode (config s) = Mute ->
  applyCensorship gain
    (applyCensorship gain s chunkStartPos startSample endSample)
    chunkStartPos startSample endSample
  = applyCensorship gain s chunkStartPos startSample endSample
  /\ (forall ch p : nat,
        (forall i, startSample <= i < endSample ->
                   c_mod (chunkStartPos + i) (delayBufferSize s) ≠ Z.of_nat p) ->
        sampleAt
          (delayBuffer (applyCensorship gain s chunkStartPos startSample endSample))
          ch p
        = sampleAt (delayBuffer s) ch p).
Proof.
  intros Hmode. split.
  - unfold applyCensorship. simpl. rewrite Hmode.
    unfold set_delayBuffer. simpl. f_equal.
    apply list_eq. intros k. rewrite !(channel_loop_lookup (fun _ => _)).
    case_decide; [|done].
    destruct (delayBuffer s !! k); simpl; [|done].
    by rewrite muteChannel_idemp.
  - intros ch p Hp. by apply applyCensorship_other.
Qed.

Lemma mute_twice_is_mute_once_witness :
  censorMode (config (demoState Mute)) = Mute
  /\ (applyCensorship reverseGainSingle
        (applyCensorship reverseGainSingle (demoState Mute) 6 1 4) 6 1 4
      = applyCensorship reverseGainSingle (demoState Mute) 6 1 4
      /\ (forall ch p : nat,
            (forall i, 1 <= i < 4 ->
                       c_mod (6 + i) (delayBufferSize (demoState Mute)) ≠ Z.of_nat p) ->
            sampleAt
              (delayBuffer (applyCensorship reverseGainSingle (demoState Mute) 6 1 4))
              ch p
            = sampleAt (delayBuffer (demoState Mute)) ch p)).
Proof.
  split; [reflexivity|].
  apply (mute_twice_is_mute_once reverseGainSingle (demoState Mute) 6 1 4).
  reflexivity.
Defined.

(** C8.  In every channel a Reverse patch over a span of
    [n = endSample - startSample] frames replaces sample [i] of the span by
    the original sample [n - 1 - i] of the span times 0.5 times the fade
    ramp, which is [i / fadeSamples] over the first [fadeSamples] frames and
    [(n - i) / fadeSamples] over the last, with
    [fadeSamples = min(480, n / 4)]; this holds for the gain of the
    single-word branch and for that of the bigram branch.  A Mute patch
    replaces every sample of the span by zero.  (Equality of samples is
    equality of rationals.) *)
Theorem patch_contents (gain : Z -> Z -> Z -> Q -> Q) (s : State)
    (chunkStartPos startSample endSample : Z) (ch : nat) (chan : list Q) :
  gain = reverseGainSingle \/ gain = reverseGainBigram ->
  0 <= chunkStartPos -> 0 <= startSample <= endSample ->
  endSample - startSample <= delayBufferSize s ->
  Z.of_nat ch < channels (config s) ->
  delayBuffer s !! ch = Some chan ->
  Z.of_nat (length chan) = delayBufferSize s ->
  exists chan',
    delayBuffer (applyCensorship gain s chunkStartPos startSample endSample) !! ch
    = Some chan'
    /\ match censorMode (config s) with
       | Reverse =>
           let n := endSample - startSample in
           forall i, 0 <= i < n ->
             (vec_get chan' (c_mod (chunkStartPos + startSample + i) (delayBufferSize s))
              == vec_get chan
                   (c_mod (chunkStartPos + startSample + (n - 1 - i)) (delayBufferSize s))
                 * (1 # 2) * fadeRamp i n (Z.min 480 (c_div n 4)))%Q
       | Mute =>
           forall i, startSample <= i < endSample ->
             vec_get chan' (c_mod (chunkStartPos + i) (delayBufferSize s)) = 0%Q
       end.
Proof.
  intros Hgain Hcs Hspan Hn Hch Hchan Hlen.
  rewrite applyCensorship_channel, Hchan. case_decide; [|lia]. simpl.
  eexists. split; [done|].
  destruct (censorMode (config s)).
  - cbv zeta. intros i Hi.
    rewrite reverseChannel_get_hit by lia.
    destruct Hgain as [-> | ->];
      [apply reverseGainSingle_ramp | apply reverseGainBigram_ramp].
  - intros i Hi. apply muteChannel_get_hit; lia.
Qed.

Lemma patch_contents_witness :
  (reverseGainSingle = reverseGainSingle \/ reverseGainSingle = reverseGainBigram)
  /\ 0 <= 6 /\ 0 <= 1 <= 5 /\ 5 - 1 <= delayBufferSize (demoState Reverse)
  /\ Z.of_nat 0 < channels (config (demoState Reverse))
  /\ delayBuffer (demoState Reverse) !! 0%nat = Some [1; 2; 3; 4; 5; 6; 7; 8]%Q
  /\ Z.of_nat (length [1; 2; 3; 4; 5; 6; 7; 8]%Q) = delayBufferSize (demoState Reverse)
  /\ exists chan',
       delayBuffer (applyCensorship reverseGainSingle (demoState Reverse) 6 1 5) !! 0%nat
       = Some chan'
       /\ forall i, 0 <= i < 5 - 1 ->
            (vec_get chan' (c_mod (6 + 1 + i) 8)
             == vec_get [1; 2; 3; 4; 5; 6; 7; 8]%Q (c_mod (6 + 1 + (5 - 1 - 1 - i)) 8)
                * (1 # 2) * fadeRamp i (5 - 1) (Z.min 480 (c_div (5 - 1) 4)))%Q.
Proof.
  split; [by left|]. split; [lia|]. split; [lia|].
  split; [simpl; lia|]. split; [simpl; lia|].
  split; [reflexivity|]. split; [reflexivity|].
  apply (patch_contents reverseGainSingle (demoState Reverse) 6 1 5 0
           [1; 2; 3; 4; 5; 6; 7; 8]%Q);
    first [reflexivity | simpl; lia | by left].
Defined.

(** The span of four frames at ring positions 7, 0, 1, 2 holds 8, 1, 2, 3;
    reversed and halved, with a one-frame fade at each end. *)
Example reverse_patch_example :
  map Qred <$> delayBuffer (applyCensorship reverseGainSingle (demoState Reverse) 6 1 5) !! 0%nat
  = Some [1; 1 # 2; 4; 4; 5; 6; 7; 0]%Q.
Proof. reflexivity. Qed.

(** ** The scan over the words *)

Lemma hitSpan_bounds (toSample : SampleCast) (cfg : Config) (wordStart wordEnd : Q) :
  0 <= sampleRate cfg ->
  0 <= (hitSpan toSample cfg wordStart wordEnd).1
  /\ (hitSpan toSample cfg wordStart wordEnd).1 <= (hitSpan toSample cfg wordStart wordEnd).2
  /\ (hitSpan toSample cfg wordStart wordEnd).2 <= sampleRate cfg * 5.
Proof. intros HF. unfold hitSpan. simpl. lia. Qed.

Section ScanLemmas.

Variable toSample : SampleCast.
Variable containsProfanity : string -> bool.

(** Induction along the scan: a step goes on with the next word or with the
    one after it. *)
Lemma scan_ind (P : list WordSegment -> Prop) :
  P [] ->
  (forall w, P [] -> P [w]) ->
  (forall w w2 rest, P (w2 :: rest) -> P rest -> P (w :: w2 :: rest)) ->
  forall words, P words.
Proof.
  intros Hnil Hone Htwo words.
  assert (P words /\ forall w, P (w :: words)) as [H _]; [|exact H].
  induction words as [|w2 rest [IH1 IH2]].
  - split; [done|]. intros w. by apply Hone.
  - split; [apply IH2|]. intros w. apply Htwo; [apply IH2 | apply IH1].
Qed.

Lemma censorLoop_cons (cs : Z) (wordSeg : WordSegment)
    (rest : list WordSegment) (acc : State * list string) :
  censorLoop toSample containsProfanity cs (wordSeg :: rest) acc =
  let multiWord (acc : State * list string) :=
    match rest with
    | nextWord :: rest' =>
        if containsProfanity (normalizeText (word wordSeg ++ word nextWord)) then
          if bufferUnderrun acc.1 then censorLoop toSample containsProfanity cs rest acc
          else
            censorLoop toSample containsProfanity cs rest'
              (censorBigram toSample cs wordSeg nextWord acc.1,
               acc.2 ++ [(word wordSeg ++ " " ++ word nextWord)%string])
        else censorLoop toSample containsProfanity cs rest acc
    | [] => censorLoop toSample containsProfanity cs rest acc
    end in
  if containsProfanity (normalizeText (word wordSeg)) then
    if bufferUnderrun acc.1 then censorLoop toSample containsProfanity cs rest acc
    else multiWord (censorSingle toSample cs wordSeg acc.1, acc.2 ++ [word wordSeg])
  else multiWord acc.
Proof. destruct rest; reflexivity. Qed.

Local Arguments censorLoop : simpl never.

Lemma censorLoop_preserves (P : State -> Prop) (cs : Z) :
  (forall w s, P s -> P (censorSingle toSample cs w s)) ->
  (forall w w2 s, P s -> P (censorBigram toSample cs w w2 s)) ->
  forall words acc, P acc.1 -> P (censorLoop toSample containsProfanity cs words acc).1.
Proof.
  intros Hs Hb words.
  induction words as [|w IH|w w2 rest IH1 IH2] using scan_ind;
    intros acc Hacc; [done|..]; rewrite censorLoop_cons; cbv zeta.
  - destruct (containsProfanity _); [|by apply IH].
    destruct (bufferUnderrun acc.1); apply IH; [done|]. simpl. by apply Hs.
  - destruct (containsProfanity (normalizeText (word w))).
    + destruct (bufferUnderrun acc.1) eqn:Hu; [by apply IH1|].
      destruct (containsProfanity (normalizeText (word w ++ word w2))).
      * destruct (bufferUnderrun _);
          [apply IH1 | apply IH2]; simpl; auto.
      * apply IH1. simpl. auto.
    + destruct (containsProfanity (normalizeText (word w ++ word w2))).
      * destruct (bufferUnderrun acc.1); [by apply IH1|].
        apply IH2. simpl. auto.
      * by apply IH1.
Qed.

Lemma applyCensorship_sameOutside (gain : Z -> Z -> Z -> Q -> Q) (cs : Z)
    (ch p : nat) (s0 s : State) (a b : Z) :
  0 <= a -> b <= sampleRate (config s0) * 5 ->
  (forall i, 0 <= i < sampleRate (config s0) * 5 ->
             c_mod (cs + i) (delayBufferSize s0) ≠ Z.of_nat p) ->
  sameOutsideChunk cs ch p s0 s ->
  sameOutsideChunk cs ch p s0 (applyCensorship gain s cs a b).
Proof.
  intros Ha Hb Hp (Hc & HL & Hu & Hsame). repeat split; try done.
  rewrite applyCensorship_other; [done|].
  intros i Hi. rewrite HL. apply Hp. lia.
Qed.

Lemma censorSingle_sameOutside (cs : Z) (ch p : nat) (s0 s : State)
    (w : WordSegment) :
  0 <= sampleRate (config s0) ->
  (forall i, 0 <= i < sampleRate (config s0) * 5 ->
             c_mod (cs + i) (delayBufferSize s0) ≠ Z.of_nat p) ->
  sameOutsideChunk cs ch p s0 s ->
  sameOutsideChunk cs ch p s0 (censorSingle toSample cs w s).
Proof.
  intros HF Hp Hsame. unfold censorSingle.
  pose proof (hitSpan_bounds toSample (config s0) (LyricsAlignment.start w) (end_ w) HF)
    as (B1 & B2 & B3).
  destruct Hsame as (Hc & HL & Hu & Hsame). simpl. rewrite Hc.
  destruct (hitSpan toSample (config s0) (LyricsAlignment.start w) (end_ w)) as [a b].
  apply applyCensorship_sameOutside; simpl in *; try lia; try done.
Qed.

Lemma censorBigram_sameOutside (cs : Z) (ch p : nat) (s0 s : State)
    (w w2 : WordSegment) :
  0 <= sampleRate (config s0) ->
  (forall i, 0 <= i < sampleRate (config s0) * 5 ->
             c_mod (cs + i) (delayBufferSize s0) ≠ Z.of_nat p) ->
  sameOutsideChunk cs ch p s0 s ->
  sameOutsideChunk cs ch p s0 (censorBigram toSample cs w w2 s).
Proof.
  intros HF Hp Hsame. unfold censorBigram.
  pose proof (hitSpan_bounds toSample (config s0) (LyricsAlignment.start w) (end_ w2) HF)
    as (B1 & B2 & B3).
  destruct Hsame as (Hc & HL & Hu & Hsame). simpl. rewrite Hc.
  destruct (hitSpan toSample (config s0) (LyricsAlignment.start w) (end_ w2)) as [a b].
  apply applyCensorship_sameOutside; simpl in *; try lia; try done.
Qed.

End ScanLemmas.

Lemma to_int_inject (x : Q) (n : Z) : (x == inject_Z n)%Q -> to_int x = n.
Proof.
  destruct x as [p q]. unfold Qeq, to_int. simpl. intros H.
  rewrite Z.mul_1_r in H. rewrite H. apply Z.quot_mul. lia.
Qed.

(** The censor measures the chunk as five seconds, the chunk length of the
    engine's configuration. *)
Lemma chunkFrames_five (cfg : Config) :
  (chunkSeconds cfg == 5)%Q -> chunkFrames cfg = sampleRate cfg * 5.
Proof.
  intros H. apply to_int_inject. rewrite H, inject_Z_mult. reflexivity.
Qed.

(** C7.  With chunks of five seconds, [K = F * chunkSeconds]: the frame
    offsets of a hit, after padding by 0.4 s before and 0.1 s after, are
    clamped to [0 <= s <= e <= K], and so the censor changes no sample of
    the delay line outside the ring positions [(chunkStartPos + i) % L],
    [0 <= i < K], of the chunk, with [chunkStartPos = chunkEndPos - K]:
    none before the chunk's start, none at or past its end. *)
Theorem patch_within_chunk (toSample : SampleCast)
    (containsProfanity : string -> bool)
    (transcribedWords : list WordSegment) (captureTime : Q) (s : State) :
  0 <= sampleRate (config s) ->
  (chunkSeconds (config s) == 5)%Q ->
  let K := chunkFrames (config s) in
  let L := delayBufferSize s in
  let chunkStartPos := c_mod (to_int captureTime - K + L) L in
  (forall wordStart wordEnd : Q,
     0 <= (hitSpan toSample (config s) wordStart wordEnd).1
     /\ (hitSpan toSample (config s) wordStart wordEnd).1
        <= (hitSpan toSample (config s) wordStart wordEnd).2
     /\ (hitSpan toSample (config s) wordStart wordEnd).2 <= K)
  /\ (forall ch p : nat,
        (forall i, 0 <= i < K -> c_mod (chunkStartPos + i) L ≠ Z.of_nat p) ->
        sampleAt
          (delayBuffer
             (censorTranscription toSample containsProfanity transcribedWords captureTime s).1)
          ch p
        = sampleAt (delayBuffer s) ch p).
Proof.
  intros HF Hchunk K L chunkStartPos. subst K chunkStartPos L.
  rewrite (chunkFrames_five _ Hchunk). split.
  - intros ws we. by apply hitSpan_bounds.
  - intros ch p Hp. unfold censorTranscription.
    set (cs := c_mod _ _) in *.
    apply (censorLoop_preserves toSample containsProfanity
             (sameOutsideChunk cs ch p s) cs).
    + intros w s1. by apply censorSingle_sameOutside.
    + intros w w2 s1. by apply censorBigram_sameOutside.
    + by repeat split.
Qed.

Lemma patch_within_chunk_witness :
  0 <= sampleRate (config demoChunkState)
  /\ (chunkSeconds (config demoChunkState) == 5)%Q
  /\ (forall ch p : nat,
        (forall i, 0 <= i < chunkFrames (config demoChunkState) ->
           c_mod
             (c_mod (to_int 6 - chunkFrames (config demoChunkState)
                     + delayBufferSize demoChunkState)
                (delayBufferSize demoChunkState) + i)
             (delayBufferSize demoChunkState) ≠ Z.of_nat p) ->
        sampleAt
          (delayBuffer
             (censorTranscription exactCast demoLexicon
                [mkWordSegment "bull" 1 2 (9 # 10)] 6 demoChunkState).1)
          ch p
        = sampleAt (delayBuffer demoChunkState) ch p).
Proof.
  split; [simpl; lia|]. split; [reflexivity|].
  apply (patch_within_chunk exactCast demoLexicon [mkWordSegment "bull" 1 2 (9 # 10)] 6
           demoChunkState); [simpl; lia | reflexivity].
Defined.

(** The word from 1 s to 2 s is padded to 0.6 s .. 2.1 s, frames 0 to 2 of
    the chunk at 1 Hz; positions 1 and 2 of the ring are reversed, position
    0 and the positions from 3 on are as before. *)
Example patch_within_chunk_example :
  map (map Qred)
    (delayBuffer
       (censorTranscription exactCast demoLexicon [mkWordSegment "bull" 1 2 (9 # 10)] 6
          demoChunkState).1)
  = [[1; 3 # 2; 1; 4; 5; 6; 7; 8]; [-1; -3 # 2; -1; -4; -5; -6; -7; -8]]%Q.
Proof. vm_compute. reflexivity. Qed.

(** ** Hits *)

Section Hits.

Variable toSample : SampleCast.
Variable containsProfanity : string -> bool.

Lemma scanHits_cons (underrun : bool) (idx : nat) (wordSeg : WordSegment)
    (rest : list WordSegment) :
  scanHits containsProfanity underrun idx (wordSeg :: rest) =
  let multiWord :=
    match rest with
    | nextWord :: rest' =>
        if containsProfanity (normalizeText (word wordSeg ++ word nextWord))
        then
          if underrun then scanHits containsProfanity underrun (S idx) rest
          else BigramHit idx wordSeg nextWord
                 :: scanHits containsProfanity underrun (S (S idx)) rest'
        else scanHits containsProfanity underrun (S idx) rest
    | [] => scanHits containsProfanity underrun (S idx) rest
    end in
  if containsProfanity (normalizeText (word wordSeg)) then
    if underrun then scanHits containsProfanity underrun (S idx) rest
    else SingleHit idx wordSeg :: multiWord
  else multiWord.
Proof. destruct rest; reflexivity. Qed.

Local Arguments scanHits : simpl never.
Local Arguments censorLoop : simpl never.

Lemma censorSingle_bufferUnderrun (cs : Z) (w : WordSegment) (s : State) :
  bufferUnderrun (censorSingle toSample cs w s) = bufferUnderrun s.
Proof. unfold censorSingle. by destruct (hitSpan _ _ _ _). Qed.

Lemma censorBigram_bufferUnderrun (cs : Z) (w w2 : WordSegment) (s : State) :
  bufferUnderrun (censorBigram toSample cs w w2 s) = bufferUnderrun s.
Proof. unfold censorBigram. by destruct (hitSpan _ _ _ _). Qed.

(** The loop of the source applies the hits of the scan, in order. *)
Lemma censorLoop_scanHits (cs : Z) (words : list WordSegment) :
  forall (idx : nat) (acc : State * list string),
    censorLoop toSample containsProfanity cs words acc
    = foldl (applyHit toSample cs) acc (scanHits containsProfanity (bufferUnderrun acc.1) idx words).
Proof.
  induction words as [|w IH|w w2 rest IH1 IH2] using scan_ind;
    intros idx acc; [done|..];
    rewrite censorLoop_cons, scanHits_cons; cbv zeta.
  - destruct (containsProfanity _); [|apply IH].
    destruct (bufferUnderrun acc.1) eqn:Hu; [rewrite (IH (S idx)), Hu; done|].
    rewrite (IH (S idx)). cbn [foldl applyHit fst snd].
    by rewrite censorSingle_bufferUnderrun, Hu.
  - destruct (containsProfanity (normalizeText (word w))).
    + destruct (bufferUnderrun acc.1) eqn:Hu;
        [rewrite (IH1 (S idx)), Hu; done|].
      cbn [foldl applyHit fst snd]. rewrite censorSingle_bufferUnderrun, Hu.
      destruct (containsProfanity (normalizeText (word w ++ word w2))).
      * rewrite (IH2 (S (S idx))). cbn [foldl applyHit fst snd].
        by rewrite censorBigram_bufferUnderrun, censorSingle_bufferUnderrun, Hu.
      * rewrite (IH1 (S idx)). cbn [foldl applyHit fst snd].
        by rewrite censorSingle_bufferUnderrun, Hu.
    + destruct (containsProfanity (normalizeText (word w ++ word w2))).
      * destruct (bufferUnderrun acc.1) eqn:Hu;
          [rewrite (IH1 (S idx)), Hu; done|].
        rewrite (IH2 (S (S idx))). cbn [foldl applyHit fst snd].
        by rewrite censorBigram_bufferUnderrun, Hu.
      * apply IH1.
Qed.

Lemma scanHits_nil (underrun : bool) (idx : nat) : scanHits containsProfanity underrun idx [] = [].
Proof. reflexivity. Qed.

Ltac split_hits :=
  rewrite ?scanHits_nil, ?elem_of_cons, ?elem_of_nil in *;
  repeat match goal with
         | H : _ \/ _ |- _ => destruct H as [H|H]
         | H : False |- _ => destruct H
         | H : SingleHit _ _ = BigramHit _ _ _ |- _ => discriminate H
         | H : BigramHit _ _ _ = SingleHit _ _ |- _ => discriminate H
         end.

(** The hits of a scan that starts at [idx] have indices from [idx] on. *)
Lemma scanHits_index_ge (underrun : bool) (words : list WordSegment) :
  forall idx h, h ∈ scanHits containsProfanity underrun idx words -> (idx <= hitIndex h)%nat.
Proof.
  induction words as [|w IH|w w2 rest IH1 IH2] using scan_ind;
    intros idx h; [by intros ?%elem_of_nil|..];
    rewrite scanHits_cons; cbv zeta;
    repeat (destruct (containsProfanity _)); destruct underrun;
    intros Hh; split_hits;
    try (subst h; simpl; lia);
    try (apply IH1 in Hh; lia); try (apply IH2 in Hh; lia).
Qed.

(** A single-word hit is a word of the list that the lexicon contains. *)
Lemma scanHits_single (underrun : bool) (words : list WordSegment) :
  forall idx i w,
    SingleHit i w ∈ scanHits containsProfanity underrun idx words ->
    (idx <= i)%nat /\ words !! (i - idx)%nat = Some w
    /\ containsProfanity (normalizeText (word w)) = true.
Proof.
  induction words as [|w0 IH|w0 w2 rest IH1 IH2] using scan_ind;
    intros idx i w; [by intros ?%elem_of_nil|..];
    rewrite scanHits_cons; cbv zeta;
    destruct (containsProfanity (normalizeText (word w0))) eqn:E1;
    try destruct (containsProfanity (normalizeText (word w0 ++ word w2))) eqn:E2;
    destruct underrun; intros Hh; split_hits;
    try (injection Hh as -> ->; rewrite Nat.sub_diag; done);
    try (apply IH1 in Hh as (? & ? & ?);
         (split; [lia|]); split; [|done];
         by replace (i - idx)%nat with (S (i - S idx)) by lia);
    try (apply IH2 in Hh as (? & ? & ?);
         (split; [lia|]); split; [|done];
         by replace (i - idx)%nat with (S (S (i - S (S idx)))) by lia).
Qed.

(** A bigram hit spans two adjacent words whose concatenation the lexicon
    contains; no hit starts at its second word; and its first word is also
    a single-word hit whenever the lexicon contains that word. *)
Lemma scanHits_bigram (underrun : bool) (words : list WordSegment) :
  forall idx i w w',
    BigramHit i w w' ∈ scanHits containsProfanity underrun idx words ->
    (idx <= i)%nat /\ words !! (i - idx)%nat = Some w
    /\ words !! S (i - idx) = Some w'
    /\ containsProfanity (normalizeText (word w ++ word w')) = true
    /\ (forall h, h ∈ scanHits containsProfanity underrun idx words -> hitIndex h ≠ S i)
    /\ (containsProfanity (normalizeText (word w)) = true ->
        SingleHit i w ∈ scanHits containsProfanity underrun idx words).
Proof.
  induction words as [|w0 IH|w0 w2 rest IH1 IH2] using scan_ind;
    intros idx i w w'; [by intros ?%elem_of_nil|..];
    rewrite scanHits_cons; cbv zeta.
  - destruct (containsProfanity (normalizeText (word w0)));
      destruct underrun; intros Hh; split_hits.
  - pose proof (scanHits_index_ge underrun rest (S (S idx))) as Hge2.
    destruct (containsProfanity (normalizeText (word w0))) eqn:E1;
      destruct (containsProfanity (normalizeText (word w0 ++ word w2))) eqn:E2;
      destruct underrun; intros Hh; split_hits;
      first
        [ (* the hit is the bigram found at [idx] *)
          injection Hh as -> -> ->; rewrite Nat.sub_diag;
          split; [lia|]; split; [done|]; split; [done|]; split; [done|];
          split;
          [ intros h Hin; split_hits; try (subst h; simpl; lia);
            apply Hge2 in Hin; lia
          | intros Hc; split_hits; first [by left | congruence] ]
        | (* the hit is found from the next word on *)
          apply IH1 in Hh as (? & ? & ? & ? & Hno & Hs);
          replace (i - idx)%nat with (S (i - S idx)) by lia;
          split; [lia|]; split; [done|]; split; [done|]; split; [done|];
          split;
          [ intros h Hin; split_hits; try (subst h; simpl; lia); by apply Hno
          | intros Hc; split_hits; auto ]
        | (* the hit is found after a bigram at [idx] *)
          apply IH2 in Hh as (? & ? & ? & ? & Hno & Hs);
          replace (i - idx)%nat with (S (S (i - S (S idx)))) by lia;
          split; [lia|]; split; [done|]; split; [done|]; split; [done|];
          split;
          [ intros h Hin; split_hits; try (subst h; simpl; lia); by apply Hno
          | intros Hc; split_hits; auto ] ].
Qed.

End Hits.



(** Both lookups of a word that is in the lexicon on its own and with its
    successor match: the single-word patch is applied, then the bigram
    patch over it. *)
Lemma censor_single_then_bigram (toSample : SampleCast)
    (containsProfanity : string -> bool) (w w2 : WordSegment)
    (captureTime : Q) (s : State) :
  bufferUnderrun s = false ->
  containsProfanity (normalizeText (word w)) = true ->
  containsProfanity (normalizeText (word w ++ word w2)) = true ->
  let chunkStartPos :=
    c_mod (to_int captureTime - sampleRate (config s) * 5 + delayBufferSize s)
      (delayBufferSize s) in
  censorTranscription toSample containsProfanity [w; w2] captureTime s
  = (censorBigram toSample chunkStartPos w w2
       (censorSingle toSample chunkStartPos w s),
     [word w; (word w ++ " " ++ word w2)%string]).
Proof.
  intros Hu Hw Hb chunkStartPos. unfold censorTranscription.
  fold chunkStartPos. rewrite censorLoop_cons. cbv zeta. cbn [fst snd].
  rewrite Hw, Hu, Hb, censorSingle_bufferUnderrun, Hu. reflexivity.
Qed.

(** C2, evaluated.  With "bull" and "bullshit" in the lexicon and the
    transcript "bull shit", the single-word lookup at index 0 matches and
    the bigram lookup at index 0 is performed all the same: the first word
    is detected and counted on its own and again with the bigram, and its
    span is patched twice.  This holds of every engine that is not in
    underrun, whatever the casts give.

    In the engine [reverseEngine] (10 Hz, Reverse mode) chunk frame [i] is
    the input frame with the value [i]; the word is padded to the frames 6
    to 14 and the bigram to the frames 6 to 20.  The bigram patch alone
    leaves the frames 20, 19, .., 6 there, reversed.  After the run of the
    censor the frames 12 to 18 hold the input frames 6, 7, .., 12, forward
    again (at a quarter of their level, the first of them faded): the
    second reversal has undone the first. *)
Theorem bigram_first_word_patched_twice :
  (forall (toSample : SampleCast) (containsProfanity : string -> bool)
          (w w2 : WordSegment) (captureTime : Q) (s : State),
     bufferUnderrun s = false ->
     containsProfanity (normalizeText (word w)) = true ->
     containsProfanity (normalizeText (word w ++ word w2)) = true ->
     let chunkStartPos :=
       c_mod (to_int captureTime - sampleRate (config s) * 5 + delayBufferSize s)
         (delayBufferSize s) in
     let r := censorTranscription toSample containsProfanity [w; w2] captureTime s in
     r.1 = censorBigram toSample chunkStartPos w w2
             (censorSingle toSample chunkStartPos w s)
     /\ r.2 = [word w; (word w ++ " " ++ word w2)%string]
     /\ profanityCount r.1 = profanityCount s + 2)
  /\ let r := censorTranscription exactCast demoLexicon bullWords 49 reverseEngine in
     let bigramOnly :=
       censorBigram exactCast 99 (seg_get bullWords 0) (seg_get bullWords 1)
         reverseEngine in
     bufferCaptureTime reverseEngine = 49%Q
     /\ chunkFramesOf reverseEngine 99 1 20 = framesFrom 1 20
     /\ hitSpan exactCast (config reverseEngine) (105 # 100) (145 # 100) = (6, 15)
     /\ hitSpan exactCast (config reverseEngine) (105 # 100) (205 # 100) = (6, 21)
     /\ r.2 = ["bull"; "bull shit"]%string
     /\ profanityCount r.1 = 2
     /\ chunkFramesOf bigramOnly 99 6 15
        = [0; 19 # 6; 6; 17 # 2; 8; 15 # 2; 7; 13 # 2; 6; 11 # 2; 5; 9 # 2;
           4; 7 # 3; 1]%Q
     /\ chunkFramesOf r.1 99 6 15
        = [0; 19 # 6; 6; 17 # 2; 8; 15 # 2; 3 # 4; 7 # 4; 2; 9 # 4; 5 # 2;
           11 # 4; 3; 13 # 12; 0]%Q.
Proof.
  split.
  - intros toSample c w w2 t s Hu Hw Hb chunkStartPos r. subst r.
    rewrite (censor_single_then_bigram toSample c w w2 t s Hu Hw Hb).
    fold chunkStartPos. cbn [fst snd]. split; [done|]. split; [done|].
    unfold censorBigram, censorSingle.
    repeat destruct (hitSpan _ _ _ _). simpl. lia.
  - vm_compute. repeat split; reflexivity.
Qed.

(** The bigram scenario of the specification: "holy cow" with only
    "holycow" in the lexicon is one hit. *)
Example holy_cow_once :
  (censorTranscription exactCast demoLexicon
     [mkWordSegment "holy" 1 (13 # 10) (9 # 10);
      mkWordSegment "cow" (13 # 10) (16 # 10) (9 # 10)] 6 (demoState Mute)).2
  = ["holy cow"]%string.
Proof. reflexivity. Qed.

(** ** Word timing *)

Lemma flt_spec (a b : Q) : if flt a b then (a < b)%Q else (b <= a)%Q.
Proof.
  unfold flt. destruct (Qle_bool b a) eqn:E; simpl.
  - by apply Qle_bool_iff.
  - apply Qnot_le_lt. intros H. apply Qle_bool_iff in H. congruence.
Qed.

Lemma fle_spec (a b : Q) : if fle a b then (a <= b)%Q else (b < a)%Q.
Proof.
  unfold fle. destruct (Qle_bool a b) eqn:E.
  - by apply Qle_bool_iff.
  - apply Qnot_le_lt. intros H. apply Qle_bool_iff in H. congruence.
Qed.

Lemma fmax_bounds (a b : Q) :
  (a <= fmax a b /\ b <= fmax a b /\ (fmax a b <= a \/ fmax a b <= b))%Q.
Proof.
  unfold fmax. pose proof (flt_spec a b) as H.
  destruct (flt a b); lra.
Qed.

Lemma fmin_bounds (a b : Q) :
  (fmin a b <= a /\ fmin a b <= b /\ (a <= fmin a b \/ b <= fmin a b))%Q.
Proof.
  unfold fmin. pose proof (flt_spec b a) as H.
  destruct (flt b a); lra.
Qed.

(** C4, as stated, fails: a one-word segment from 4.98 s to 5.00 s gives a
    word that starts at 4.98 s, inside the chunk, and ends at 5.03 s, after
    the end of the five-second chunk. *)
Lemma last_word_ends_after_chunk :
  exists seg,
    distributeWords 498 500 ["damn"%string] = [seg]
    /\ (LyricsAlignment.start seg <= 5)%Q /\ (5 < end_ seg)%Q.
Proof.
  eexists. split; [reflexivity|].
  split; [unfold Qle | unfold Qlt]; simpl; lia.
Qed.

(** C4, amended.  The words of a segment are spread uniformly over the
    segment, [wordDuration = (t1 - t0) / wordCount], word [k] starting at
    [t0 + k * wordDuration]; the start is clamped to [0, 5] and the end is
    the larger of [start + 0.05] and the clamped end.  So every start lies
    within [0, 5], every end is at least [start + 0.05] and at most 5.05,
    and the end lies within [0, 5] whenever the start is at most 4.95. *)
Theorem word_timing (segmentStart segmentEnd : Z) (segmentWords : list string)
    (k : nat) (seg : WordSegment) :
  distributeWords segmentStart segmentEnd segmentWords !! k = Some seg ->
  let segStartSec := (inject_Z segmentStart * (1 # 100))%Q in
  let segEndSec := (inject_Z segmentEnd * (1 # 100))%Q in
  let wordDuration :=
    ((segEndSec - segStartSec) / inject_Z (Z.of_nat (length segmentWords)))%Q in
  let wordStart := (segStartSec + inject_Z (Z.of_nat k) * wordDuration)%Q in
  segmentWords !! k = Some (word seg)
  /\ LyricsAlignment.start seg = fmax 0 (fmin 5 wordStart)
  /\ end_ seg = fmax (LyricsAlignment.start seg + (5 # 100))%Q
                  (fmin 5 (wordStart + wordDuration)%Q)
  /\ (0 <= LyricsAlignment.start seg <= 5)%Q
  /\ (LyricsAlignment.start seg + (5 # 100) <= end_ seg)%Q
  /\ (end_ seg <= 5 + (5 # 100))%Q
  /\ ((LyricsAlignment.start seg <= 5 - (5 # 100))%Q -> (0 <= end_ seg <= 5)%Q).
Proof.
  intros Hseg segStartSec segEndSec wordDuration wordStart.
  unfold distributeWords in Hseg.
  fold segStartSec segEndSec in Hseg.
  assert (Hk : segmentWords !! k = Some (word seg)
               /\ LyricsAlignment.start seg = fmax 0 (fmin 5 wordStart)
               /\ end_ seg = fmax (fmax 0 (fmin 5 wordStart) + (5 # 100))%Q
                               (fmin 5 (wordStart + wordDuration)%Q)).
  { destruct segmentWords as [|w0 ws]; [done|].
    rewrite list_lookup_imap in Hseg.
    destruct ((w0 :: ws) !! k) as [w|]; [|done].
    simpl in Hseg. injection Hseg as <-. done. }
  destruct Hk as (Hw & Hs & He).
  split; [done|]. split; [done|]. split; [by rewrite Hs|].
  rewrite He, Hs.
  pose proof (fmin_bounds 5 wordStart) as (A1 & A2 & A3).
  pose proof (fmax_bounds 0 (fmin 5 wordStart)) as (B1 & B2 & B3).
  pose proof (fmin_bounds 5 (wordStart + wordDuration)) as (C1 & C2 & C3).
  pose proof (fmax_bounds (fmax 0 (fmin 5 wordStart) + (5 # 100))
                (fmin 5 (wordStart + wordDuration))) as (D1 & D2 & D3).
  repeat split; try lra.
Qed.

Lemma word_timing_witness :
  distributeWords 100 200 ["hello"; "world"]%string !! 1%nat = Some demoWord
  /\ ["hello"; "world"]%string !! 1%nat = Some (word demoWord)
  /\ (0 <= LyricsAlignment.start demoWord <= 5)%Q
  /\ (LyricsAlignment.start demoWord + (5 # 100) <= end_ demoWord)%Q
  /\ (end_ demoWord <= 5 + (5 # 100))%Q.
Proof.
  split; [reflexivity|].
  pose proof (word_timing 100 200 ["hello"; "world"]%string 1 demoWord eq_refl)
    as (H1 & _ & _ & H2 & H3 & H4 & _).
  exact (conj H1 (conj H2 (conj H3 H4))).
Defined.

Example demoWord_times :
  (LyricsAlignment.start demoWord == 15 # 10)%Q /\ (end_ demoWord == 2)%Q.
Proof. split; reflexivity. Qed.

(** ** The playback gate *)

Lemma delayFrame_fields (cfg : Config) (L : Z) (inputBuffer : list Q) (i : Z)
    (st : DelayLoop) :
  let g :=
    gate cfg (inject_Z (currentGap L st) / inject_Z (sampleRate cfg))%Q
      (dl_playbackStarted st) (dl_wasPaused st) in
  let st' := delayFrame cfg L inputBuffer i st in
  dl_playbackStarted st' = g.1.2
  /\ dl_wasPaused st' = g.2
  /\ dl_writePos st' = c_mod (dl_writePos st + 1) L
  /\ dl_readPos st' = (if g.1.1 then c_mod (dl_readPos st + 1) L else dl_readPos st)
  /\ (g.1.1 = false ->
      dl_output st' =
      for_loop 0 (channels cfg)
        (fun ch output => vec_set output (i * channels cfg + ch) 0%Q)
        (dl_output st)).
Proof.
  cbv zeta. unfold delayFrame.
  destruct (gate _ _ _ _) as [[canPlay started] paused]. simpl.
  repeat split. by intros ->.
Qed.

Lemma buffer_seconds_le (d F fill : Q) :
  (0 < F)%Q -> (d <= fill / F)%Q <-> (d * F <= fill)%Q.
Proof.
  intros HF.
  assert (fill / F * F == fill)%Q as E by (field; lra).
  split; intros H; nra.
Qed.

Lemma buffer_seconds_lt (d F fill : Q) :
  (0 < F)%Q -> (fill / F < d)%Q <-> (fill < d * F)%Q.
Proof.
  intros HF.
  assert (fill / F * F == fill)%Q as E by (field; lra).
  split; intros H; nra.
Qed.

Lemma inject_Z_pos (n : Z) : 0 < n -> (0 < inject_Z n)%Q.
Proof. intros Hn. replace 0%Q with (inject_Z 0) by done. by rewrite <- Zlt_Qlt. Qed.

(** The gate, case by case. *)
Lemma gate_cases (cfg : Config) (fill : Q) (started paused : bool) :
  (0 < inject_Z (sampleRate cfg))%Q ->
  (started = false -> paused = false) ->
  let F := inject_Z (sampleRate cfg) in
  let d := initialDelaySeconds cfg in
  let g := gate cfg (fill / F)%Q started paused in
  g.1.1 = match gateState g.1.2 g.2 with Playing => true | _ => false end
  /\ match gateState started paused with
     | Warming =>
         (gateState g.1.2 g.2 = Playing /\ (d * F <= fill)%Q)
         \/ (gateState g.1.2 g.2 = Warming /\ (fill < d * F)%Q)
     | Playing =>
         (gateState g.1.2 g.2 = Paused /\ (fill < (d - 2) * F)%Q)
         \/ (gateState g.1.2 g.2 = Playing /\ ((d - 2) * F <= fill)%Q)
     | Paused =>
         (gateState g.1.2 g.2 = Playing /\ (d * F <= fill)%Q)
         \/ (gateState g.1.2 g.2 = Paused /\ (fill < d * F)%Q)
     end.
Proof.
  intros HF Hwf F d. cbv zeta. unfold gate.
  pose proof (fle_spec (initialDelaySeconds cfg) (fill / F)) as Hle.
  pose proof (flt_spec (fill / F) (initialDelaySeconds cfg - 2)) as Hlt.
  fold F in HF.
  destruct started; simpl.
  - destruct paused; simpl.
    + rewrite andb_false_r, andb_true_r.
      destruct (fle _ _); simpl; split; try done.
      * left. split; [done|]. by apply buffer_seconds_le.
      * right. split; [done|]. by apply buffer_seconds_lt.
    + rewrite andb_true_r, andb_false_r.
      destruct (flt _ _); simpl; split; try done.
      * left. split; [done|]. by apply buffer_seconds_lt.
      * right. split; [done|]. by apply buffer_seconds_le.
  - rewrite (Hwf eq_refl).
    destruct (fle _ _); simpl; split; try done.
    + left. split; [done|]. by apply buffer_seconds_le.
    + right. split; [done|]. by apply buffer_seconds_lt.
Qed.

Lemma gate_wf (cfg : Config) (bufferSeconds : Q) (started paused : bool) :
  (started = false -> paused = false) ->
  (gate cfg bufferSeconds started paused).1.2 = false ->
  (gate cfg bufferSeconds started paused).2 = false.
Proof.
  intros Hwf. unfold gate. destruct started; simpl; [done|].
  intros _. by apply Hwf.
Qed.

(** A turn of the loop, in the terms of [currentGap]: the gate moves by
    the fill the source computes, a frame that is not played is silent and
    leaves the read position where it is, a frame that is played advances
    it. *)
Lemma delayFrame_gate (cfg : Config) (L : Z) (inputBuffer : list Q) (i : Z)
    (st : DelayLoop) :
  0 < sampleRate cfg ->
  (dl_playbackStarted st = false -> dl_wasPaused st = false) ->
  let F := inject_Z (sampleRate cfg) in
  let d := initialDelaySeconds cfg in
  let fill := inject_Z (currentGap L st) in
  let st' := delayFrame cfg L inputBuffer i st in
  match gateOf st with
  | Warming =>
      (gateOf st' = Playing <-> (d * F <= fill)%Q)
      /\ (gateOf st' = Playing \/ gateOf st' = Warming)
  | Playing =>
      (gateOf st' = Paused <-> (fill < (d - 2) * F)%Q)
      /\ (gateOf st' = Paused \/ gateOf st' = Playing)
  | Paused =>
      (gateOf st' = Playing <-> (d * F <= fill)%Q)
      /\ (gateOf st' = Playing \/ gateOf st' = Paused)
  end
  /\ (gateOf st' ≠ Playing ->
      dl_readPos st' = dl_readPos st
      /\ forall ch, 0 <= ch < channels cfg ->
           0 <= i * channels cfg + ch < Z.of_nat (length (dl_output st)) ->
           vec_get (dl_output st') (i * channels cfg + ch) = 0%Q)
  /\ (gateOf st' = Playing -> dl_readPos st' = c_mod (dl_readPos st + 1) L)
  /\ (dl_playbackStarted st' = false -> dl_wasPaused st' = false).
Proof.
  intros HF Hwf F d fill st'.
  assert (dl_playbackStarted st' = false -> dl_wasPaused st' = false) as Hwf'.
  { pose proof (delayFrame_fields cfg L inputBuffer i st) as (Hs & Hp & _).
    cbv zeta in Hs, Hp. fold st' in Hs, Hp. rewrite Hs, Hp.
    by apply gate_wf. }
  pose proof (delayFrame_fields cfg L inputBuffer i st)
    as (Hs & Hp & _ & Hr & Ho).
  pose proof (gate_cases cfg fill (dl_playbackStarted st) (dl_wasPaused st)
                (inject_Z_pos _ HF) Hwf) as (Hcan & Hstep).
  cbv zeta in Hs, Hp, Hr, Ho, Hcan, Hstep.
  fold F d fill in Hs, Hp, Hr, Ho, Hcan, Hstep. fold st' in Hs, Hp, Hr, Ho.
  set (g := gate cfg (fill / F) (dl_playbackStarted st) (dl_wasPaused st)) in *.
  assert (gateOf st' = gateState g.1.2 g.2) as ->
    by (unfold gateOf; by rewrite Hs, Hp).
  split; [|split; [|split; [|exact Hwf']]].
  - unfold gateOf.
    destruct (gateState (dl_playbackStarted st) (dl_wasPaused st));
      destruct Hstep as [[-> Hc] | [-> Hc]];
      (split; [split; [intros ?; first [done | lra] | intros ?; first [done | lra]]
              | auto]).
  - intros Hnot.
    assert (g.1.1 = false) as Hfalse.
    { rewrite Hcan. by destruct (gateState g.1.2 g.2). }
    rewrite Hfalse in Hr. split; [done|].
    intros ch Hch Hrange. rewrite (Ho Hfalse). unfold for_loop.
    apply (write_loop_get_hit (fun ch => i * channels cfg + ch) (fun _ => 0%Q)).
    + apply elem_of_seqZ. lia.
    + intros j _ Hj. lia.
    + done.
  - intros Hplay. rewrite Hplay in Hcan. by rewrite Hcan in Hr.
Qed.

(** ** The fill across frames *)

Lemma c_mod_succ (x L : Z) :
  0 <= x < L -> c_mod (x + 1) L = if decide (x + 1 = L) then 0 else x + 1.
Proof.
  intros Hx. unfold c_mod. rewrite Z.rem_mod_nonneg by lia.
  case_decide as E.
  - rewrite E. apply Z_mod_same_full.
  - apply Z.mod_small. lia.
Qed.

Lemma c_mod_gap (W R L : Z) :
  0 <= W < L -> 0 <= R < L ->
  c_mod (W - R + L) L = if decide (R <= W) then W - R else W - R + L.
Proof.
  intros HW HR. unfold c_mod. rewrite Z.rem_mod_nonneg by lia.
  case_decide.
  - replace (W - R + L) with (W - R + 1 * L) by lia.
    rewrite Z_mod_plus_full. apply Z.mod_small. lia.
  - apply Z.mod_small. lia.
Qed.

Lemma to_int_floor (x : Q) :
  (0 <= x)%Q -> (inject_Z (to_int x) <= x < inject_Z (to_int x) + 1)%Q.
Proof.
  intros Hx. assert (to_int x = Qfloor x) as ->.
  { unfold to_int. destruct x as [n d]. simpl.
    apply Z.quot_div_nonneg; [|lia].
    unfold Qle in Hx. simpl in Hx. lia. }
  split; [apply Qfloor_le|].
  pose proof (Qlt_floor x) as H. by rewrite inject_Z_plus in H.
Qed.

Lemma delayLength_room (cfg : Config) :
  configOk cfg ->
  (initialDelaySeconds cfg * inject_Z (sampleRate cfg)
   + 10 * inject_Z (sampleRate cfg) < inject_Z (delayLength cfg) + 1)%Q
  /\ 10 <= delayLength cfg.
Proof.
  intros [HF Hd]. pose proof (inject_Z_pos _ HF) as HFq.
  assert (1 <= inject_Z (sampleRate cfg))%Q as HF1.
  { replace 1%Q with (inject_Z 1) by done. rewrite <- Zle_Qle. lia. }
  destruct (to_int_floor
              (inject_Z (sampleRate cfg) * (initialDelaySeconds cfg + 10)))
    as [H1 H2]; [nra|].
  fold (delayLength cfg) in H1, H2. split; [lra|].
  assert (inject_Z 10 < inject_Z (delayLength cfg) + 1)%Q as H.
  { replace (inject_Z 10) with 10%Q by done. nra. }
  replace 1%Q with (inject_Z 1) in H by done.
  rewrite <- inject_Z_plus, <- Zlt_Qlt in H. lia.
Qed.

Ltac fill_same H :=
  match goal with
  | |- (_ <= inject_Z ?x)%Q =>
      match type of H with
      | (_ <= inject_Z ?y)%Q => replace x with y by lia; exact H
      end
  end.

Lemma delayFrame_inv (cfg : Config) (inputBuffer : list Q) (i : Z)
    (st : DelayLoop) :
  configOk cfg -> GateInv cfg st ->
  let L := delayLength cfg in
  let st' := delayFrame cfg L inputBuffer i st in
  GateInv cfg st'
  /\ dl_writePos st' = c_mod (dl_writePos st + 1) L
  /\ (dl_readPos st' = dl_readPos st \/ dl_readPos st' = c_mod (dl_readPos st + 1) L)
  /\ (gateOf st' ≠ Playing -> dl_readPos st' = dl_readPos st)
  /\ currentGap L st <= currentGap L st'
  /\ (dl_playbackStarted st = true ->
      currentGap L st' = currentGap L st
      /\ ~ (inject_Z (currentGap L st)
            < (initialDelaySeconds cfg - 2) * inject_Z (sampleRate cfg))%Q)
  /\ gateOf st' ≠ Paused.
Proof.
  intros Hok (Hp & HW & HR & Hfill) L st'. subst L.
  pose proof (delayLength_room cfg Hok) as [Hroom HL10].
  destruct Hok as [HF Hd]. pose proof (inject_Z_pos _ HF) as HFq.
  pose proof (delayFrame_fields cfg (delayLength cfg) inputBuffer i st)
    as (Hs' & Hp' & HW' & HR' & _).
  pose proof (gate_cases cfg (inject_Z (currentGap (delayLength cfg) st))
                (dl_playbackStarted st) (dl_wasPaused st) HFq
                (fun _ => Hp)) as (Hcan & Hstep).
  pose proof (gate_wf cfg
                (inject_Z (currentGap (delayLength cfg) st)
                 / inject_Z (sampleRate cfg))%Q
                (dl_playbackStarted st) (dl_wasPaused st) (fun _ => Hp))
    as Hwf'.
  cbv zeta in Hs', Hp', HW', HR', Hcan, Hstep. fold st' in Hs', Hp', HW', HR'.
  remember (gate cfg _ _ _) as g eqn:Eg. clear Eg.
  destruct g as [[canPlay started'] paused'].
  cbn [fst snd] in Hs', Hp', HR', Hcan, Hstep, Hwf'.
  unfold GateInv, gateOf, currentGap in *.
  rewrite Hs', Hp', HW', HR'. clear Hs' Hp' HW' HR'.
  rewrite (c_mod_gap (dl_writePos st) (dl_readPos st)) in * by done.
  rewrite Hp in Hstep.
  destruct (dl_playbackStarted st) eqn:Hst; cbn [gateState negb] in Hstep;
    cbv iota in Hfill.
  - (* Playing: the fill is at least the initial delay, so no pause *)
    destruct Hstep as [[Hg Hc] | [Hg Hc]]; [exfalso; nra|].
    destruct started'; [|done]. destruct paused'; [done|].
    cbn [gateState negb] in *. subst canPlay.
    rewrite (c_mod_succ (dl_writePos st)), (c_mod_succ (dl_readPos st)) by done.
    repeat case_decide; try lia;
      rewrite c_mod_gap by lia; repeat case_decide; try lia;
      (split; [split; [done|]; split; [lia|]; split; [lia|]; fill_same Hfill|]);
      (split; [done|]); (split; [by right|]); (split; [done|]);
      (split; [lia|]); (split; [|done]);
      intros _; (split; [lia|]); intros ?; nra.
  - (* Warming *)
    destruct Hfill as [HR0 HWd]. rewrite HR0 in *.
    case_decide; [|lia]. rewrite Z.sub_0_r in *.
    destruct Hstep as [[Hg Hc] | [Hg Hc]].
    + destruct started'; [|done]. destruct paused'; [done|].
      cbn [gateState negb] in *. subst canPlay.
      rewrite (c_mod_succ (dl_writePos st)), (c_mod_succ 0) by lia.
      repeat case_decide; try lia;
        rewrite c_mod_gap by lia; repeat case_decide; try lia;
        (split; [split; [done|]; split; [lia|]; split; [lia|]; fill_same Hc|]);
        (split; [done|]); (split; [by right|]); (split; [done|]);
        (split; [lia|]); (split; [done|done]).
    + destruct started'; [by destruct paused'|].
      cbn [gateState negb] in *. subst canPlay.
      assert (dl_writePos st + 10 * sampleRate cfg < delayLength cfg + 1) as Hlt.
      { rewrite Zlt_Qlt, !inject_Z_plus, inject_Z_mult.
        change (inject_Z 10) with 10%Q. change (inject_Z 1) with 1%Q. lra. }
      rewrite (c_mod_succ (dl_writePos st)) by lia.
      case_decide; [lia|].
      rewrite c_mod_gap by lia. case_decide; [|lia]. rewrite Z.sub_0_r.
      split.
      { split; [by apply Hwf'|]. split; [lia|]. split; [lia|].
        split; [done|]. rewrite inject_Z_plus. change (inject_Z 1) with 1%Q. lra. }
      split; [done|]. split; [by left|]. split; [done|]. split; [lia|].
      split; [done|done].
Qed.

(** ** The gate and the fill *)

Lemma c_mod_nonneg (x L : Z) : 0 <= x -> 0 < L -> c_mod x L = x `mod` L.
Proof. intros Hx HL. unfold c_mod. apply Z.rem_mod_nonneg; lia. Qed.

(** On ring positions [currentGap] is the fill [W - R] of the ring. *)
Lemma currentGap_mod (L : Z) (st : DelayLoop) :
  0 <= dl_writePos st < L -> 0 <= dl_readPos st < L ->
  currentGap L st = (dl_writePos st - dl_readPos st) `mod` L.
Proof.
  intros HW HR. unfold currentGap. rewrite c_mod_nonneg by lia.
  replace (dl_writePos st - dl_readPos st + L)
    with (dl_writePos st - dl_readPos st + 1 * L) by lia.
  apply Z_mod_plus_full.
Qed.

(** C5.  The gate is a three-state machine driven, once per output frame,
    by the fill [W - R] of the ring of [L] positions, the number of frames
    written and not yet read: it moves from Warming to Playing exactly when
    [fill >= initialDelay * F], from Playing to Paused exactly when
    [fill < (initialDelay - 2) * F], from Paused to Playing exactly when
    [fill >= initialDelay * F], and stays where it is otherwise.  When the
    gate is in Warming or Paused for a frame (its state once it has been
    queried with the frame's fill), every channel of the output frame is
    zero and the read position stays; when it is in Playing the read
    position advances by one on the ring.  The write position advances by
    one on the ring in every frame.  The states are read off
    [playbackStarted] and [wasPaused]; [wasPaused] is taken to be clear
    while playback has not started, which every frame keeps true. *)
Theorem playback_gate (cfg : Config) (L : Z) (inputBuffer : list Q) (i : Z)
    (st : DelayLoop) :
  0 < sampleRate cfg ->
  0 <= dl_writePos st < L ->
  0 <= dl_readPos st < L ->
  (dl_playbackStarted st = false -> dl_wasPaused st = false) ->
  let F := inject_Z (sampleRate cfg) in
  let d := initialDelaySeconds cfg in
  let W := dl_writePos st in
  let R := dl_readPos st in
  let fill := inject_Z ((W - R) `mod` L) in
  let st' := delayFrame cfg L inputBuffer i st in
  match gateOf st with
  | Warming =>
      (gateOf st' = Playing <-> (d * F <= fill)%Q)
      /\ (gateOf st' = Playing \/ gateOf st' = Warming)
  | Playing =>
      (gateOf st' = Paused <-> (fill < (d - 2) * F)%Q)
      /\ (gateOf st' = Paused \/ gateOf st' = Playing)
  | Paused =>
      (gateOf st' = Playing <-> (d * F <= fill)%Q)
      /\ (gateOf st' = Playing \/ gateOf st' = Paused)
  end
  /\ (gateOf st' ≠ Playing ->
      dl_readPos st' = R
      /\ forall ch, 0 <= ch < channels cfg ->
           0 <= i * channels cfg + ch < Z.of_nat (length (dl_output st)) ->
           vec_get (dl_output st') (i * channels cfg + ch) = 0%Q)
  /\ (gateOf st' = Playing -> dl_readPos st' = (R + 1) `mod` L)
  /\ dl_writePos st' = (W + 1) `mod` L
  /\ (dl_playbackStarted st' = false -> dl_wasPaused st' = false).
Proof.
  intros HF HW HR Hwf F d W R fill st'.
  pose proof (delayFrame_gate cfg L inputBuffer i st HF Hwf)
    as (Hstep & Hsilent & Hplay & Hwf').
  pose proof (delayFrame_fields cfg L inputBuffer i st) as (_ & _ & HW' & _).
  cbv zeta in Hstep, Hsilent, Hplay, Hwf', HW'.
  rewrite (currentGap_mod L st HW HR) in Hstep.
  rewrite c_mod_nonneg in Hplay, HW' by lia.
  fold st' in Hstep, Hsilent, Hplay, Hwf', HW'.
  split; [exact Hstep|]. split; [exact Hsilent|]. split; [exact Hplay|].
  split; [exact HW' | exact Hwf'].
Qed.

Ltac gate_example T :=
  cbv zeta in T;
  cbn [gateLoop gateOf gateState negb dl_playbackStarted dl_wasPaused
       dl_writePos dl_readPos dl_output gateConfig sampleRate channels
       initialDelaySeconds length] in T.

Lemma playback_gate_witness :
  let frame := delayFrame gateConfig 20 [7%Q] 0 in
  let warm9 := gateLoop 9 0 false false in
  let warm10 := gateLoop 10 0 false false in
  let play7 := gateLoop 7 0 true false in
  let paused2 := gateLoop 2 12 true true in
  (0 < sampleRate gateConfig
   /\ 0 <= dl_writePos warm9 < 20 /\ 0 <= dl_readPos warm9 < 20
   /\ (dl_playbackStarted warm9 = false -> dl_wasPaused warm9 = false))
  /\ (gateOf warm9 = Warming /\ gateOf (frame warm9) = Warming
      /\ dl_readPos (frame warm9) = 0
      /\ vec_get (dl_output (frame warm9)) 0 = 0%Q
      /\ dl_writePos (frame warm9) = 10)
  /\ (gateOf warm10 = Warming /\ gateOf (frame warm10) = Playing
      /\ dl_readPos (frame warm10) = 1)
  /\ (gateOf play7 = Playing /\ gateOf (frame play7) = Paused
      /\ dl_readPos (frame play7) = 0
      /\ vec_get (dl_output (frame play7)) 0 = 0%Q)
  /\ (gateOf paused2 = Paused /\ gateOf (frame paused2) = Playing
      /\ dl_readPos (frame paused2) = 13).
Proof.
  intros frame warm9 warm10 play7 paused2.
  assert (0 < sampleRate gateConfig) as HF by (simpl; lia).
  assert (forall W R s p, 0 <= W < 20 -> 0 <= dl_writePos (gateLoop W R s p) < 20)
    as HW by (intros; simpl; lia).
  assert (forall W R s p, 0 <= R < 20 -> 0 <= dl_readPos (gateLoop W R s p) < 20)
    as HR by (intros; simpl; lia).
  split; [|split; [|split; [|split]]].
  - split; [exact HF|]. split; [simpl; lia|]. split; [simpl; lia | done].
  - pose proof (playback_gate gateConfig 20 [7%Q] 0 warm9 HF
                  (HW 9 0 false false ltac:(lia))
                  (HR 9 0 false false ltac:(lia)) (fun _ => eq_refl))
      as ([Tiff Tor] & Tsilent & _ & TW & _).
    gate_example Tiff. gate_example Tor. gate_example Tsilent. gate_example TW.
    assert (gateOf (frame warm9) = Warming) as Hg.
    { destruct Tor as [Hp|Hw]; [|exact Hw].
      apply Tiff in Hp. vm_compute in Hp. by destruct Hp. }
    assert (gateOf (frame warm9) ≠ Playing) as Hn by (rewrite Hg; discriminate).
    destruct (Tsilent Hn) as [HR' Hout].
    split; [done|]. split; [exact Hg|]. split; [exact HR'|].
    split; [apply (Hout 0); simpl; lia | exact TW].
  - pose proof (playback_gate gateConfig 20 [7%Q] 0 warm10 HF
                  (HW 10 0 false false ltac:(lia))
                  (HR 10 0 false false ltac:(lia)) (fun _ => eq_refl))
      as ([Tiff _] & _ & Tplay & _).
    gate_example Tiff. gate_example Tplay.
    assert (gateOf (frame warm10) = Playing) as Hg.
    { apply Tiff. vm_compute. discriminate. }
    split; [done|]. split; [exact Hg|]. exact (Tplay Hg).
  - pose proof (playback_gate gateConfig 20 [7%Q] 0 play7 HF
                  (HW 7 0 true false ltac:(lia))
                  (HR 7 0 true false ltac:(lia)) (fun H => eq_refl))
      as ([Tiff _] & Tsilent & _).
    gate_example Tiff. gate_example Tsilent.
    assert (gateOf (frame play7) = Paused) as Hg.
    { apply Tiff. vm_compute. reflexivity. }
    assert (gateOf (frame play7) ≠ Playing) as Hn by (rewrite Hg; discriminate).
    destruct (Tsilent Hn) as [HR' Hout].
    split; [done|]. split; [exact Hg|]. split; [exact HR'|].
    apply (Hout 0); simpl; lia.
  - pose proof (playback_gate gateConfig 20 [7%Q] 0 paused2 HF
                  (HW 2 12 true true ltac:(lia))
                  (HR 2 12 true true ltac:(lia))
                  (fun H => False_ind _ (Bool.diff_true_false H)))
      as ([Tiff _] & _ & Tplay & _).
    gate_example Tiff. gate_example Tplay.
    assert (gateOf (frame paused2) = Playing) as Hg.
    { apply Tiff. vm_compute. discriminate. }
    split; [done|]. split; [exact Hg|]. exact (Tplay Hg).
Defined.

Lemma for_loop_succ {A : Type} (n : Z) (body : Z -> A -> A) (a : A) :
  0 <= n -> for_loop 0 (n + 1) body a = body n (for_loop 0 n body a).
Proof.
  intros Hn. unfold for_loop. rewrite !Z.sub_0_r.
  rewrite seqZ_app by lia. rewrite foldl_app.
  rewrite (seqZ_cons (0 + n) 1) by lia.
  by rewrite (seqZ_nil _ (Z.pred 1)) by lia.
Qed.

Lemma for_loop_none {A : Type} (lo hi : Z) (body : Z -> A -> A) (a : A) :
  hi <= lo -> for_loop lo hi body a = a.
Proof. intros H. unfold for_loop. by rewrite seqZ_nil by lia. Qed.

Lemma for_loop_preserves {A : Type} (P : A -> Prop) (lo hi : Z)
    (body : Z -> A -> A) (a : A) :
  (forall i a, lo <= i < hi -> P a -> P (body i a)) ->
  P a -> P (for_loop lo hi body a).
Proof.
  intros Hbody. unfold for_loop.
  assert (forall idxs a, (forall i, i ∈ idxs -> lo <= i < hi) -> P a ->
                         P (foldl (fun a i => body i a) a idxs)) as H.
  { intros idxs. induction idxs as [|i idxs IH]; intros a0 Hin Ha0; [done|].
    simpl. apply IH.
    - intros j Hj. apply Hin. by right.
    - apply Hbody; [|done]. apply Hin. by left. }
  apply H. intros i Hi. apply elem_of_seqZ in Hi. lia.
Qed.

Lemma delayFrames_succ (s : State) (inputBuffer outputBuffer : list Q) (n : Z) :
  0 <= n ->
  delayFrames s inputBuffer outputBuffer (n + 1)
  = delayFrame (config s) (delayBufferSize s) inputBuffer n
      (delayFrames s inputBuffer outputBuffer n).
Proof. intros Hn. unfold delayFrames. by apply for_loop_succ. Qed.

Lemma delayFrames_inv (cfg : Config) (s : State)
    (inputBuffer outputBuffer : list Q) (n : Z) :
  configOk cfg -> config s = cfg -> delayBufferSize s = delayLength cfg ->
  GateInv cfg (delayLoopInit s outputBuffer) ->
  GateInv cfg (delayFrames s inputBuffer outputBuffer n).
Proof.
  intros Hok Hcfg HL Hinit.
  destruct (Z.le_gt_cases n 0) as [Hn|Hn].
  { unfold delayFrames. by rewrite for_loop_none. }
  rewrite <- (Z2Nat.id n) by lia. generalize (Z.to_nat n) as k. clear Hn.
  intros k. induction k as [|k IH].
  - unfold delayFrames. by rewrite for_loop_none.
  - rewrite Nat2Z.inj_succ, <- Z.add_1_r, delayFrames_succ by lia.
    rewrite Hcfg, HL. by apply delayFrame_inv.
Qed.

Lemma GateInv_fields (cfg : Config) (s1 s2 : State) (out1 out2 : list Q) :
  gateFields s1 = gateFields s2 ->
  GateInv cfg (delayLoopInit s1 out1) -> GateInv cfg (delayLoopInit s2 out2).
Proof.
  unfold gateFields, GateInv, delayLoopInit, currentGap. simpl.
  intros [= _ _ -> -> -> ->]. done.
Qed.

Lemma censorTranscription_gateFields (toSample : SampleCast)
    (containsProfanity : string -> bool)
    (words : list WordSegment) (captureTime : Q) (s : State) :
  gateFields (censorTranscription toSample containsProfanity words captureTime s).1
  = gateFields s.
Proof.
  unfold censorTranscription.
  apply (censorLoop_preserves toSample containsProfanity
           (fun s' => gateFields s' = gateFields s)); [| |done].
  - intros w s' <-. unfold censorSingle. by destruct (hitSpan _ _ _ _).
  - intros w w2 s' <-. unfold censorBigram. by destruct (hitSpan _ _ _ _).
Qed.

Lemma process_gateFields (inputBuffer outputBuffer : list Q) (frames : Z)
    (s : State) :
  let st := delayFrames s inputBuffer outputBuffer frames in
  gateFields (process inputBuffer outputBuffer frames s).1
  = (config s, delayBufferSize s, dl_writePos st, dl_readPos st,
     dl_playbackStarted st, dl_wasPaused st).
Proof. unfold process. by destruct (accumulate _ _ _ _). Qed.

Lemma reachable_inv (cfg : Config) (s : State) :
  configOk cfg -> reachable cfg s ->
  config s = cfg /\ delayBufferSize s = delayLength cfg
  /\ forall out, GateInv cfg (delayLoopInit s out).
Proof.
  intros Hok Hreach.
  induction Hreach as [|s inb outb frames _ (Hc & HL & IH)
                       |s s' chunk t _ (Hc & HL & IH) Htake
                       |s toSample c words t _ (Hc & HL & IH)].
  - split; [done|]. split; [done|]. intros out.
    pose proof (delayLength_room cfg Hok) as [_ HL].
    destruct Hok as [HF Hd]. pose proof (inject_Z_pos _ HF) as HFq.
    unfold GateInv, currentGap. simpl. fold (delayLength cfg).
    split; [done|]. split; [lia|]. split; [lia|]. split; [done|].
    change (inject_Z 0) with 0%Q. nra.
  - pose proof (process_gateFields inb outb frames s) as Hf. cbv zeta in Hf.
    unfold gateFields in Hf. injection Hf as Hc' HL' HW' HR' Hs' Hp'.
    split; [congruence|]. split; [congruence|]. intros out.
    pose proof (delayFrames_inv cfg s inb outb frames Hok Hc HL (IH outb))
      as Hinv.
    unfold GateInv, delayLoopInit, currentGap in *. simpl.
    by rewrite HW', HR', Hs', Hp'.
  - unfold whisperTake in Htake. destruct (hasNewBuffer s); [|done].
    injection Htake as <- _ _. split; [done|]. split; [done|]. intros out.
    apply (GateInv_fields cfg s _ out out); [done | apply IH].
  - pose proof (censorTranscription_gateFields toSample c words t s) as Hf.
    pose proof Hf as Hf'. unfold gateFields in Hf'.
    injection Hf' as Hc' HL' _ _ _ _.
    split; [congruence|]. split; [congruence|]. intros out.
    apply (GateInv_fields cfg s _ out out); [done | apply IH].
Qed.


(** ** Chunks handed to the worker *)

(** A handoff records the write position of the delay line as it is before
    the frames of the current call are written. *)
Lemma handoff_capture_time (inputBuffer outputBuffer : list Q) (frames : Z)
    (s : State) :
  hasNewBuffer s = false ->
  fle (inject_Z (sampleRate (config s)) * chunkSeconds (config s))
    (inject_Z (transcriptionInterval s + frames)) = true ->
  let s' := (process inputBuffer outputBuffer frames s).1 in
  hasNewBuffer s' = true
  /\ bufferCaptureTime s' = inject_Z (delayWritePos s)
  /\ delayWritePos s'
     = dl_writePos (delayFrames s inputBuffer outputBuffer frames).
Proof.
  intros Hidle Hdue. unfold process.
  destruct (accumulate _ _ _ _). simpl. by rewrite Hdue, Hidle.
Qed.

(** Once the capture buffer is full it takes no more samples: while a
    handoff is deferred the frames of the input are dropped from it. *)
Lemma accumulate_full (cfg : Config) (inputBuffer : list Q) (frames : Z)
    (audioBuffer : list Q) (bufferWritePos : Z) :
  Z.of_nat (length audioBuffer) <= bufferWritePos ->
  accumulate cfg inputBuffer frames (audioBuffer, bufferWritePos)
  = (audioBuffer, bufferWritePos).
Proof.
  intros Hfull. unfold accumulate.
  apply (for_loop_preserves (fun acc => acc = (audioBuffer, bufferWritePos)));
    [|done].
  intros i acc _ ->. simpl.
  destruct (Z.ltb_spec bufferWritePos (Z.of_nat (length audioBuffer))); [lia|done].
Qed.

(** C3, evaluated.  Frames [1, 2, ..] arrive one per call, so frame [n] is
    written at position [n - 1] of the delay line.
    - The first chunk is the frames 1 to 5, at positions 0 to 4; it is
      handed over with [captureTime = 4], the write position before the
      frame of the current call is written, so that sample [i] is mapped
      to position [4 - 5 + i], one frame early.
    - While the second chunk, the frames 6 to 10, waits for the worker, the
      capture buffer fills with the frames 11 to 15 and drops 16 and 17.
      After the worker's pick-up the chunk of frames 11 to 15 is handed
      over with [captureTime = 17]: its samples are mapped to positions 12
      to 16, which hold the frames 13 to 17, while the frames 11 to 15 are
      at positions 10 to 14.
    - A hit on the first sample of that chunk mutes position 12, the frame
      13, and leaves the frame 11 as it was. *)
Theorem deferred_chunk_misaligned :
  let s1 := feed chunkEngine (framesFrom 1 5) in
  let s2 := feed (afterTake s1) (framesFrom 6 12) in
  let s3 := feed (afterTake s2) (framesFrom 18 1) in
  let censored :=
    (censorTranscription exactCast demoLexicon [mkWordSegment "bull" (4 # 10) 1 (9 # 10)]
       17 (afterTake s3)).1 in
  takenChunk s1 = Some (framesFrom 1 5, 4%Q)
  /\ take 5 <$> delayBuffer s1 !! 0%nat = Some (framesFrom 1 5)
  /\ takenChunk s2 = Some (framesFrom 6 5, 9%Q)
  /\ hasNewBuffer (afterTake s2) = false
  /\ audioBuffer (afterTake s2) = framesFrom 11 5
  /\ delayWritePos (afterTake s2) = 17
  /\ takenChunk s3 = Some (framesFrom 11 5, 17%Q)
  /\ take 18 <$> delayBuffer s3 !! 0%nat = Some (framesFrom 1 18)
  /\ sampleAt (delayBuffer s3) 0 (Z.to_nat (17 - 5 + 0)) = Some 13%Q
  /\ hitSpan exactCast (config s3) (4 # 10) 1 = (0, 1)
  /\ take 18 <$> delayBuffer censored !! 0%nat
     = Some (framesFrom 1 12 ++ [0%Q] ++ framesFrom 14 5).
Proof. vm_compute. repeat split; reflexivity. Qed.

(** ** Lyrics alignment *)

Lemma mat_set_dims (matrix : list (list Z)) (rows cols : nat) (i j x : Z) :
  dims matrix rows cols -> dims (mat_set matrix i j x) rows cols.
Proof.
  intros [Hr Hc]. unfold mat_set. destruct (_ && _); [|done]. split.
  - by rewrite length_alter.
  - intros r row. rewrite list_lookup_alter. case_decide as E.
    + destruct (matrix !! Z.to_nat i) as [row0|] eqn:E0; [|done].
      simpl. intros [= <-]. rewrite length_insert. by apply (Hc _ _ E0).
    + apply Hc.
Qed.

Lemma mat_get_set_eq (matrix : list (list Z)) (rows cols : nat) (i j x : Z) :
  dims matrix rows cols ->
  0 <= i < Z.of_nat rows -> 0 <= j < Z.of_nat cols ->
  mat_get (mat_set matrix i j x) i j = x.
Proof.
  intros [Hr Hc] Hi Hj. unfold mat_get, mat_set.
  destruct (Z.leb_spec 0 i); [|lia]. destruct (Z.leb_spec 0 j); [|lia]. simpl.
  rewrite list_lookup_alter_eq.
  destruct (matrix !! Z.to_nat i) as [row|] eqn:E; simpl.
  - rewrite list_lookup_insert_eq; [done|]. rewrite (Hc _ _ E). lia.
  - apply lookup_ge_None in E. lia.
Qed.

Lemma mat_get_set_ne (matrix : list (list Z)) (i j x i' j' : Z) :
  i ≠ i' \/ j ≠ j' ->
  mat_get (mat_set matrix i j x) i' j' = mat_get matrix i' j'.
Proof.
  intros Hne. unfold mat_get, mat_set.
  destruct (Z.leb_spec 0 i'); [|done]. destruct (Z.leb_spec 0 j'); [|done].
  destruct (Z.leb_spec 0 i); [|done]. destruct (Z.leb_spec 0 j); [|done].
  simpl. rewrite list_lookup_alter. case_decide as E; [|done].
  rewrite E. destruct (matrix !! Z.to_nat i') as [row|]; [simpl|done].
  rewrite list_lookup_insert_ne; [done|]. lia.
Qed.

(** The first row of the edit distance matrix is [0, 1, .., n]. *)
Lemma calculateEditDistance_row0 (seq1 seq2 : list string) (j : Z) :
  0 <= j <= Z.of_nat (length seq2) ->
  mat_get (calculateEditDistance seq1 seq2) 0 j = j.
Proof.
  intros Hj. unfold calculateEditDistance.
  set (m := Z.of_nat (length seq1)). set (n := Z.of_nat (length seq2)).
  set (rows := Z.to_nat (m + 1)). set (cols := Z.to_nat (n + 1)).
  set (P := fun matrix : list (list Z) =>
              dims matrix rows cols /\ mat_get matrix 0 j = j).
  assert (forall matrix, dims matrix rows cols ->
            P (for_loop 0 (n + 1) (fun j matrix => mat_set matrix 0 j j) matrix))
    as Hrow.
  { intros matrix Hd. unfold for_loop. rewrite Z.sub_0_r.
    assert (forall k : nat, (k <= cols)%nat ->
              let matrix' :=
                foldl (fun a i => mat_set a 0 i i) matrix (seqZ 0 (Z.of_nat k)) in
              dims matrix' rows cols
              /\ forall j', 0 <= j' < Z.of_nat k -> mat_get matrix' 0 j' = j')
      as Hk.
    { induction k as [|k IH]; intros Hle; cbv zeta.
      - simpl. split; [done|]. lia.
      - rewrite seqZ_S, foldl_snoc. simpl.
        destruct IH as [Hd' Hget]; [lia|]. split; [by apply mat_set_dims|].
        intros j' Hj'. destruct (decide (j' = Z.of_nat k)) as [->|Hne].
        + apply (mat_get_set_eq _ rows cols); [done| |]; subst rows; lia.
        + rewrite mat_get_set_ne by (right; lia). apply Hget. lia. }
    specialize (Hk cols (le_n _)). cbv zeta in Hk.
    replace (Z.of_nat cols) with (n + 1) in Hk by (subst cols n; lia).
    destruct Hk as [Hd' Hget]. split; [done|]. apply Hget. subst n. lia. }
  apply (for_loop_preserves P).
  { intros i matrix Hi HP. apply (for_loop_preserves P); [|done].
    intros j' matrix' Hj' [Hd Hget].
    destruct (String.eqb _ _);
      (split; [by apply mat_set_dims|]);
      rewrite mat_get_set_ne by (left; lia); done. }
  apply Hrow.
  apply (for_loop_preserves (fun matrix => dims matrix rows cols)).
  { intros i matrix _ Hd. by apply mat_set_dims. }
  split.
  - by rewrite length_replicate.
  - intros r row Hrow'. apply lookup_replicate in Hrow' as [-> _].
    by rewrite length_replicate.
Qed.

Lemma Script_in_range (i j : Z) (ops : list EditOp) :
  Script i j ops -> 0 <= i /\ 0 <= j /\ Forall opInRange ops.
Proof.
  induction 1 as [|i j ops _ (Hi & Hj & IH)|i j ops _ (Hi & Hj & IH)
                  |i j ops _ (Hi & Hj & IH)];
    [by repeat split|..];
    (split; [lia|]; split; [lia|]);
    apply Forall_app; (split; [done|]); apply Forall_singleton; simpl; lia.
Qed.

Lemma emitSegment_emitOp (lyricsWords : list string)
    (originalSegments : list WordSegment) (ops : list EditOp) :
  Forall opInRange ops ->
  forall emitted,
    foldl (emitSegment lyricsWords originalSegments) emitted
      (omap alignmentOf ops)
    = foldl (emitOp lyricsWords originalSegments) emitted ops.
Proof.
  induction 1 as [|op ops Hop _ IH]; intros emitted; [done|].
  destruct op as [ti li|li|ti]; simpl in *.
  - rewrite <- IH. f_equal. unfold emitSegment.
    destruct Hop as [Hti Hli].
    destruct (Z.leb_spec 0 ti); [|lia]. destruct (Z.leb_spec 0 li); [|lia].
    done.
  - rewrite <- IH. f_equal. unfold emitSegment. simpl.
    destruct (Z.leb_spec 0 li); [|lia]. by destruct (last emitted).
  - apply IH.
Qed.

(** The loop of [backtrackAlignment] ends, given fuel for [i + j] turns and
    a matrix whose first row counts up, and what it appends to [alignments]
    is a script for [i] and [j], last operation first. *)
Lemma backtrackLoop_script (matrix : list (list Z))
    (transcribedWords lyricsWords : list string) (n : Z) :
  (forall j, 0 < j <= n -> mat_get matrix 0 j = mat_get matrix 0 (j - 1) + 1) ->
  forall (fuel : nat) (i j : Z) (alignments : list (Z * Z)),
    0 <= i -> 0 <= j <= n -> i + j <= Z.of_nat fuel ->
    exists back,
      backtrackLoop fuel matrix transcribedWords lyricsWords i j alignments
      = Some (alignments ++ omap alignmentOf back)
      /\ Script i j (reverse back).
Proof.
  intros Hrow0 fuel.
  induction fuel as [|fuel IH]; intros i j alignments Hi Hj Hfuel.
  - assert (i = 0) as -> by lia. assert (j = 0) as -> by lia.
    exists []. simpl. rewrite app_nil_r. split; [done | constructor].
  - cbn [backtrackLoop].
    destruct (Z.ltb_spec 0 i) as [Hi0|Hi0];
      destruct (Z.ltb_spec 0 j) as [Hj0|Hj0]; cbn [orb andb].
    + (* both indices are positive *)
      assert (exists back,
                backtrackLoop fuel matrix transcribedWords lyricsWords
                  (i - 1) (j - 1) (alignments ++ [(i - 1, j - 1)])
                = Some (alignments ++ omap alignmentOf back)
                /\ Script i j (reverse back)) as Hal.
      { destruct (IH (i - 1) (j - 1) (alignments ++ [(i - 1, j - 1)]))
          as (back & Hloop & Hscript); [lia..|].
        exists (Aligned (i - 1) (j - 1) :: back). split.
        - rewrite Hloop. simpl. by rewrite <- app_assoc.
        - rewrite reverse_cons.
          replace i with (i - 1 + 1) at 1 by lia.
          replace j with (j - 1 + 1) at 1 by lia. by constructor. }
      destruct (String.eqb _ _); [exact Hal|].
      destruct (_ =? _); [exact Hal|].
      destruct (_ =? _).
      * destruct (IH i (j - 1) (alignments ++ [(-1, j - 1)]))
          as (back & Hloop & Hscript); [lia..|].
        exists (Inserted (j - 1) :: back). split.
        -- rewrite Hloop. simpl. by rewrite <- app_assoc.
        -- rewrite reverse_cons.
           replace j with (j - 1 + 1) at 1 by lia. by constructor.
      * destruct (IH (i - 1) j alignments) as (back & Hloop & Hscript); [lia..|].
        exists (Deleted (i - 1) :: back). split; [done|].
        rewrite reverse_cons.
        replace i with (i - 1 + 1) at 1 by lia. by constructor.
    + (* only transcribed words are left: deletions *)
      destruct (IH (i - 1) j alignments) as (back & Hloop & Hscript); [lia..|].
      exists (Deleted (i - 1) :: back). split; [done|].
      rewrite reverse_cons.
      replace i with (i - 1 + 1) at 1 by lia. by constructor.
    + (* only lyric words are left: insertions *)
      assert (i = 0) as -> by lia.
      rewrite (Hrow0 j) by lia. rewrite Z.eqb_refl.
      destruct (IH 0 (j - 1) (alignments ++ [(-1, j - 1)]))
        as (back & Hloop & Hscript); [lia..|].
      exists (Inserted (j - 1) :: back). split.
      * rewrite Hloop. simpl. by rewrite <- app_assoc.
      * rewrite reverse_cons.
        replace j with (j - 1 + 1) at 1 by lia. by constructor.
    + assert (i = 0) as -> by lia. assert (j = 0) as -> by lia.
      exists []. simpl. rewrite app_nil_r. split; [done | constructor].
Qed.

Lemma omap_reverse {A B : Type} (f : A -> option B) (l : list A) :
  omap f (reverse l) = reverse (omap f l).
Proof.
  induction l as [|x l IH]; [done|].
  rewrite reverse_cons, omap_app, IH. simpl.
  destruct (f x); simpl; [by rewrite reverse_cons | by rewrite app_nil_r].
Qed.

(** Three transcribed words against the lyric "a x c d": two matches, a
    substitution and an insertion. *)
Example lyrics_backtrack_example :
  alignLyricsToTranscription 7
    [mkWordSegment "a" 0 1 1; mkWordSegment "b" 1 2 1; mkWordSegment "c" 2 3 1]
    "A x, c d"
  = Some [mkWordSegment "a" 0 1 (1 * (95 # 100));
          mkWordSegment "x" 1 2 (1 * (95 # 100));
          mkWordSegment "c" 2 3 (1 * (95 # 100));
          mkWordSegment "d" 3 (3 + (3 # 10)) (1 # 2)]%Q.
Proof. reflexivity. Qed.

(** ** The delay line as a stream *)

Lemma for_loop_ind {A : Type} (P : Z -> A -> Prop) (lo hi : Z)
    (body : Z -> A -> A) (a : A) :
  lo <= hi -> P lo a ->
  (forall i a, lo <= i < hi -> P i a -> P (i + 1) (body i a)) ->
  P hi (for_loop lo hi body a).
Proof.
  intros Hle Ha Hstep. unfold for_loop.
  replace hi with (lo + Z.of_nat (Z.to_nat (hi - lo))) at 1 by lia.
  assert (Z.of_nat (Z.to_nat (hi - lo)) <= hi - lo) as Hb by lia.
  rewrite <- (Z2Nat.id (hi - lo)) at 2 by lia.
  revert Hb. generalize (Z.to_nat (hi - lo)) as k. intros k.
  induction k as [|k IH]; intros Hb.
  - simpl. by rewrite Z.add_0_r.
  - rewrite seqZ_S, foldl_snoc, Nat2Z.inj_succ.
    replace (lo + Z.succ (Z.of_nat k)) with (lo + Z.of_nat k + 1) by lia.
    apply Hstep; [lia|]. apply IH. lia.
Qed.

Lemma for_loop_ext {A : Type} (lo hi : Z) (f g : Z -> A -> A) (a : A) :
  (forall i a, lo <= i < hi -> f i a = g i a) ->
  for_loop lo hi f a = for_loop lo hi g a.
Proof.
  intros Hfg. unfold for_loop.
  assert (forall idxs a, (forall i, i ∈ idxs -> lo <= i < hi) ->
            foldl (fun a i => f i a) a idxs = foldl (fun a i => g i a) a idxs)
    as H.
  { intros idxs. induction idxs as [|i idxs IH]; intros a0 Hin; [done|].
    simpl. rewrite Hfg by (apply Hin; left). apply IH.
    intros j Hj. apply Hin. by right. }
  apply H. intros i Hi. apply elem_of_seqZ in Hi. lia.
Qed.

Lemma vec_get_app_l (l1 l2 : list Q) (k : Z) :
  k < Z.of_nat (length l1) -> vec_get (l1 ++ l2) k = vec_get l1 k.
Proof.
  intros Hk. unfold vec_get. destruct (Z.leb_spec 0 k); [|done].
  rewrite lookup_app_l; [done | lia].
Qed.

Lemma vec_get_app_r (l1 l2 : list Q) (k : Z) :
  Z.of_nat (length l1) <= k ->
  vec_get (l1 ++ l2) k = vec_get l2 (k - Z.of_nat (length l1)).
Proof.
  intros Hk. unfold vec_get.
  destruct (Z.leb_spec 0 k); [|lia].
  destruct (Z.leb_spec 0 (k - Z.of_nat (length l1))); [|lia].
  rewrite lookup_app_r by lia. do 2 f_equal. lia.
Qed.

Lemma vec_get_fmap_seqZ (f : Z -> Q) (a n k : Z) :
  0 <= k < n -> vec_get (f <$> seqZ a n) k = f (a + k).
Proof.
  intros Hk. rewrite vec_get_lookup by lia.
  rewrite list_lookup_fmap, (lookup_seqZ_lt a n (Z.to_nat k)) by lia.
  simpl. f_equal. lia.
Qed.

Lemma mod_window (L j1 j2 : Z) :
  0 < L -> j1 < j2 < j1 + L -> j1 `mod` L ≠ j2 `mod` L.
Proof.
  intros HL Hj Heq. symmetry in Heq. apply Z.cong_iff_0 in Heq.
  apply Z.mod_divide in Heq; [|lia]. destruct Heq as [q Hq].
  destruct (Z.le_gt_cases q 0); nia.
Qed.

Lemma delayInFrames_le (cfg : Config) (n : Z) :
  (initialDelaySeconds cfg * inject_Z (sampleRate cfg) <= inject_Z n)%Q
  <-> delayInFrames cfg <= n.
Proof.
  unfold delayInFrames. split; intros H.
  - apply Qceiling_resp_le in H. by rewrite Qceiling_Z in H.
  - eapply Qle_trans; [apply Qle_ceiling|]. by rewrite <- Zle_Qle.
Qed.

Lemma delayInFrames_bounds (cfg : Config) :
  configOk cfg -> 0 <= delayInFrames cfg < delayLength cfg.
Proof.
  intros Hok. pose proof (delayLength_room cfg Hok) as [Hroom HL].
  destruct Hok as [HF Hd]. pose proof (inject_Z_pos _ HF) as HFq.
  split.
  - change 0 with (Qceiling (inject_Z 0)) at 1.
    apply Qceiling_resp_le. change (inject_Z 0) with 0%Q.
    apply Qmult_le_0_compat; lra.
  - assert (delayInFrames cfg <= delayLength cfg - 1); [|lia].
    apply delayInFrames_le.
    replace (delayLength cfg - 1) with (delayLength cfg + -1) by lia.
    rewrite inject_Z_plus. change (inject_Z (-1)) with (- (1))%Q.
    assert (1 <= inject_Z (sampleRate cfg))%Q.
    { change 1%Q with (inject_Z 1). rewrite <- Zle_Qle. lia. }
    lra.
Qed.

Lemma stream_gap (cfg : Config) (hist : list Q) (n : Z) (st : DelayLoop) :
  configOk cfg -> StreamInv cfg hist n st ->
  currentGap (delayLength cfg) st = Z.min n (delayInFrames cfg).
Proof.
  intros Hok (Hn & _ & _ & HW & _ & HR & _).
  pose proof (delayInFrames_bounds cfg Hok) as HD.
  unfold currentGap. rewrite HW, HR.
  remember (delayLength cfg) as L eqn:EL.
  remember (delayInFrames cfg) as D eqn:ED. clear EL ED.
  unfold c_mod. case_decide.
  - rewrite (Z.mod_small n L) by lia. rewrite Z.rem_mod_nonneg by lia.
    replace (n - 0 + L) with (n + 1 * L) by lia.
    rewrite Z_mod_plus_full, Z.mod_small by lia. lia.
  - pose proof (Z.mod_pos_bound n L).
    pose proof (Z.mod_pos_bound (n - D) L).
    rewrite Z.rem_mod_nonneg by lia.
    replace (n `mod` L - (n - D) `mod` L + L)
      with (n `mod` L - (n - D) `mod` L + 1 * L) by lia.
    rewrite Z_mod_plus_full, <- Zminus_mod.
    replace (n - (n - D)) with D by lia.
    rewrite Z.mod_small by lia. lia.
Qed.

(** Without pauses the gate is open from frame [delayInFrames] on. *)
Lemma stream_gate (cfg : Config) (hist : list Q) (n : Z) (st : DelayLoop) :
  configOk cfg -> StreamInv cfg hist n st ->
  gate cfg (inject_Z (currentGap (delayLength cfg) st)
            / inject_Z (sampleRate cfg))%Q
    (dl_playbackStarted st) (dl_wasPaused st)
  = (bool_decide (delayInFrames cfg <= n),
     bool_decide (delayInFrames cfg <= n), false).
Proof.
  intros Hok Hinv. rewrite (stream_gap cfg hist n st Hok Hinv).
  destruct Hinv as (Hn & _ & Hp & _ & Hs & _).
  pose proof (delayInFrames_bounds cfg Hok) as HD.
  destruct Hok as [HF Hd]. pose proof (inject_Z_pos _ HF) as HFq.
  rewrite Hs, Hp. unfold gate.
  pose proof (fle_spec (initialDelaySeconds cfg)
                (inject_Z (n `min` delayInFrames cfg)
                 / inject_Z (sampleRate cfg))) as Hle.
  pose proof (flt_spec (inject_Z (n `min` delayInFrames cfg)
                        / inject_Z (sampleRate cfg))
                (initialDelaySeconds cfg - 2)) as Hlt.
  case_bool_decide as Hst; cbn [negb].
  - (* started: the fill is the delay, no pause *)
    rewrite Z.min_r in * by lia.
    rewrite bool_decide_true by lia.
    destruct (flt _ _).
    + exfalso. apply buffer_seconds_lt in Hlt; [|done].
      pose proof (proj2 (delayInFrames_le cfg (delayInFrames cfg)) (Z.le_refl _)).
      nra.
    + by rewrite andb_false_r.
  - (* warming *)
    destruct (fle _ _).
    + apply buffer_seconds_le in Hle; [|done].
      apply delayInFrames_le in Hle. by rewrite bool_decide_true by lia.
    + apply buffer_seconds_lt in Hle; [|done].
      rewrite bool_decide_false; [done|]. intros Hge.
      rewrite Z.min_r in Hle by lia.
      pose proof (proj2 (delayInFrames_le cfg (delayInFrames cfg)) (Z.le_refl _)).
      lra.
Qed.

(** One frame: the ring takes the frame, and the output frame is the input
    of [delayInFrames] frames ago, or silence before that. *)
Lemma delayFrame_stream (cfg : Config) (hist inb : list Q) (i n : Z)
    (st : DelayLoop) :
  configOk cfg -> 0 < channels cfg -> StreamInv cfg hist n st ->
  let C := channels cfg in
  let hist' := hist ++ ((fun ch => vec_get inb (i * C + ch)) <$> seqZ 0 C) in
  let st' := delayFrame cfg (delayLength cfg) inb i st in
  StreamInv cfg hist' (n + 1) st'
  /\ dl_output st' =
     for_loop 0 C
       (fun ch output =>
          vec_set output (i * C + ch)
            (if decide (n < delayInFrames cfg) then 0%Q
             else vec_get hist' ((n - delayInFrames cfg) * C + ch)))
       (dl_output st).
Proof.
  intros Hok HC Hinv C hist' st'.
  pose proof (stream_gate cfg hist n st Hok Hinv) as Hgate.
  pose proof (delayInFrames_bounds cfg Hok) as HD.
  destruct Hinv as (Hn & Hlen & Hp & HW & Hs & HR & Hbuf).
  remember (delayLength cfg) as L eqn:EL.
  remember (delayInFrames cfg) as D eqn:ED.
  assert (0 < L) as HL by lia.
  pose proof (Z.mod_pos_bound n L HL) as HWr.
  pose proof (Z.mod_pos_bound (n - D) L HL) as HRr.
  (* the buffer after the frame is written *)
  assert (forall ch, 0 <= ch < C ->
            exists chan, dl_buffer st' !! Z.to_nat ch = Some chan
              /\ Z.of_nat (length chan) = L
              /\ forall j, 0 <= j < n + 1 -> n + 1 - L <= j ->
                   vec_get chan (j `mod` L) = vec_get hist' (j * C + ch))
    as Hbuf'.
  { intros ch Hch. destruct (Hbuf ch Hch) as (chan & Hlk & Hcl & Hval).
    exists (vec_set chan (n `mod` L) (vec_get inb (i * C + ch))).
    split; [|split].
    - subst st'. unfold delayFrame. rewrite Hgate. cbn [dl_buffer].
      rewrite (channel_loop_lookup
                 (fun ch channel =>
                    vec_set channel (dl_writePos st)
                      (vec_get inb (i * channels cfg + ch)))).
      rewrite decide_True by (fold C; lia).
      rewrite Hlk, HW, Z2Nat.id by lia. done.
    - by rewrite length_vec_set.
    - intros j Hj Hj'. destruct (decide (j = n)) as [->|Hne].
      + rewrite vec_get_set_eq by lia. subst hist'.
        rewrite vec_get_app_r by lia. rewrite Hlen.
        rewrite vec_get_fmap_seqZ by (unfold C; lia).
        f_equal. unfold C. lia.
      + assert (n `mod` L ≠ j `mod` L) as Hmod.
        { apply not_eq_sym, mod_window; lia. }
        rewrite vec_get_set_ne by done.
        subst hist'. rewrite vec_get_app_l by nia. apply Hval; lia. }
  split.
  - unfold StreamInv. rewrite <- EL, <- ED.
    split; [lia|]. split.
    { subst hist'. rewrite length_app, length_fmap, length_seqZ. lia. }
    split; [|split; [|split; [|split; [|exact Hbuf']]]];
      subst st'; unfold delayFrame; rewrite Hgate;
      cbn [dl_wasPaused dl_writePos dl_playbackStarted dl_readPos].
    + done.
    + rewrite HW. unfold c_mod. rewrite Z.rem_mod_nonneg by lia.
      by rewrite Zplus_mod_idemp_l.
    + apply bool_decide_ext. lia.
    + rewrite HR. case_bool_decide; repeat case_decide; try lia.
      * replace n with D by lia. replace (D + 1 - D) with 1 by lia.
        unfold c_mod. by rewrite Z.rem_mod_nonneg by lia.
      * unfold c_mod. rewrite Z.rem_mod_nonneg by lia.
        rewrite Zplus_mod_idemp_l. f_equal. lia.
  - subst st'. unfold delayFrame at 1. rewrite Hgate. cbn [dl_output].
    apply for_loop_ext. intros ch out Hch. f_equal.
    case_bool_decide; destruct (decide (n < D)); try lia; [|done].
    destruct (Hbuf' ch Hch) as (chan & Hlk & Hcl & Hval).
    unfold delayFrame in Hlk. rewrite Hgate in Hlk. cbn [dl_buffer] in Hlk.
    rewrite Hlk. simpl. rewrite HR.
    destruct (decide (n <= D)).
    + replace n with D in * by lia. rewrite Z.sub_diag, Z.mul_0_l, Z.add_0_l.
      rewrite <- (Z.mod_0_l L) at 1 by lia.
      rewrite Hval by lia. done.
    + apply Hval; lia.
Qed.

Lemma lookup_vec_get (l : list Q) (p : nat) :
  (p < length l)%nat -> l !! p = Some (vec_get l (Z.of_nat p)).
Proof.
  intros Hp. rewrite vec_get_lookup, Nat2Z.id by lia.
  destruct (lookup_lt_is_Some_2 l p Hp) as [x ->]. done.
Qed.

Lemma vec_get_take (l : list Q) (m : nat) (k : Z) :
  k < Z.of_nat m -> vec_get (take m l) k = vec_get l k.
Proof.
  intros Hk. unfold vec_get. destruct (Z.leb_spec 0 k); [|done].
  rewrite lookup_take_lt; [done | lia].
Qed.

Lemma frame_slice (l : list Q) (a c : Z) :
  0 <= a -> 0 <= c -> a + c <= Z.of_nat (length l) ->
  (fun ch => vec_get l (a + ch)) <$> seqZ 0 c
  = take (Z.to_nat c) (drop (Z.to_nat a) l).
Proof.
  intros Ha Hc Hlen. apply list_eq. intros p.
  rewrite list_lookup_fmap, lookup_take, lookup_drop.
  case_decide as Hp.
  - rewrite (lookup_seqZ_lt 0 c p) by lia. simpl.
    rewrite lookup_vec_get by lia. do 2 f_equal. lia.
  - rewrite (lookup_seqZ_ge 0 c p); [done | lia].
Qed.

(** Position [q] of a stream behind [delay] zeros. *)
Lemma delayed_lookup (delay q : Z) (stream : list Q) :
  0 <= delay -> 0 <= q < delay + Z.of_nat (length stream) ->
  (replicate (Z.to_nat delay) 0%Q ++ stream) !! Z.to_nat q
  = Some (if decide (q < delay) then 0%Q else vec_get stream (q - delay)).
Proof.
  intros Hd Hq. case_decide.
  - rewrite lookup_app_l by (rewrite length_replicate; lia).
    apply lookup_replicate_2. lia.
  - rewrite lookup_app_r by (rewrite length_replicate; lia).
    rewrite length_replicate, lookup_vec_get by lia. do 2 f_equal. lia.
Qed.

Lemma delayedSlice_lookup (delay from count : Z) (stream : list Q) (p : nat) :
  0 <= delay -> 0 <= from -> 0 <= count ->
  from + count <= delay + Z.of_nat (length stream) ->
  delayedSlice delay from count stream !! p
  = if decide (Z.of_nat p < count)
    then Some (if decide (from + Z.of_nat p < delay) then 0%Q
               else vec_get stream (from + Z.of_nat p - delay))
    else None.
Proof.
  intros Hd Hf Hc Hlen. unfold delayedSlice.
  rewrite lookup_take, lookup_drop.
  repeat case_decide; try lia; try done.
  - replace (Z.to_nat from + p)%nat with (Z.to_nat (from + Z.of_nat p)) by lia.
    rewrite delayed_lookup by lia. by rewrite decide_True by done.
  - replace (Z.to_nat from + p)%nat with (Z.to_nat (from + Z.of_nat p)) by lia.
    rewrite delayed_lookup by lia. by rewrite decide_False by done.
Qed.

Lemma delayedSlice_length (delay from count : Z) (stream : list Q) :
  0 <= delay -> 0 <= from -> 0 <= count ->
  from + count <= delay + Z.of_nat (length stream) ->
  Z.of_nat (length (delayedSlice delay from count stream)) = count.
Proof.
  intros Hd Hf Hc Hlen. unfold delayedSlice.
  rewrite length_take, length_drop, length_app, length_replicate. lia.
Qed.

Lemma vec_get_app_take (l1 l2 : list Q) (m : nat) (k : Z) :
  k < Z.of_nat (length l1) + Z.of_nat m ->
  vec_get (l1 ++ take m l2) k = vec_get (l1 ++ l2) k.
Proof.
  intros Hk. destruct (Z.lt_ge_cases k (Z.of_nat (length l1))).
  - by rewrite !vec_get_app_l by done.
  - rewrite !vec_get_app_r by done. apply vec_get_take. lia.
Qed.

(** One call: the frames of the block go through the ring, and the output
    is the next piece of the delayed stream. *)
Lemma delayFrames_stream (cfg : Config) (s : State) (hist inb outb : list Q)
    (frames n : Z) :
  configOk cfg -> 0 < channels cfg ->
  config s = cfg -> delayBufferSize s = delayLength cfg ->
  0 <= frames ->
  Z.of_nat (length inb) = frames * channels cfg ->
  Z.of_nat (length outb) = frames * channels cfg ->
  StreamInv cfg hist n (delayLoopInit s outb) ->
  let st := delayFrames s inb outb frames in
  StreamInv cfg (hist ++ inb) (n + frames) st
  /\ dl_output st
     = delayedSlice (delayInFrames cfg * channels cfg) (n * channels cfg)
         (frames * channels cfg) (hist ++ inb).
Proof.
  intros Hok HC Hcfg HL Hfr Hinb Houtb Hinit.
  pose proof (delayInFrames_bounds cfg Hok) as HD.
  set (C := channels cfg) in *.
  set (D := delayInFrames cfg) in *.
  assert (0 <= n /\ Z.of_nat (length hist) = n * C) as [Hn Hhist].
  { destruct Hinit as (? & ? & _). done. }
  pose (P := fun (k : Z) (st : DelayLoop) =>
    StreamInv cfg (hist ++ take (Z.to_nat (k * C)) inb) (n + k) st
    /\ length (dl_output st) = length outb
    /\ forall p : nat, Z.of_nat p < k * C ->
         dl_output st !! p
         = Some (if decide (n * C + Z.of_nat p < D * C) then 0%Q
                 else vec_get (hist ++ inb) (n * C + Z.of_nat p - D * C))).
  assert (P frames (delayFrames s inb outb frames)) as (Hinv & Hlen & Hout).
  { unfold delayFrames. apply for_loop_ind; [done| |].
    - split; [|split; [done|intros p Hp; lia]].
      rewrite Z.mul_0_l. simpl. by rewrite app_nil_r, Z.add_0_r.
    - intros k st Hk (Hinv & Hlen & Hout). rewrite Hcfg, HL.
      pose proof (delayFrame_stream cfg _ inb k (n + k) st Hok HC Hinv)
        as [Hinv' Hout'].
      cbv zeta in Hinv', Hout'. fold C D in Hinv', Hout'.
      assert ((hist ++ take (Z.to_nat (k * C)) inb)
                ++ ((fun ch => vec_get inb (k * C + ch)) <$> seqZ 0 C)
              = hist ++ take (Z.to_nat ((k + 1) * C)) inb) as Ehist.
      { rewrite frame_slice by nia. rewrite <- app_assoc, take_take_drop.
        do 2 f_equal. nia. }
      rewrite Ehist in Hinv', Hout'.
      split; [by replace (n + (k + 1)) with (n + k + 1) by lia|].
      rewrite Hout'. unfold for_loop. rewrite Z.sub_0_r.
      split; [by rewrite write_loop_length|].
      intros p Hp. destruct (decide (Z.of_nat p < k * C)) as [Hlt|Hge].
      + rewrite write_loop_lookup_other; [by apply Hout|].
        intros ch Hch. apply elem_of_seqZ in Hch. lia.
      + pose (ch := Z.of_nat p - k * C).
        assert (0 <= ch < C) as Hch by (unfold ch; nia).
        rewrite lookup_vec_get by (rewrite write_loop_length; nia).
        replace (Z.of_nat p) with (k * C + ch) at 1 by (unfold ch; lia).
        rewrite (write_loop_get_hit (fun ch => k * C + ch)).
        * f_equal. repeat case_decide; try nia; try done.
          rewrite vec_get_app_take by nia. f_equal. unfold ch. lia.
        * apply elem_of_seqZ. lia.
        * intros j _ Hj. lia.
        * nia. }
  split.
  - rewrite take_ge in Hinv by lia. done.
  - apply list_eq. intros p.
    rewrite delayedSlice_lookup by (rewrite ?length_app; nia).
    case_decide as Hp.
    + by apply Hout.
    + apply lookup_ge_None. lia.
Qed.

Lemma StreamInv_fields (cfg : Config) (hist : list Q) (n : Z)
    (st1 st2 : DelayLoop) :
  dl_buffer st1 = dl_buffer st2 -> dl_writePos st1 = dl_writePos st2 ->
  dl_readPos st1 = dl_readPos st2 ->
  dl_playbackStarted st1 = dl_playbackStarted st2 ->
  dl_wasPaused st1 = dl_wasPaused st2 ->
  StreamInv cfg hist n st1 -> StreamInv cfg hist n st2.
Proof. unfold StreamInv. by intros -> -> -> -> ->. Qed.

Lemma process_stream (cfg : Config) (s : State) (hist : list Q) (n : Z)
    (b : Block) :
  configOk cfg -> 0 < channels cfg ->
  config s = cfg -> delayBufferSize s = delayLength cfg ->
  blockOk cfg b ->
  StreamInv cfg hist n (delayLoopInit s []) ->
  let r := process (blk_input b) (blk_output b) (blk_frames b) s in
  config r.1 = cfg /\ delayBufferSize r.1 = delayLength cfg
  /\ StreamInv cfg (hist ++ blk_input b) (n + blk_frames b)
       (delayLoopInit r.1 [])
  /\ r.2 = delayedSlice (delayInFrames cfg * channels cfg) (n * channels cfg)
             (blk_frames b * channels cfg) (hist ++ blk_input b).
Proof.
  intros Hok HC Hcfg HL (Hfr & Hinb & Houtb) Hinit.
  destruct (delayFrames_stream cfg s hist (blk_input b) (blk_output b)
              (blk_frames b) n Hok HC Hcfg HL Hfr Hinb Houtb) as [Hinv Hout].
  { by apply (StreamInv_fields cfg hist n (delayLoopInit s [])). }
  cbv zeta. unfold process. destruct (accumulate _ _ _ _) as [ab wp].
  cbn [fst snd config delayBufferSize].
  split; [done|]. split; [done|]. split; [|done].
  by apply (StreamInv_fields cfg _ _
              (delayFrames s (blk_input b) (blk_output b) (blk_frames b))).
Qed.

Lemma length_vec_resize (v : list Q) (n : Z) :
  length (vec_resize v n) = Z.to_nat n.
Proof.
  unfold vec_resize. rewrite length_app, length_take, length_replicate. lia.
Qed.

(** A started engine holds an empty stream. *)
Lemma start_stream (cfg : Config) :
  configOk cfg ->
  StreamInv cfg [] 0 (delayLoopInit (start (initialize cfg constructed)) []).
Proof.
  intros Hok. pose proof (delayInFrames_bounds cfg Hok) as HD.
  unfold StreamInv. cbn [delayLoopInit start initialize constructed
    dl_wasPaused dl_writePos dl_playbackStarted dl_readPos dl_buffer
    delayBuffer delayWritePos delayReadPos playbackStarted wasPaused].
  split; [done|]. split; [simpl; lia|]. split; [done|].
  split; [by rewrite Z.mod_0_l by (fold (delayLength cfg); lia)|].
  split; [by rewrite bool_decide_false by lia|].
  split; [by rewrite decide_True by lia|].
  intros ch Hch. fold (delayLength cfg).
  exists (replicate (Z.to_nat (delayLength cfg)) 0%Q).
  split; [|split; [rewrite length_replicate; lia | intros j Hj; lia]].
  rewrite !list_lookup_fmap. simpl. rewrite Nat.sub_0_r, take_nil, app_nil_l.
  rewrite lookup_replicate_2 by lia. simpl. by rewrite length_vec_resize.
Qed.

Lemma delayedSlice_app (delay from a b : Z) (s1 s2 : list Q) :
  0 <= delay -> 0 <= from -> 0 <= a -> 0 <= b ->
  from + a <= delay + Z.of_nat (length s1) ->
  delayedSlice delay from a s1
    ++ delayedSlice delay (from + a) b (s1 ++ s2)
  = delayedSlice delay from (a + b) (s1 ++ s2).
Proof.
  intros Hd Hf Ha Hb Hlen. unfold delayedSlice.
  rewrite (Z2Nat.inj_add a b), (Z2Nat.inj_add from a) by lia.
  rewrite <- take_take_drop, drop_drop.
  f_equal. rewrite app_assoc.
  rewrite (drop_app_le (_ ++ s1) s2)
    by (rewrite length_app, length_replicate; lia).
  rewrite take_app_le; [done|].
  rewrite length_drop, length_app, length_replicate. lia.
Qed.

Lemma processAll_stream (cfg : Config) (blocks : list Block) :
  configOk cfg -> 0 < channels cfg -> Forall (blockOk cfg) blocks ->
  forall (s : State) (hist : list Q) (n : Z),
    config s = cfg -> delayBufferSize s = delayLength cfg ->
    StreamInv cfg hist n (delayLoopInit s []) ->
    (processAll s blocks).2
    = delayedSlice (delayInFrames cfg * channels cfg) (n * channels cfg)
        (Z.of_nat (length (concat (blk_input <$> blocks))))
        (hist ++ concat (blk_input <$> blocks)).
Proof.
  intros Hok HC Hall. pose proof (delayInFrames_bounds cfg Hok) as HD.
  induction Hall as [|b blocks Hb Hall IH]; intros s hist n Hcfg HL Hinv.
  - simpl. unfold delayedSlice. by rewrite take_0.
  - pose proof (process_stream cfg s hist n b Hok HC Hcfg HL Hb Hinv)
      as (Hcfg1 & HL1 & Hinv1 & Hout).
    cbv zeta in Hcfg1, HL1, Hinv1, Hout.
    cbn [processAll fmap list_fmap concat].
    destruct (process _ _ _ s) as [s1 out]. cbn [fst snd] in *.
    specialize (IH s1 _ _ Hcfg1 HL1 Hinv1).
    destruct (processAll s1 blocks) as [s2 outs]. cbn [snd] in *.
    destruct Hb as (Hfr & Hinb & _).
    destruct Hinv as (Hn & Hhist & _).
    rewrite Hout, IH. rewrite <- app_assoc.
    rewrite (app_assoc hist).
    replace ((n + blk_frames b) * channels cfg)
      with (n * channels cfg + blk_frames b * channels cfg) by lia.
    rewrite delayedSlice_app; try nia.
    + rewrite <- app_assoc. f_equal. rewrite length_app. lia.
    + rewrite length_app. nia.
Qed.

(** X1.  Without censoring the engine is a pure delay: over any run of
    calls of [process] on a started engine, whose buffers hold
    [frames * channels] samples, the outputs one after the other are the
    inputs one after the other behind [delayInFrames * channels] zeros,
    where [delayInFrames] is the initial delay in frames, rounded up.  No
    sample is lost, repeated or reordered, and playback never pauses. *)
Theorem process_is_pure_delay (cfg : Config) (blocks : list Block) :
  configOk cfg -> 0 < channels cfg -> Forall (blockOk cfg) blocks ->
  (processAll (start (initialize cfg constructed)) blocks).2
  = delayedBy cfg (concat (blk_input <$> blocks)).
Proof.
  intros Hok HC Hall.
  rewrite (processAll_stream cfg blocks Hok HC Hall _ [] 0);
    [done | done | done | by apply start_stream].
Qed.

Lemma process_is_pure_delay_witness :
  configOk tinyConfig /\ 0 < channels tinyConfig
  /\ Forall (blockOk tinyConfig) [threeFrames; threeFrames]
  /\ (processAll (start (initialize tinyConfig constructed))
        [threeFrames; threeFrames]).2
     = delayedBy tinyConfig (concat (blk_input <$> [threeFrames; threeFrames])).
Proof.
  assert (configOk tinyConfig) as Hok.
  { split; [simpl; lia | unfold Qle; simpl; lia]. }
  assert (Forall (blockOk tinyConfig) [threeFrames; threeFrames]) as Hall.
  { repeat constructor; simpl; lia. }
  split; [exact Hok|]. split; [simpl; lia|]. split; [exact Hall|].
  apply (process_is_pure_delay tinyConfig [threeFrames; threeFrames]);
    [exact Hok | simpl; lia | exact Hall].
Defined.

(** ** The capture buffer *)

(** The capture loop, sample by sample. *)
Lemma accumulate_lookup (cfg : Config) (inputBuffer : list Q) (frames : Z)
    (audioBuffer : list Q) (bufferWritePos : Z) :
  0 <= frames ->
  0 <= bufferWritePos <= Z.of_nat (length audioBuffer) ->
  let r := accumulate cfg inputBuffer frames (audioBuffer, bufferWritePos) in
  r.2 = Z.min (bufferWritePos + frames) (Z.of_nat (length audioBuffer))
  /\ length r.1 = length audioBuffer
  /\ forall p : nat,
       r.1 !! p
       = if decide (bufferWritePos <= Z.of_nat p < r.2)
         then Some (monoSample cfg inputBuffer (Z.of_nat p - bufferWritePos))
         else audioBuffer !! p.
Proof.
  intros Hfr Hwp. cbv zeta. unfold accumulate.
  set (len := Z.of_nat (length audioBuffer)) in *.
  pose (P := fun (k : Z) (acc : list Q * Z) =>
       acc.2 = Z.min (bufferWritePos + k) len
       /\ length acc.1 = length audioBuffer
       /\ forall p : nat,
            acc.1 !! p
            = if decide (bufferWritePos <= Z.of_nat p < acc.2)
              then Some (monoSample cfg inputBuffer
                           (Z.of_nat p - bufferWritePos))
              else audioBuffer !! p).
  apply (for_loop_ind P); [done| |]; unfold P.
  - simpl. split; [lia|]. split; [done|]. intros p.
    by rewrite decide_False by lia.
  - intros k [ab wp] Hk (Hwp' & Hlen & Hval). simpl in *.
    rewrite Hlen. fold len.
    destruct (Z.ltb_spec wp len) as [Hlt|Hge]; simpl.
    + split; [lia|]. split; [by rewrite length_vec_set|]. intros p.
      destruct (decide (Z.of_nat p = wp)) as [Hp|Hp].
      * rewrite <- Hp, <- (Nat2Z.id p) at 1.
        rewrite vec_set_lookup_eq by lia.
        rewrite decide_True by lia. do 2 f_equal. lia.
      * rewrite vec_set_lookup_ne by lia. rewrite Hval.
        repeat case_decide; try lia; done.
    + split; [lia|]. split; [done|]. intros p. rewrite Hval.
      repeat case_decide; try lia; done.
Qed.

(** X2.  "Accumulate audio for Whisper" appends to the capture buffer the
    mono downmix of the frames of the call, in order, as long as there is
    room: the write position ends at [min (wp + frames) size], and the
    buffer is then the samples before the old write position, the downmix
    of the frames that fit, and the old samples from the new write position
    on.  The frames that do not fit are dropped. *)
Theorem accumulate_appends (cfg : Config) (inputBuffer : list Q) (frames : Z)
    (audioBuffer : list Q) (bufferWritePos : Z) :
  0 <= frames ->
  0 <= bufferWritePos <= Z.of_nat (length audioBuffer) ->
  let r := accumulate cfg inputBuffer frames (audioBuffer, bufferWritePos) in
  r.2 = Z.min (bufferWritePos + frames) (Z.of_nat (length audioBuffer))
  /\ r.1 = take (Z.to_nat bufferWritePos) audioBuffer
             ++ (monoSample cfg inputBuffer <$> seqZ 0 (r.2 - bufferWritePos))
             ++ drop (Z.to_nat r.2) audioBuffer.
Proof.
  intros Hfr Hwp.
  destruct (accumulate_lookup cfg inputBuffer frames audioBuffer
              bufferWritePos Hfr Hwp) as (Hpos & Hlen & Hval).
  cbv zeta in *. split; [done|].
  set (r := accumulate cfg inputBuffer frames (audioBuffer, bufferWritePos))
    in *.
  apply list_eq. intros p. rewrite Hval.
  destruct (decide (Z.of_nat p < bufferWritePos)) as [Hlow|Hlow].
  - rewrite decide_False by lia.
    rewrite lookup_app_l by (rewrite length_take; lia).
    by rewrite lookup_take_lt by lia.
  - rewrite lookup_app_r by (rewrite length_take; lia).
    rewrite length_take.
    replace (length audioBuffer `min` Z.to_nat bufferWritePos)%nat
      with (Z.to_nat bufferWritePos) by lia.
    destruct (decide (Z.of_nat p < r.2)) as [Hmid|Hhigh].
    + rewrite decide_True by lia.
      rewrite lookup_app_l by (rewrite length_fmap, length_seqZ; lia).
      rewrite list_lookup_fmap, (lookup_seqZ_lt 0) by lia. simpl.
      do 2 f_equal. lia.
    + rewrite decide_False by lia.
      rewrite lookup_app_r by (rewrite length_fmap, length_seqZ; lia).
      rewrite length_fmap, length_seqZ, lookup_drop. f_equal. lia.
Qed.

Lemma accumulate_appends_witness :
  0 <= 3 /\ 0 <= 1 <= Z.of_nat (length (framesFrom 0 3))
  /\ (accumulate tinyConfig (framesFrom 5 3) 3 (framesFrom 0 3, 1)).2
     = Z.min (1 + 3) (Z.of_nat (length (framesFrom 0 3))).
Proof.
  split; [lia|]. split; [simpl; lia|].
  apply (accumulate_appends tinyConfig (framesFrom 5 3) 3 (framesFrom 0 3) 1);
    [lia | simpl; lia].
Defined.

(** ** The shape of the buffers *)

Lemma channel_loop_Forall (P : list Q -> Prop) (f : Z -> list Q -> list Q)
    (C : Z) (buf : list (list Q)) :
  (forall ch channel, P channel -> P (f ch channel)) ->
  Forall P buf ->
  Forall P (for_loop 0 C (fun ch buf => alter (f ch) (Z.to_nat ch) buf) buf).
Proof.
  intros Hf Hbuf. apply Forall_lookup. intros k channel.
  rewrite channel_loop_lookup. rewrite Forall_lookup in Hbuf.
  case_decide; [|by apply Hbuf].
  destruct (buf !! k) as [channel0|] eqn:E; [|done].
  intros [= <-]. apply Hf. by apply (Hbuf k).
Qed.

Lemma muteChannel_length (L cs a b : Z) (channel : list Q) :
  length (muteChannel L cs a b channel) = length channel.
Proof.
  unfold muteChannel, for_loop.
  apply (write_loop_length (fun i => c_mod (cs + i) L) (fun _ => 0%Q)).
Qed.

Lemma reverseChannel_length (gain : Z -> Z -> Z -> Q -> Q)
    (L cs a n fade : Z) (channel : list Q) :
  length (reverseChannel gain L cs a n fade channel) = length channel.
Proof.
  unfold reverseChannel, for_loop.
  apply (write_loop_length (fun i => c_mod (cs + a + i) L)).
Qed.

Lemma applyCensorship_shape (gain : Z -> Z -> Z -> Q -> Q) (s : State)
    (cs a b : Z) (l : Z) :
  Forall (fun channel => Z.of_nat (length channel) = l) (delayBuffer s) ->
  length (delayBuffer (applyCensorship gain s cs a b)) = length (delayBuffer s)
  /\ Forall (fun channel => Z.of_nat (length channel) = l)
       (delayBuffer (applyCensorship gain s cs a b)).
Proof.
  intros Hall. unfold applyCensorship. simpl.
  split; [apply channel_loop_length|].
  apply (channel_loop_Forall _ (fun _ => _)); [|done].
  intros _ channel <-.
  destruct (censorMode (config s));
    by rewrite ?muteChannel_length, ?reverseChannel_length.
Qed.

Lemma delayFrames_shape (s : State) (inputBuffer outputBuffer : list Q)
    (frames : Z) (l : Z) :
  Forall (fun channel => Z.of_nat (length channel) = l) (delayBuffer s) ->
  let st := delayFrames s inputBuffer outputBuffer frames in
  length (dl_buffer st) = length (delayBuffer s)
  /\ Forall (fun channel => Z.of_nat (length channel) = l) (dl_buffer st).
Proof.
  intros Hall. cbv zeta. unfold delayFrames.
  apply (for_loop_preserves
           (fun st => length (dl_buffer st) = length (delayBuffer s)
                      /\ Forall (fun channel => Z.of_nat (length channel) = l)
                           (dl_buffer st))); [|done].
  intros i st _ [Hlen Hall']. unfold delayFrame.
  destruct (gate _ _ _ _) as [[canPlay started] paused]. cbn [dl_buffer].
  split; [by rewrite channel_loop_length|].
  apply (channel_loop_Forall _
           (fun ch channel =>
              vec_set channel (dl_writePos st)
                (vec_get inputBuffer (i * channels (config s) + ch))));
    [|done].
  intros ch channel <-. by rewrite length_vec_set.
Qed.

Lemma accumulate_bounds (cfg : Config) (inputBuffer : list Q) (frames : Z)
    (audioBuffer : list Q) (bufferWritePos : Z) :
  0 <= bufferWritePos <= Z.of_nat (length audioBuffer) ->
  let r := accumulate cfg inputBuffer frames (audioBuffer, bufferWritePos) in
  length r.1 = length audioBuffer /\ 0 <= r.2 <= Z.of_nat (length r.1).
Proof.
  intros Hwp. cbv zeta. unfold accumulate.
  apply (for_loop_preserves
           (fun acc : list Q * Z =>
              length acc.1 = length audioBuffer
              /\ 0 <= acc.2 <= Z.of_nat (length acc.1))); [|done].
  intros i [ab wp] _ [Hlen Hb]. simpl in *.
  destruct (Z.ltb_spec wp (Z.of_nat (length ab))); simpl;
    rewrite ?length_vec_set; split; (done || lia).
Qed.

Lemma reachable_sizes (cfg : Config) (s : State) :
  reachable cfg s ->
  length (delayBuffer s) = Z.to_nat (channels cfg)
  /\ Forall (fun channel => Z.of_nat (length channel)
                            = Z.of_nat (Z.to_nat (delayLength cfg)))
       (delayBuffer s)
  /\ length (audioBuffer s) = Z.to_nat (chunkFrames cfg)
  /\ length (processingBuffer s) = Z.to_nat (chunkFrames cfg)
  /\ 0 <= bufferWritePos s <= Z.of_nat (length (audioBuffer s)).
Proof.
  intros Hreach.
  induction Hreach as [|s inb outb frames _ (Hn & Hall & Hab & Hpb & Hwp)
                       |s s' chunk t _ IH Htake
                       |s toSample c words t _ IH].
  - cbn [start initialize constructed delayBuffer audioBuffer
         processingBuffer bufferWritePos].
    fold (delayLength cfg) (chunkFrames cfg).
    rewrite !length_fmap, length_app, length_take, length_replicate.
    rewrite !length_vec_resize. simpl.
    split; [lia|]. split; [|split; [done|split; [done|lia]]].
    apply Forall_fmap, Forall_fmap, Forall_forall. intros channel _. simpl.
    by rewrite length_replicate, length_vec_resize.
  - pose proof (delayFrames_shape s inb outb frames _ Hall) as [Hn' Hall'].
    pose proof (accumulate_bounds (config s) inb frames _ _ Hwp) as [Hab' Hwp'].
    cbv zeta in Hn', Hall', Hab', Hwp'. unfold process.
    destruct (accumulate _ _ _ _) as [ab1 wp1].
    cbn [fst snd delayBuffer audioBuffer processingBuffer bufferWritePos] in *.
    split; [congruence|]. split; [done|]. split; [congruence|].
    split; [|destruct (_ && _); lia].
    destruct (_ && _); [|done].
    rewrite length_app, length_take, length_drop. lia.
  - unfold whisperTake in Htake. destruct (hasNewBuffer s); [|done].
    by injection Htake as <- _ _.
  - unfold censorTranscription.
    apply (censorLoop_preserves toSample c
             (fun s' =>
                length (delayBuffer s') = Z.to_nat (channels cfg)
                /\ Forall (fun channel => Z.of_nat (length channel)
                                          = Z.of_nat (Z.to_nat (delayLength cfg)))
                     (delayBuffer s')
                /\ length (audioBuffer s') = Z.to_nat (chunkFrames cfg)
                /\ length (processingBuffer s') = Z.to_nat (chunkFrames cfg)
                /\ 0 <= bufferWritePos s' <= Z.of_nat (length (audioBuffer s'))));
      [| |done].
    + intros w s' (Hn & Hall & Hrest). unfold censorSingle.
      destruct (hitSpan _ _ _ _) as [a b].
      match goal with
      | |- context [applyCensorship ?g ?s0 ?cs ?a ?b] =>
          destruct (applyCensorship_shape g s0 cs a b _ Hall) as [Hn' Hall']
      end.
      split; [by rewrite Hn'|]. split; [done|]. exact Hrest.
    + intros w w2 s' (Hn & Hall & Hrest). unfold censorBigram.
      destruct (hitSpan _ _ _ _) as [a b].
      match goal with
      | |- context [applyCensorship ?g ?s0 ?cs ?a ?b] =>
          destruct (applyCensorship_shape g s0 cs a b _ Hall) as [Hn' Hall']
      end.
      split; [by rewrite Hn'|]. split; [done|]. exact Hrest.
Qed.

(** X3.  In every run of the engine (calls of [process], pick-ups by the
    worker and runs of the censor after [initialize] and [start]) the
    buffers keep the sizes [initialize] gave them: the delay line has
    [channels] channels of [delayLength] samples, the capture and the
    processing buffer have [chunkFrames] samples, the capture position is
    within the capture buffer and the read and write positions are within
    the delay line. *)
Theorem reachable_shape (cfg : Config) (s : State) :
  configOk cfg -> reachable cfg s -> shapeOk cfg s.
Proof.
  intros Hok Hreach.
  destruct (reachable_inv cfg s Hok Hreach) as (_ & _ & Hinv).
  destruct (Hinv []) as (_ & HW & HR & _).
  destruct (reachable_sizes cfg s Hreach) as (Hn & Hall & Hab & Hpb & Hwp).
  pose proof (delayLength_room cfg Hok) as [_ HL].
  unfold shapeOk. rewrite Z2Nat.id in Hall by lia. done.
Qed.

Lemma reachable_shape_witness :
  configOk tinyConfig
  /\ reachable tinyConfig
       (process (framesFrom 1 3) (framesFrom 0 3) 3
          (start (initialize tinyConfig constructed))).1
  /\ shapeOk tinyConfig
       (process (framesFrom 1 3) (framesFrom 0 3) 3
          (start (initialize tinyConfig constructed))).1.
Proof.
  assert (configOk tinyConfig) as Hok.
  { split; [simpl; lia | unfold Qle; simpl; lia]. }
  assert (reachable tinyConfig
            (process (framesFrom 1 3) (framesFrom 0 3) 3
               (start (initialize tinyConfig constructed))).1) as Hreach.
  { apply reach_process, reach_start. }
  split; [exact Hok|]. split; [exact Hreach|].
  apply (reachable_shape tinyConfig _ Hok Hreach).
Defined.

(** ** The pending chunk *)

Lemma process_pending (inputBuffer outputBuffer : list Q) (frames : Z)
    (s : State) :
  hasNewBuffer s = true ->
  let s' := (process inputBuffer outputBuffer frames s).1 in
  hasNewBuffer s' = true
  /\ processingBuffer s' = processingBuffer s
  /\ bufferCaptureTime s' = bufferCaptureTime s.
Proof.
  intros Hp. cbv zeta. unfold process.
  destruct (accumulate _ _ _ _) as [ab wp]. simpl.
  by rewrite Hp, !andb_false_r.
Qed.

(** X4.  A chunk that was handed over and is not yet picked up survives
    any number of calls of [process]: the calls leave the processing
    buffer and the capture time as they are, however many chunks become
    due in the meantime, and the worker's next pick-up takes exactly the
    chunk that was handed over. *)
Theorem pending_chunk_kept (s : State) (blocks : list Block) :
  hasNewBuffer s = true ->
  takenChunk (processAll s blocks).1
  = Some (processingBuffer s, bufferCaptureTime s).
Proof.
  revert s. induction blocks as [|b blocks IH]; intros s Hp.
  - unfold takenChunk, whisperTake. simpl. by rewrite Hp.
  - pose proof (process_pending (blk_input b) (blk_output b) (blk_frames b)
                  s Hp) as (Hp' & Hpb & Hct).
    cbv zeta in Hp', Hpb, Hct. cbn [processAll].
    destruct (process _ _ _ s) as [s1 out]. cbn [fst] in *.
    specialize (IH s1 Hp'). destruct (processAll s1 blocks) as [s2 outs].
    cbn [fst] in *. by rewrite IH, Hpb, Hct.
Qed.

Lemma pending_chunk_kept_witness :
  hasNewBuffer pendingEngine = true
  /\ takenChunk (processAll pendingEngine [threeFrames; threeFrames]).1
     = Some (processingBuffer pendingEngine, bufferCaptureTime pendingEngine).
Proof.
  split; [reflexivity|].
  apply (pending_chunk_kept pendingEngine [threeFrames; threeFrames]).
  reflexivity.
Defined.

(** ** Detections *)

Lemma applyHit_frame (toSample : SampleCast) (cs : Z) (acc : State * list string) (h : Hit) :
  let r := applyHit toSample cs acc h in
  r.1 = set_profanityCount (set_delayBuffer acc.1 (delayBuffer r.1))
          (profanityCount acc.1 + 1)
  /\ length r.2 = S (length acc.2).
Proof.
  cbv zeta. destruct h as [idx w|idx w w2]; cbn [applyHit fst snd];
    unfold censorSingle, censorBigram;
    destruct (hitSpan _ _ _ _) as [a b];
    (split; [reflexivity | rewrite length_app; simpl; lia]).
Qed.

Lemma foldl_applyHit_frame (toSample : SampleCast) (cs : Z) (hits : list Hit) :
  forall acc : State * list string,
    let r := foldl (applyHit toSample cs) acc hits in
    r.1 = set_profanityCount (set_delayBuffer acc.1 (delayBuffer r.1))
            (profanityCount acc.1 + Z.of_nat (length hits))
    /\ length r.2 = (length acc.2 + length hits)%nat.
Proof.
  induction hits as [|h hits IH]; intros acc; cbv zeta.
  - simpl. split; [|lia]. rewrite Z.add_0_r. by destruct acc as [[] ?].
  - cbn [foldl]. destruct (IH (applyHit toSample cs acc h)) as [E1 E2].
    destruct (applyHit_frame toSample cs acc h) as [E3 E4].
    cbv zeta in E1, E2, E3, E4. split; [|rewrite E2, E4; cbn [length]; lia].
    remember (foldl (applyHit toSample cs) (applyHit toSample cs acc h) hits).1 as X eqn:EX.
    remember (applyHit toSample cs acc h).1 as Y eqn:EY. clear EX EY E2 E4 IH.
    destruct acc as [s0 l0]. cbn [fst] in *.
    unfold set_profanityCount, set_delayBuffer in *.
    destruct X, Y, s0. simpl in *.
    injection E1. injection E3. intros. subst. f_equal. lia.
Qed.

(** X5.  A run of the censor changes nothing of the engine but the
    samples of the delay line and the counter of detections, and the
    counter grows by exactly the number of words and word pairs reported
    as detected. *)
Theorem censor_counts_detections (toSample : SampleCast)
    (containsProfanity : string -> bool)
    (transcribedWords : list WordSegment) (captureTime : Q) (s : State) :
  let r := censorTranscription toSample containsProfanity transcribedWords captureTime s in
  r.1 = set_profanityCount (set_delayBuffer s (delayBuffer r.1))
          (profanityCount s + Z.of_nat (length r.2)).
Proof.
  cbv zeta. unfold censorTranscription.
  rewrite (censorLoop_scanHits toSample containsProfanity _ _ 0%nat).
  match goal with
  | |- context [foldl (applyHit toSample ?cs) ?acc ?hits] =>
      destruct (foldl_applyHit_frame toSample cs hits acc) as [E1 E2]
  end.
  cbv zeta in E1, E2. rewrite E2. exact E1.
Qed.

Local Arguments censorLoop : simpl never.

(** X6.  A transcript in which no word and no pair of neighbouring words
    is in the lexicon leaves the engine exactly as it was, and nothing is
    reported as detected. *)
Theorem clean_transcript_untouched (toSample : SampleCast)
    (containsProfanity : string -> bool)
    (transcribedWords : list WordSegment) (captureTime : Q) (s : State) :
  noMatch containsProfanity transcribedWords ->
  censorTranscription toSample containsProfanity transcribedWords captureTime s
  = (s, []).
Proof.
  intros Hno. unfold censorTranscription.
  generalize (c_mod (to_int captureTime - sampleRate (config s) * 5
                     + delayBufferSize s) (delayBufferSize s)) as cs.
  intros cs. generalize (s, @nil string) as acc. revert Hno.
  induction transcribedWords as [|w rest IH]; intros Hno acc; [done|].
  destruct Hno as (Hw & Hpair & Hrest).
  rewrite censorLoop_cons. cbv zeta. rewrite Hw.
  destruct rest as [|w2 rest]; [by apply IH|].
  rewrite Hpair. by apply IH.
Qed.

Lemma clean_transcript_untouched_witness :
  noMatch demoLexicon [mkWordSegment "holy" 0 1 1; mkWordSegment "day" 1 2 1]
  /\ censorTranscription exactCast demoLexicon
       [mkWordSegment "holy" 0 1 1; mkWordSegment "day" 1 2 1] 6
       demoChunkState
     = (demoChunkState, []).
Proof.
  assert (noMatch demoLexicon
            [mkWordSegment "holy" 0 1 1; mkWordSegment "day" 1 2 1]) as Hno.
  { simpl. split; [reflexivity|]. split; [reflexivity|].
    split; [reflexivity|]. split; [exact I | exact I]. }
  split; [exact Hno|].
  apply (clean_transcript_untouched exactCast demoLexicon _ 6 demoChunkState Hno).
Defined.

(** ** Muted words *)




Section MuteRun.

Variables (toSample : SampleCast) (cfg : Config) (cs : Z).

Hypothesis Hmute : censorMode cfg = Mute.
Hypothesis Hcs : 0 <= cs.
Hypothesis HF : 0 <= sampleRate cfg.
Hypothesis HL : sampleRate cfg * 5 <= delayLength cfg.
Hypothesis HL0 : 0 < delayLength cfg.






End MuteRun.



(** ** The span of a hit *)

Lemma to_int_nonpos (x : Q) : (x <= 0)%Q -> to_int x <= 0.
Proof.
  destruct x as [n d]. unfold Qle, to_int. simpl. intros Hn.
  replace n with (- - n) by lia. rewrite Z.quot_opp_l by lia.
  pose proof (Z.quot_pos (- n) (Z.pos d) ltac:(lia) ltac:(lia)). lia.
Qed.

(** Truncation against an integer bound that is not negative. *)
Lemma to_int_le_iff (x : Q) (n : Z) :
  0 <= n -> to_int x <= n <-> (x < inject_Z n + 1)%Q.
Proof.
  intros Hn.
  assert (0 <= inject_Z n)%Q as Hnq.
  { change 0%Q with (inject_Z 0). by rewrite <- Zle_Qle. }
  destruct (Qlt_le_dec x 0) as [Hneg|Hpos].
  - pose proof (to_int_nonpos x ltac:(lra)). split; [lra | lia].
  - destruct (to_int_floor x Hpos) as [Hlo Hhi]. split; intros H.
    + rewrite Zle_Qle in H. lra.
    + assert (to_int x < n + 1); [|lia].
      rewrite Zlt_Qlt, inject_Z_plus. change (inject_Z 1) with 1%Q. lra.
Qed.

Lemma to_int_gt_iff (x : Q) (n : Z) :
  0 <= n -> n < to_int x <-> (inject_Z n + 1 <= x)%Q.
Proof.
  intros Hn. pose proof (to_int_le_iff x n Hn) as H.
  split; intros H'.
  - apply Qnot_lt_le. intros Hlt. apply H in Hlt. lia.
  - apply Z.nle_gt. intros Hle. apply H in Hle. lra.
Qed.

Lemma exactCast_within (eps : Q) : (0 <= eps)%Q -> castWithin eps exactCast.
Proof.
  intros Heps seconds rate. exists (seconds * inject_Z rate)%Q.
  split; [|reflexivity].
  apply Qabs_Qle_condition. split; lra.
Qed.

(** X8.  The span of a hit is the frames of the chunk that lie within the
    word with its padding, up to the rounding of the casts.  When the two
    products that are cast are rounded by at most [eps]: a frame [i] of
    the chunk, [0 <= i < 5 * F], with
    [(wordStart - 0.4) * F + eps < i + 1] and
    [i + 1 + eps <= (wordEnd + 0.1) * F] is in the span; and a frame in
    the span is a frame of the chunk with
    [(wordStart - 0.4) * F - eps < i + 1] and
    [i + 1 - eps <= (wordEnd + 0.1) * F].  So the frames of the chunk
    between the start and the end of the word are patched, with 0.4 s
    before them and 0.1 s after them, and only the frames at the two ends
    of the span depend on the rounding. *)
Theorem hitSpan_frames (toSample : SampleCast) (eps : Q) (cfg : Config)
    (wordStart wordEnd : Q) (i : Z) :
  0 <= sampleRate cfg ->
  castWithin eps toSample ->
  let F := inject_Z (sampleRate cfg) in
  let startSample := (hitSpan toSample cfg wordStart wordEnd).1 in
  let endSample := (hitSpan toSample cfg wordStart wordEnd).2 in
  (0 <= i < sampleRate cfg * 5 ->
   ((wordStart - (4 # 10)) * F + eps < inject_Z i + 1)%Q ->
   (inject_Z i + 1 + eps <= (wordEnd + (1 # 10)) * F)%Q ->
   startSample <= i < endSample)
  /\ (startSample <= i < endSample ->
      0 <= i < sampleRate cfg * 5
      /\ ((wordStart - (4 # 10)) * F - eps < inject_Z i + 1)%Q
      /\ (inject_Z i + 1 - eps <= (wordEnd + (1 # 10)) * F)%Q).
Proof.
  intros HF Hcast F startSample endSample.
  subst startSample endSample. unfold hitSpan. cbn [fst snd].
  destruct (Hcast (wordStart - (4 # 10))%Q (sampleRate cfg))
    as (p & Hp & ->).
  destruct (Hcast (wordEnd + (1 # 10))%Q (sampleRate cfg))
    as (q & Hq & ->).
  apply Qabs_Qle_condition in Hp, Hq. fold F in Hp, Hq.
  split.
  - intros Hi Hs He.
    assert (to_int p <= i) by (apply to_int_le_iff; [lia | lra]).
    assert (i < to_int q) by (apply to_int_gt_iff; [lia | lra]).
    lia.
  - intros [Hs He].
    assert (0 <= i < sampleRate cfg * 5 /\ to_int p <= i /\ i < to_int q)
      as (Hi & Hs0 & He0) by lia.
    apply to_int_le_iff in Hs0; [|lia]. apply to_int_gt_iff in He0; [|lia].
    split; [done|]. split; lra.
Qed.

Lemma hitSpan_frames_witness :
  0 <= sampleRate tinyConfig
  /\ castWithin (1 # 1000) exactCast
  /\ (0 <= 2 < sampleRate tinyConfig * 5 ->
      ((1 - (4 # 10)) * inject_Z (sampleRate tinyConfig) + (1 # 1000)
       < inject_Z 2 + 1)%Q ->
      (inject_Z 2 + 1 + (1 # 1000)
       <= (2 + (1 # 10)) * inject_Z (sampleRate tinyConfig))%Q ->
      (hitSpan exactCast tinyConfig 1 2).1 <= 2
      < (hitSpan exactCast tinyConfig 1 2).2).
Proof.
  assert (castWithin (1 # 1000) exactCast) as Hcast.
  { apply exactCast_within. unfold Qle. simpl. lia. }
  split; [simpl; lia|]. split; [exact Hcast|].
  apply (hitSpan_frames exactCast (1 # 1000) tinyConfig 1 2 2);
    [simpl; lia | exact Hcast].
Defined.

(** ** Word timing along a segment *)

Lemma fmax_mono (a b c d : Q) :
  (a <= c)%Q -> (b <= d)%Q -> (fmax a b <= fmax c d)%Q.
Proof.
  intros H1 H2.
  pose proof (fmax_bounds a b) as (_ & _ & Hab).
  pose proof (fmax_bounds c d) as (Hc & Hd & _).
  destruct Hab; lra.
Qed.

Lemma fmin_mono (a b c d : Q) :
  (a <= c)%Q -> (b <= d)%Q -> (fmin a b <= fmin c d)%Q.
Proof.
  intros H1 H2.
  pose proof (fmin_bounds a b) as (Ha & Hb & _).
  pose proof (fmin_bounds c d) as (_ & _ & Hcd).
  destruct Hcd; lra.
Qed.

Lemma distributeWords_lookup (segmentStart segmentEnd : Z)
    (segmentWords : list string) (k : nat) (seg : WordSegment) :
  distributeWords segmentStart segmentEnd segmentWords !! k = Some seg ->
  let segStartSec := (inject_Z segmentStart * (1 # 100))%Q in
  let segEndSec := (inject_Z segmentEnd * (1 # 100))%Q in
  let wordDuration :=
    ((segEndSec - segStartSec) / inject_Z (Z.of_nat (length segmentWords)))%Q in
  let wordStart := (segStartSec + inject_Z (Z.of_nat k) * wordDuration)%Q in
  (k < length segmentWords)%nat
  /\ LyricsAlignment.start seg = fmax 0 (fmin 5 wordStart)
  /\ end_ seg = fmax (fmax 0 (fmin 5 wordStart) + (5 # 100))%Q
                  (fmin 5 (wordStart + wordDuration)%Q).
Proof.
  intros Hseg. cbv zeta. unfold distributeWords in Hseg.
  destruct segmentWords as [|w0 ws]; [done|].
  rewrite list_lookup_imap in Hseg.
  destruct ((w0 :: ws) !! k) as [w|] eqn:E; [|done].
  apply lookup_lt_Some in E. simpl in Hseg. injection Hseg as <-. done.
Qed.

(** X9.  The words of a segment that does not end before it starts come
    out in order of time: the segment yields one timed word per word, a
    later word neither starts nor ends before an earlier one, and a word
    ends where the next one starts unless the minimum duration of 0.05 s
    carries it further. *)
Theorem words_in_order (segmentStart segmentEnd : Z)
    (segmentWords : list string) (k k' : nat) (seg seg' : WordSegment) :
  segmentStart <= segmentEnd ->
  (k <= k')%nat ->
  distributeWords segmentStart segmentEnd segmentWords !! k = Some seg ->
  distributeWords segmentStart segmentEnd segmentWords !! k' = Some seg' ->
  length (distributeWords segmentStart segmentEnd segmentWords)
  = length segmentWords
  /\ (LyricsAlignment.start seg <= LyricsAlignment.start seg')%Q
  /\ (end_ seg <= end_ seg')%Q
  /\ (k' = S k ->
      (end_ seg <= fmax (LyricsAlignment.start seg + (5 # 100))
                     (LyricsAlignment.start seg'))%Q).
Proof.
  intros Hse Hk Hseg Hseg'.
  destruct (distributeWords_lookup _ _ _ _ _ Hseg) as (Hlt & Hs & He).
  destruct (distributeWords_lookup _ _ _ _ _ Hseg') as (Hlt' & Hs' & He').
  split.
  { unfold distributeWords. destruct segmentWords; [done|].
    by rewrite length_imap. }
  rewrite Hs, He, Hs', He'.
  set (t0 := (inject_Z segmentStart * (1 # 100))%Q).
  set (t1 := (inject_Z segmentEnd * (1 # 100))%Q).
  set (d := ((t1 - t0) / inject_Z (Z.of_nat (length segmentWords)))%Q).
  assert (0 < inject_Z (Z.of_nat (length segmentWords)))%Q as Hn.
  { apply inject_Z_pos. lia. }
  assert (0 <= d)%Q as Hd.
  { unfold d. apply Qle_shift_div_l; [done|].
    assert (t0 <= t1)%Q; [|lra]. unfold t0, t1.
    rewrite Zle_Qle in Hse. lra. }
  assert (inject_Z (Z.of_nat k) <= inject_Z (Z.of_nat k'))%Q as Hkq.
  { rewrite <- Zle_Qle. lia. }
  assert (t0 + inject_Z (Z.of_nat k) * d
          <= t0 + inject_Z (Z.of_nat k') * d)%Q as Hmono by nra.
  assert (fmax 0 (fmin 5 (t0 + inject_Z (Z.of_nat k) * d))
          <= fmax 0 (fmin 5 (t0 + inject_Z (Z.of_nat k') * d)))%Q as Hstart.
  { apply fmax_mono; [lra|]. apply fmin_mono; [lra | done]. }
  split; [done|]. split.
  - apply fmax_mono; [lra|]. apply fmin_mono; [lra | lra].
  - intros ->. apply fmax_mono; [lra|].
    assert (t0 + inject_Z (Z.of_nat k) * d + d
            == t0 + inject_Z (Z.of_nat (S k)) * d)%Q as E.
    { rewrite Nat2Z.inj_succ, <- Z.add_1_r, inject_Z_plus.
      change (inject_Z 1) with 1%Q. ring. }
    pose proof (fmax_bounds 0 (fmin 5 (t0 + inject_Z (Z.of_nat (S k)) * d)))
      as (_ & Hb & _).
    pose proof (fmin_mono 5 (t0 + inject_Z (Z.of_nat k) * d + d) 5
                  (t0 + inject_Z (Z.of_nat (S k)) * d)) as Hm.
    lra.
Qed.

Lemma words_in_order_witness :
  100 <= 200 /\ (0 <= 1)%nat
  /\ distributeWords 100 200 ["hello"; "world"]%string !! 0%nat
     = Some demoFirstWord
  /\ distributeWords 100 200 ["hello"; "world"]%string !! 1%nat
     = Some demoWord
  /\ (LyricsAlignment.start demoFirstWord <= LyricsAlignment.start demoWord)%Q.
Proof.
  split; [lia|]. split; [lia|]. split; [reflexivity|]. split; [reflexivity|].
  apply (words_in_order 100 200 ["hello"; "world"]%string 0 1
           demoFirstWord demoWord); [lia | lia | reflexivity | reflexivity].
Defined.

(** ** The text of an alignment *)

Lemma str_get_seqZ (v : list string) :
  str_get v <$> seqZ 0 (Z.of_nat (length v)) = v.
Proof.
  apply list_eq. intros k. rewrite list_lookup_fmap.
  destruct (decide (k < length v)%nat) as [Hk|Hk].
  - rewrite (lookup_seqZ_lt 0 _ k) by lia. simpl. unfold str_get.
    destruct (Z.leb_spec 0 (0 + Z.of_nat k)); [|lia].
    replace (Z.to_nat (0 + Z.of_nat k)) with k by lia.
    by destruct (lookup_lt_is_Some_2 v k Hk) as [x ->].
  - rewrite (lookup_seqZ_ge 0 _ k) by lia. simpl. symmetry.
    apply lookup_ge_None. lia.
Qed.

(** The words that a script emits are the lyric words it goes through. *)
Lemma script_words (lyricsWords : list string)
    (originalSegments : list WordSegment) (i j : Z) (ops : list EditOp) :
  Script i j ops ->
  word <$> foldl (emitOp lyricsWords originalSegments) [] ops
  = str_get lyricsWords <$> seqZ 0 j.
Proof.
  induction 1 as [|i j ops Hs IH|i j ops Hs IH|i j ops Hs IH]; [done|..];
    pose proof (Script_in_range _ _ _ Hs) as (Hi & Hj & _);
    rewrite foldl_snoc; cbn [emitOp]; [| |done];
    rewrite fmap_app, IH;
    rewrite (seqZ_app 0 j 1), fmap_app by lia; done.
Qed.

(** The alignment with enough fuel, as a script. *)
Lemma backtrackAlignment_script (transcribedWords lyricsWords : list string)
    (originalSegments : list WordSegment) :
  exists ops,
    Script (Z.of_nat (length transcribedWords))
      (Z.of_nat (length lyricsWords)) ops
    /\ backtrackAlignment (length transcribedWords + length lyricsWords)
         (calculateEditDistance transcribedWords lyricsWords)
         transcribedWords lyricsWords originalSegments
       = Some (foldl (emitOp lyricsWords originalSegments) [] ops).
Proof.
  destruct (backtrackLoop_script
              (calculateEditDistance transcribedWords lyricsWords)
              transcribedWords lyricsWords (Z.of_nat (length lyricsWords)))
    with (fuel := (length transcribedWords + length lyricsWords)%nat)
         (i := Z.of_nat (length transcribedWords))
         (j := Z.of_nat (length lyricsWords))
         (alignments := @nil (Z * Z))
    as (back & Hloop & Hscript); [|lia..|].
  { intros j Hj. rewrite !calculateEditDistance_row0 by lia. lia. }
  exists (reverse back). split; [done|].
  unfold backtrackAlignment. rewrite Hloop. simpl. f_equal.
  rewrite <- omap_reverse. apply emitSegment_emitOp.
  by apply Script_in_range in Hscript as (_ & _ & ?).
Qed.

(** X10.  The corrected transcript reads as the lyrics: when neither the
    transcription nor the word list of the lyrics is empty, the alignment
    returns, and the texts of the segments it returns are exactly the
    normalised words of the lyrics, in order, whatever was transcribed. *)
Theorem aligned_text_is_lyrics (transcribedWords : list WordSegment)
    (lyrics : string) :
  transcribedWords ≠ [] -> splitIntoWords lyrics ≠ [] ->
  exists segments,
    alignLyricsToTranscription
      (length transcribedWords + length (splitIntoWords lyrics))
      transcribedWords lyrics
    = Some segments
    /\ word <$> segments = splitIntoWords lyrics.
Proof.
  intros Htw Hlw. unfold alignLyricsToTranscription.
  destruct lyrics as [|c lyrics]; [done|].
  destruct transcribedWords as [|seg tw]; [done|].
  remember (seg :: tw) as segs eqn:Esegs.
  remember (splitIntoWords (String c lyrics)) as lw eqn:Elw.
  destruct lw as [|w lw]; [done|].
  destruct (backtrackAlignment_script
              (map (fun seg => normalizeText (word seg)) segs) (w :: lw) segs)
    as (ops & Hscript & Hrun).
  rewrite length_map in Hrun.
  exists (foldl (emitOp (w :: lw) segs) [] ops). split; [exact Hrun|].
  rewrite (script_words _ _ _ _ _ Hscript). apply str_get_seqZ.
Qed.

Lemma aligned_text_is_lyrics_witness :
  [mkWordSegment "a" 0 1 1; mkWordSegment "b" 1 2 1] ≠ []
  /\ splitIntoWords "A x, c d" ≠ []
  /\ exists segments,
       alignLyricsToTranscription
         (length [mkWordSegment "a" 0 1 1; mkWordSegment "b" 1 2 1]
          + length (splitIntoWords "A x, c d"))
         [mkWordSegment "a" 0 1 1; mkWordSegment "b" 1 2 1] "A x, c d"
       = Some segments
       /\ word <$> segments = splitIntoWords "A x, c d".
Proof.
  split; [discriminate|]. split; [vm_compute; discriminate|].
  apply (aligned_text_is_lyrics
           [mkWordSegment "a" 0 1 1; mkWordSegment "b" 1 2 1] "A x, c d");
    [discriminate | vm_compute; discriminate].
Defined.

(** ** Lyrics without words, transcriptions without segments *)

Lemma no_words_without_alnum (cs : list ascii) :
  Forall (fun c => isalnum c = false) cs ->
  extractWords
    (List.filter (fun c => negb (negb (isalnum c) && negb (isspace c)))
       (map tolower cs)) []
  = [].
Proof.
  induction 1 as [|c cs Hc _ IH]; [done|].
  assert (tolower c = c) as Hlow.
  { unfold tolower, isalnum in *.
    destruct ((65 <=? code c) && (code c <=? 90))%nat; [|done].
    by rewrite orb_true_r in Hc. }
  cbn [map List.filter]. rewrite Hlow, Hc. cbn [negb andb].
  destruct (isspace c) eqn:Hsp; cbn [negb]; [|done].
  cbn [extractWords]. by rewrite Hsp.
Qed.

Lemma splitIntoWords_without_alnum (text : string) :
  Forall (fun c => isalnum c = false) (list_ascii_of_string text) ->
  splitIntoWords text = [].
Proof.
  intros Hall. unfold splitIntoWords, normalizeText.
  by rewrite no_words_without_alnum.
Qed.

(** X11.  Without anything to align the transcription comes back as it
    is, for every amount of fuel: when there is no transcribed segment,
    and when the lyrics hold no letter and no digit (the empty lyrics
    among them). *)
Theorem nothing_to_align (fuel : nat) (transcribedWords : list WordSegment)
    (lyrics : string) :
  transcribedWords = []
  \/ Forall (fun c => isalnum c = false) (list_ascii_of_string lyrics) ->
  alignLyricsToTranscription fuel transcribedWords lyrics
  = Some transcribedWords.
Proof.
  intros [->|Hall]; unfold alignLyricsToTranscription.
  - by destruct lyrics.
  - rewrite (splitIntoWords_without_alnum lyrics Hall).
    destruct lyrics; [done|]. by destruct transcribedWords.
Qed.

Lemma nothing_to_align_witness :
  ([mkWordSegment "a" 0 1 1] = []
   \/ Forall (fun c => isalnum c = false) (list_ascii_of_string "?! ..."))
  /\ alignLyricsToTranscription 0 [mkWordSegment "a" 0 1 1] "?! ..."
     = Some [mkWordSegment "a" 0 1 1].
Proof.
  assert (Forall (fun c => isalnum c = false) (list_ascii_of_string "?! ..."))
    as Hall.
  { simpl. repeat constructor. }
  split; [right; exact Hall|].
  apply (nothing_to_align 0 [mkWordSegment "a" 0 1 1] "?! ..."). right.
  exact Hall.
Defined.

(** ** A transcription that matches the lyrics *)

Lemma backtrackLoop_diagonal (matrix : list (list Z)) (words : list string) :
  forall (fuel : nat) (i : Z) (alignments : list (Z * Z)),
    0 <= i <= Z.of_nat fuel ->
    backtrackLoop fuel matrix words words i i alignments
    = Some (alignments ++ ((fun k => (k, k)) <$> reverse (seqZ 0 i))).
Proof.
  induction fuel as [|fuel IH]; intros i alignments Hi.
  - assert (i = 0) as -> by lia. simpl. by rewrite app_nil_r.
  - cbn [backtrackLoop]. destruct (Z.ltb_spec 0 i) as [Hpos|Hzero]; cbn [orb].
    + cbn [andb]. rewrite String.eqb_refl. rewrite IH by lia.
      f_equal. rewrite <- app_assoc. f_equal.
      replace (seqZ 0 i) with (seqZ 0 (i - 1 + 1)) by (f_equal; lia).
      rewrite (seqZ_app 0 (i - 1) 1) by lia.
      rewrite reverse_app. simpl. by rewrite Z.add_0_l.
    + assert (i = 0) as -> by lia. simpl. by rewrite app_nil_r.
Qed.

Lemma emitSegment_diagonal (lyricsWords : list string)
    (originalSegments : list WordSegment) (n : nat) :
  foldl (emitSegment lyricsWords originalSegments) []
    ((fun k => (k, k)) <$> seqZ 0 (Z.of_nat n))
  = (fun k =>
       mkWordSegment (str_get lyricsWords k)
         (LyricsAlignment.start (seg_get originalSegments k))
         (end_ (seg_get originalSegments k))
         (confidence (seg_get originalSegments k) * (95 # 100))%Q)
      <$> seqZ 0 (Z.of_nat n).
Proof.
  induction n as [|n IH]; [done|].
  rewrite seqZ_S, !fmap_app, foldl_app, IH.
  cbn [fmap list_fmap foldl]. rewrite Z.add_0_l.
  unfold emitSegment at 1.
  destruct (Z.leb_spec 0 (Z.of_nat n)); [done | lia].
Qed.

(** X12.  A transcription whose normalised words are already the words of
    the lyrics keeps its timing: with fuel for one turn per segment the
    alignment returns every segment with its own start and end, the
    normalised word as text, and its confidence times 0.95; no word is
    inserted or dropped, whatever the matrix holds. *)
Theorem matching_transcript_keeps_timing (fuel : nat)
    (transcribedWords : list WordSegment) (lyrics : string) :
  transcribedWords ≠ [] ->
  map (fun seg => normalizeText (word seg)) transcribedWords
  = splitIntoWords lyrics ->
  (length transcribedWords <= fuel)%nat ->
  alignLyricsToTranscription fuel transcribedWords lyrics
  = Some ((fun seg =>
             mkWordSegment (normalizeText (word seg))
               (LyricsAlignment.start seg) (end_ seg)
               (confidence seg * (95 # 100))%Q)
            <$> transcribedWords).
Proof.
  intros Htw Heq Hfuel. unfold alignLyricsToTranscription.
  destruct lyrics as [|c lyrics].
  { destruct transcribedWords; [done|]. discriminate Heq. }
  destruct transcribedWords as [|seg tw]; [done|].
  remember (seg :: tw) as segs eqn:Esegs.
  rewrite <- Heq.
  remember (map (fun seg => normalizeText (word seg)) segs) as ws eqn:Ews.
  assert (length ws = length segs) as Hlen by (by rewrite Ews, length_map).
  destruct ws as [|w ws]; [by rewrite Esegs in Hlen|].
  remember (w :: ws) as words eqn:Ewords.
  unfold backtrackAlignment. rewrite Hlen.
  rewrite backtrackLoop_diagonal by lia.
  cbn [app]. rewrite <- fmap_reverse, reverse_involutive.
  rewrite emitSegment_diagonal. f_equal.
  apply list_eq. intros k. rewrite !list_lookup_fmap.
  destruct (decide (k < length segs)%nat) as [Hk|Hk].
  - rewrite (lookup_seqZ_lt 0 _ k) by lia.
    destruct (lookup_lt_is_Some_2 segs k Hk) as [sg Hsg]. rewrite Hsg. simpl.
    unfold seg_get, str_get.
    destruct (Z.leb_spec 0 (0 + Z.of_nat k)); [|lia].
    replace (Z.to_nat (0 + Z.of_nat k)) with k by lia.
    rewrite Hsg, Ews. simpl.
    change (map ?f ?l) with (f <$> l). by rewrite list_lookup_fmap, Hsg.
  - rewrite (lookup_seqZ_ge 0 _ k) by lia.
    by rewrite (proj2 (lookup_ge_None segs k)) by lia.
Qed.

Lemma matching_transcript_keeps_timing_witness :
  [mkWordSegment "Hello," 0 1 1; mkWordSegment "World" 1 2 1] ≠ []
  /\ map (fun seg => normalizeText (word seg))
       [mkWordSegment "Hello," 0 1 1; mkWordSegment "World" 1 2 1]
     = splitIntoWords "hello  world!"
  /\ (length [mkWordSegment "Hello," 0 1 1; mkWordSegment "World" 1 2 1]
      <= 2)%nat
  /\ alignLyricsToTranscription 2
       [mkWordSegment "Hello," 0 1 1; mkWordSegment "World" 1 2 1]
       "hello  world!"
     = Some ((fun seg =>
                mkWordSegment (normalizeText (word seg))
                  (LyricsAlignment.start seg) (end_ seg)
                  (confidence seg * (95 # 100))%Q)
               <$> [mkWordSegment "Hello," 0 1 1; mkWordSegment "World" 1 2 1]).
Proof.
  split; [discriminate|]. split; [reflexivity|]. split; [simpl; lia|].
  apply (matching_transcript_keeps_timing 2
           [mkWordSegment "Hello," 0 1 1; mkWordSegment "World" 1 2 1]
           "hello  world!"); [discriminate | reflexivity | simpl; lia].
Defined.

(** ** The edit distance matrix *)

Lemma levenshtein_row0 (seq1 seq2 : list string) (j : nat) :
  levenshtein seq1 seq2 0 j = Z.of_nat j.
Proof. done. Qed.

Lemma levenshtein_col0 (seq1 seq2 : list string) (i : nat) :
  levenshtein seq1 seq2 i 0 = Z.of_nat i.
Proof. by destruct i. Qed.

Lemma levenshtein_step (seq1 seq2 : list string) (i j : nat) :
  levenshtein seq1 seq2 (S i) (S j)
  = if String.eqb (str_get seq1 (Z.of_nat i)) (str_get seq2 (Z.of_nat j))
    then levenshtein seq1 seq2 i j
    else 1 + Z.min (levenshtein seq1 seq2 i (S j))
               (Z.min (levenshtein seq1 seq2 (S i) j)
                  (levenshtein seq1 seq2 i j)).
Proof. done. Qed.

Section EditDistance.

Variables seq1 seq2 : list string.

Let m := Z.of_nat (length seq1).
Let n := Z.of_nat (length seq2).
Let rows := Z.to_nat (m + 1).
Let cols := Z.to_nat (n + 1).
Let lev (i j : Z) : Z := levenshtein seq1 seq2 (Z.to_nat i) (Z.to_nat j).

(** The cells that hold their final value when the fill is at row [i],
    column [j]. *)
Let filled (i j : Z) (matrix : list (list Z)) : Prop :=
  dims matrix rows cols
  /\ forall i' j', 0 <= i' <= m -> 0 <= j' <= n ->
       i' = 0 \/ j' = 0 \/ i' < i \/ (i' = i /\ j' < j) ->
       mat_get matrix i' j' = lev i' j'.

Lemma init_matrix_dims :
  dims (replicate (Z.to_nat (m + 1)) (replicate (Z.to_nat (n + 1)) 0))
    rows cols.
Proof.
  split.
  - by rewrite length_replicate.
  - intros r row Hrow. apply lookup_replicate in Hrow as [-> _].
    by rewrite length_replicate.
Qed.

Lemma first_column_filled (matrix : list (list Z)) :
  dims matrix rows cols ->
  let matrix' :=
    for_loop 0 (m + 1) (fun i matrix => mat_set matrix i 0 i) matrix in
  dims matrix' rows cols
  /\ forall i', 0 <= i' <= m -> mat_get matrix' i' 0 = i'.
Proof.
  intros Hd. cbv zeta.
  pose (P := fun (k : Z) (M : list (list Z)) =>
               dims M rows cols
               /\ forall i', 0 <= i' < k -> mat_get M i' 0 = i').
  assert (P (m + 1) (for_loop 0 (m + 1)
                       (fun i matrix => mat_set matrix i 0 i) matrix))
    as [Hd' Hget].
  { apply for_loop_ind; [lia| |].
    - split; [done|]. lia.
    - intros i M Hi [HdM HM]. split; [by apply mat_set_dims|].
      intros i' Hi'. destruct (decide (i' = i)) as [->|Hne].
      + apply (mat_get_set_eq _ rows cols); [done| |]; subst rows cols; lia.
      + rewrite mat_get_set_ne by (left; lia). apply HM. lia. }
  split; [done|]. intros i' Hi'. apply Hget. lia.
Qed.

Lemma first_row_filled (matrix : list (list Z)) :
  dims matrix rows cols ->
  (forall i', 0 <= i' <= m -> mat_get matrix i' 0 = i') ->
  filled 1 1
    (for_loop 0 (n + 1) (fun j matrix => mat_set matrix 0 j j) matrix).
Proof.
  intros Hd Hcol.
  pose (P := fun (k : Z) (M : list (list Z)) =>
               dims M rows cols
               /\ (forall i', 0 <= i' <= m -> mat_get M i' 0 = i')
               /\ forall j', 0 <= j' < k -> mat_get M 0 j' = j').
  assert (P (n + 1) (for_loop 0 (n + 1)
                       (fun j matrix => mat_set matrix 0 j j) matrix))
    as (Hd' & Hcol' & Hrow').
  { apply for_loop_ind; [lia| |].
    - split; [done|]. split; [done|]. lia.
    - intros j M Hj (HdM & HcM & HrM). split; [by apply mat_set_dims|].
      split.
      + intros i' Hi'.
        destruct (decide (i' = 0 /\ j = 0)) as [[-> ->]|Hne].
        * apply (mat_get_set_eq _ rows cols); [done| |]; subst rows cols; lia.
        * rewrite mat_get_set_ne by lia. by apply HcM.
      + intros j' Hj'. destruct (decide (j' = j)) as [->|Hne].
        * apply (mat_get_set_eq _ rows cols); [done| |]; subst rows cols; lia.
        * rewrite mat_get_set_ne by (right; lia). apply HrM. lia. }
  split; [done|]. intros i' j' Hi' Hj' Hcase. unfold lev.
  destruct (decide (i' = 0)) as [->|Hi0].
  - rewrite Hrow' by lia. simpl. lia.
  - assert (j' = 0) as -> by lia. rewrite Hcol' by lia.
    rewrite levenshtein_col0. lia.
Qed.

Lemma cell_filled (i j : Z) (matrix : list (list Z)) :
  1 <= i <= m -> 1 <= j <= n -> filled i j matrix ->
  filled i (j + 1)
    (if String.eqb (str_get seq1 (i - 1)) (str_get seq2 (j - 1))
     then mat_set matrix i j (mat_get matrix (i - 1) (j - 1))
     else
       mat_set matrix i j
         (1 + Z.min (mat_get matrix (i - 1) j)
                (Z.min (mat_get matrix i (j - 1))
                   (mat_get matrix (i - 1) (j - 1))))).
Proof.
  intros Hi Hj [Hd Hfill].
  assert (lev i j
          = if String.eqb (str_get seq1 (i - 1)) (str_get seq2 (j - 1))
            then lev (i - 1) (j - 1)
            else 1 + Z.min (lev (i - 1) j)
                       (Z.min (lev i (j - 1)) (lev (i - 1) (j - 1)))) as Hstep.
  { unfold lev.
    replace (Z.to_nat i) with (S (Z.to_nat (i - 1))) by lia.
    replace (Z.to_nat j) with (S (Z.to_nat (j - 1))) by lia.
    rewrite levenshtein_step, !Z2Nat.id by lia. done. }
  rewrite (Hfill (i - 1) (j - 1)), (Hfill (i - 1) j), (Hfill i (j - 1))
    by lia.
  assert (dims (mat_set matrix i j (lev i j)) rows cols
          /\ forall i' j', 0 <= i' <= m -> 0 <= j' <= n ->
               i' = 0 \/ j' = 0 \/ i' < i \/ (i' = i /\ j' < j + 1) ->
               mat_get (mat_set matrix i j (lev i j)) i' j' = lev i' j')
    as Hnew.
  { split; [by apply mat_set_dims|]. intros i' j' Hi' Hj' Hcase.
    destruct (decide (i' = i /\ j' = j)) as [[-> ->]|Hne].
    - apply (mat_get_set_eq _ rows cols); [done| |]; subst rows cols; lia.
    - rewrite mat_get_set_ne by lia. apply Hfill; lia. }
  rewrite Hstep in Hnew.
  by destruct (String.eqb _ _).
Qed.

Lemma calculateEditDistance_filled :
  filled (m + 1) 1 (calculateEditDistance seq1 seq2).
Proof.
  unfold calculateEditDistance. fold m n.
  destruct (first_column_filled _ init_matrix_dims) as [Hd Hcol].
  pose proof (first_row_filled _ Hd Hcol) as Hinit.
  apply (for_loop_ind (fun i M => filled i 1 M)); [lia|done|].
  intros i M Hi HM.
  assert (filled i (n + 1)
            (for_loop 1 (n + 1)
               (fun j matrix =>
                  if String.eqb (str_get seq1 (i - 1)) (str_get seq2 (j - 1))
                  then mat_set matrix i j (mat_get matrix (i - 1) (j - 1))
                  else
                    mat_set matrix i j
                      (1 + Z.min (mat_get matrix (i - 1) j)
                             (Z.min (mat_get matrix i (j - 1))
                                (mat_get matrix (i - 1) (j - 1)))))
               M)) as [Hd' Hrow].
  { apply (for_loop_ind (fun j M => filled i j M)); [lia|done|].
    intros j M' Hj HM'. apply cell_filled; [lia | lia | done]. }
  split; [done|]. intros i' j' Hi' Hj' Hcase. apply Hrow; lia.
Qed.

End EditDistance.

(** X13.  [calculateEditDistance] fills the matrix with the edit
    distances of the prefixes: for [i] up to the length of the first
    sequence and [j] up to the length of the second, the cell at row [i],
    column [j] holds the edit distance between the first [i] words of the
    first and the first [j] words of the second sequence. *)
Theorem edit_distance_matrix (seq1 seq2 : list string) (i j : nat) :
  (i <= length seq1)%nat -> (j <= length seq2)%nat ->
  mat_get (calculateEditDistance seq1 seq2) (Z.of_nat i) (Z.of_nat j)
  = levenshtein seq1 seq2 i j.
Proof.
  intros Hi Hj.
  destruct (calculateEditDistance_filled seq1 seq2) as [_ Hfill].
  rewrite Hfill by lia. by rewrite !Nat2Z.id.
Qed.

Lemma edit_distance_matrix_witness :
  (2 <= length ["a"; "b"; "c"]%string)%nat
  /\ (3 <= length ["a"; "x"; "c"; "d"]%string)%nat
  /\ mat_get
       (calculateEditDistance ["a"; "b"; "c"]%string
          ["a"; "x"; "c"; "d"]%string)
       (Z.of_nat 2) (Z.of_nat 3)
     = levenshtein ["a"; "b"; "c"]%string ["a"; "x"; "c"; "d"]%string 2 3.
Proof.
  split; [simpl; lia|]. split; [simpl; lia|].
  apply (edit_distance_matrix ["a"; "b"; "c"]%string
           ["a"; "x"; "c"; "d"]%string 2 3);
    simpl; lia.
Defined.

Lemma str_get_lookup (v : list string) (k : nat) (x : string) :
  v !! k = Some x -> str_get v (Z.of_nat k) = x.
Proof.
  intros Hk. unfold str_get. destruct (Z.leb_spec 0 (Z.of_nat k)); [|lia].
  by rewrite Nat2Z.id, Hk.
Qed.

Lemma levenshtein_facts (seq1 seq2 : list string) (i : nat) :
  forall j : nat,
    (i <= length seq1)%nat -> (j <= length seq2)%nat ->
    Z.abs (Z.of_nat i - Z.of_nat j) <= levenshtein seq1 seq2 i j
                                    <= Z.max (Z.of_nat i) (Z.of_nat j)
    /\ (levenshtein seq1 seq2 i j = 0 <-> take i seq1 = take j seq2).
Proof.
  induction i as [|i IHi]; intros j Hi Hj.
  - rewrite levenshtein_row0. split; [lia|]. rewrite take_0. split.
    + intros Hz. assert (j = 0)%nat as -> by lia. done.
    + intros Heq. symmetry in Heq. apply (f_equal length) in Heq.
      rewrite length_take in Heq. cbn [length] in Heq. lia.
  - induction j as [|j IHj].
    + rewrite levenshtein_col0. split; [lia|]. rewrite take_0. split; [lia|].
      intros Heq. apply (f_equal length) in Heq.
      rewrite length_take in Heq. cbn [length] in Heq. lia.
    + destruct (lookup_lt_is_Some_2 seq1 i ltac:(lia)) as [x Hx].
      destruct (lookup_lt_is_Some_2 seq2 j ltac:(lia)) as [y Hy].
      rewrite levenshtein_step.
      rewrite (str_get_lookup _ _ _ Hx), (str_get_lookup _ _ _ Hy).
      rewrite (take_S_r _ _ _ Hx), (take_S_r _ _ _ Hy).
      destruct (IHi j ltac:(lia) ltac:(lia)) as [Hc Hc0].
      destruct (IHi (S j) ltac:(lia) ltac:(lia)) as [Ha _].
      destruct (IHj ltac:(lia)) as [Hb _].
      destruct (String.eqb_spec x y) as [->|Hne].
      * split; [lia|]. rewrite Hc0. split; [by intros ->|].
        intros Heq. by apply app_inj_tail in Heq as [? _].
      * split; [lia|]. split; [lia|].
        intros Heq. by apply app_inj_tail in Heq as [_ ?].
Qed.

(** X14.  The edit distance that [calculateEditDistance] leaves in the
    last cell of the matrix lies between the difference of the two lengths
    and the larger of them, and it is zero exactly when the two word
    sequences are the same. *)
Theorem edit_distance_bounds (seq1 seq2 : list string) :
  let m := Z.of_nat (length seq1) in
  let n := Z.of_nat (length seq2) in
  let distance := mat_get (calculateEditDistance seq1 seq2) m n in
  Z.abs (m - n) <= distance <= Z.max m n
  /\ (distance = 0 <-> seq1 = seq2).
Proof.
  cbv zeta.
  destruct (calculateEditDistance_filled seq1 seq2) as [_ Hfill].
  rewrite Hfill by lia. rewrite !Nat2Z.id.
  destruct (levenshtein_facts seq1 seq2 (length seq1) (length seq2)
              (le_n _) (le_n _)) as [Hb Hz].
  by rewrite !firstn_all in Hz.
Qed.

(** ** Normalised text *)

Lemma tolower_alnum (c : ascii) :
  isalnum (tolower c) = true -> islowernum (tolower c) = true.
Proof.
  destruct c as [[] [] [] [] [] [] [] []]; vm_compute; intros H;
    (exact H || reflexivity).
Qed.

Lemma islowernum_facts (c : ascii) :
  islowernum c = true ->
  tolower c = c /\ isalnum c = true /\ isspace c = false.
Proof.
  destruct c as [[] [] [] [] [] [] [] []]; vm_compute; intros H;
    (discriminate H || by repeat split).
Qed.

Lemma isspace_facts (c : ascii) :
  isspace c = true -> tolower c = c.
Proof.
  destruct c as [[] [] [] [] [] [] [] []]; vm_compute; intros H;
    (discriminate H || reflexivity).
Qed.

Section Words.

Let keep (c : ascii) : bool := negb (negb (isalnum c) && negb (isspace c)).
Let wordChar (c : ascii) : Prop := islowernum c = true.
Let textChar (c : ascii) : Prop := isspace c = true \/ islowernum c = true.
Let goodWord (w : list ascii) : Prop := w ≠ [] /\ Forall wordChar w.

Lemma filtered_chars (cs : list ascii) :
  Forall textChar (List.filter keep (map tolower cs)).
Proof.
  induction cs as [|c cs IH]; [constructor|].
  cbn [map List.filter]. destruct (keep (tolower c)) eqn:Hk; [|done].
  constructor; [|done]. unfold keep in Hk.
  destruct (isspace (tolower c)) eqn:Hsp; [by left|]. right.
  apply tolower_alnum. by destruct (isalnum (tolower c)).
Qed.

Lemma extractWords_good (cs : list ascii) :
  Forall textChar cs ->
  forall cur, Forall wordChar cur -> Forall goodWord (extractWords cs cur).
Proof.
  induction 1 as [|c cs Hc _ IH]; intros cur Hcur.
  - simpl. destruct cur as [|c0 cur]; [constructor|].
    constructor; [|constructor]. split.
    + intros E. apply (f_equal (@length ascii)) in E.
      rewrite length_rev in E. done.
    + apply Forall_forall. intros x Hx. apply list_elem_of_In, in_rev in Hx.
      rewrite Forall_forall in Hcur. by apply Hcur, list_elem_of_In.
  - cbn [extractWords]. destruct (isspace c) eqn:Hsp.
    + destruct cur as [|c0 cur]; [by apply IH|].
      constructor; [|by apply IH]. split.
      * intros E. apply (f_equal (@length ascii)) in E.
        rewrite length_rev in E. done.
      * apply Forall_forall. intros x Hx. apply list_elem_of_In, in_rev in Hx.
        rewrite Forall_forall in Hcur. by apply Hcur, list_elem_of_In.
    + apply IH. constructor; [|done]. destruct Hc as [Hc|Hc]; [congruence|done].
Qed.

Lemma extractWords_app (w rest : list ascii) :
  Forall wordChar w ->
  forall cur, extractWords (w ++ rest) cur = extractWords rest (rev w ++ cur).
Proof.
  induction 1 as [|c w Hc _ IH]; intros cur; [done|].
  destruct (islowernum_facts c Hc) as (_ & _ & Hsp).
  cbn [app extractWords rev]. rewrite Hsp, IH, <- app_assoc. done.
Qed.

Lemma extractWords_joinWords (ws : list (list ascii)) :
  Forall goodWord ws -> extractWords (joinWords ws) [] = ws.
Proof.
  induction 1 as [|w ws [Hne Hw] Hws IH]; [done|].
  assert (rev w ≠ []) as Hrev.
  { intros E. apply (f_equal (@length ascii)) in E.
    rewrite length_rev in E. by destruct w. }
  destruct ws as [|w2 ws].
  - cbn [joinWords]. rewrite <- (app_nil_r w) at 1.
    rewrite extractWords_app, app_nil_r by done. simpl.
    destruct (rev w) eqn:E; [done|]. by rewrite <- E, rev_involutive.
  - change (joinWords (w :: w2 :: ws))
      with (w ++ " "%char :: joinWords (w2 :: ws)).
    rewrite extractWords_app, app_nil_r by done.
    cbn [extractWords]. change (isspace " ") with true. cbv iota.
    rewrite IH. destruct (rev w) eqn:E; [done|].
    by rewrite <- E, rev_involutive.
Qed.

Lemma joinWords_chars (ws : list (list ascii)) :
  Forall goodWord ws -> Forall textChar (joinWords ws).
Proof.
  induction 1 as [|w ws [Hne Hw] Hws IH]; [constructor|].
  assert (Forall textChar w) as Hw'.
  { eapply Forall_impl; [exact Hw|]. intros c Hc. by right. }
  destruct ws as [|w2 ws]; [done|].
  change (joinWords (w :: w2 :: ws))
    with (w ++ " "%char :: joinWords (w2 :: ws)).
  apply Forall_app. split; [done|]. constructor; [by left | done].
Qed.

Lemma textChars_fixed (cs : list ascii) :
  Forall textChar cs -> List.filter keep (map tolower cs) = cs.
Proof.
  induction 1 as [|c cs Hc _ IH]; [done|].
  assert (tolower c = c /\ keep c = true) as [Hlow Hkeep].
  { unfold keep. destruct Hc as [Hc|Hc].
    - split; [by apply isspace_facts|]. rewrite Hc.
      by destruct (isalnum c).
    - destruct (islowernum_facts c Hc) as (? & -> & _). done. }
  cbn [map List.filter]. by rewrite Hlow, Hkeep, IH.
Qed.

Lemma normalizeText_words (text : string) :
  exists ws,
    Forall goodWord ws
    /\ normalizeText text = string_of_list_ascii (joinWords ws)
    /\ splitIntoWords text = map string_of_list_ascii ws.
Proof.
  exists (extractWords
            (List.filter keep (map tolower (list_ascii_of_string text))) []).
  assert (Forall goodWord
            (extractWords
               (List.filter keep (map tolower (list_ascii_of_string text)))
               [])) as Hgood.
  { apply extractWords_good; [apply filtered_chars | constructor]. }
  split; [done|]. split; [done|].
  unfold splitIntoWords, normalizeText. fold keep.
  rewrite list_ascii_of_string_of_list_ascii.
  by rewrite extractWords_joinWords.
Qed.

Lemma normalizeText_again (ws : list (list ascii)) :
  Forall goodWord ws ->
  normalizeText (string_of_list_ascii (joinWords ws))
  = string_of_list_ascii (joinWords ws).
Proof.
  intros Hgood. unfold normalizeText. fold keep.
  rewrite list_ascii_of_string_of_list_ascii.
  rewrite textChars_fixed by (by apply joinWords_chars).
  by rewrite extractWords_joinWords.
Qed.

Lemma goodWord_normalWord (w : list ascii) :
  goodWord w -> normalWord (string_of_list_ascii w).
Proof.
  intros [Hne Hw]. split.
  - intros E. apply (f_equal list_ascii_of_string) in E.
    rewrite list_ascii_of_string_of_list_ascii in E. done.
  - by rewrite list_ascii_of_string_of_list_ascii.
Qed.

End Words.

Lemma string_of_list_ascii_app (a b : list ascii) :
  string_of_list_ascii (a ++ b)
  = (string_of_list_ascii a ++ string_of_list_ascii b)%string.
Proof. induction a as [|c a IH]; [done|]. simpl. by rewrite IH. Qed.

Lemma string_of_joinWords (ws : list (list ascii)) :
  string_of_list_ascii (joinWords ws)
  = String.concat " " (map string_of_list_ascii ws).
Proof.
  induction ws as [|w ws IH]; [done|].
  destruct ws as [|w2 ws]; [done|].
  change (joinWords (w :: w2 :: ws))
    with (w ++ " "%char :: joinWords (w2 :: ws)).
  rewrite string_of_list_ascii_app. cbn [string_of_list_ascii].
  rewrite IH. done.
Qed.

(** X15.  [normalizeText] is idempotent: a normalised text is its own
    normal form, so comparing normalised words, as the censor and the
    alignment do, does not depend on how often a word was normalised. *)
Theorem normalizeText_idempotent (text : string) :
  normalizeText (normalizeText text) = normalizeText text.
Proof.
  destruct (normalizeText_words text) as (ws & Hgood & -> & _).
  by apply normalizeText_again.
Qed.

(** X16.  A normalised text is its words joined by single spaces, and
    [splitIntoWords] returns these words: each of them is non-empty and
    made of lower-case letters and digits only, so the normalised text has
    no punctuation, no upper-case letter, and no space at either end or
    twice in a row. *)
Theorem normalizeText_shape (text : string) :
  Forall normalWord (splitIntoWords text)
  /\ normalizeText text = String.concat " " (splitIntoWords text).
Proof.
  destruct (normalizeText_words text) as (ws & Hgood & -> & ->).
  split.
  - apply Forall_fmap. eapply Forall_impl; [exact Hgood|].
    intros w Hw. by apply goodWord_normalWord.
  - apply string_of_joinWords.
Qed.

(** ** Cleaned token text *)

Lemma keptChar_plain (c : ascii) :
  keptChar c = true ->
  Ascii.eqb c "(" = false /\ Ascii.eqb c "195" = false
  /\ Ascii.eqb c "226" = false
  /\ (trimChar c = true -> c = " "%char).
Proof.
  destruct c as [[] [] [] [] [] [] [] []]; vm_compute; intros H;
    (discriminate H || (repeat split; (done || intros ?; done))).
Qed.

Lemma removeParens_plain (cs : list ascii) :
  Forall (fun c => Ascii.eqb c "(" = false) cs -> removeParens cs = cs.
Proof.
  induction 1 as [|c cs Hc _ IH]; [done|]. simpl. by rewrite Hc, IH.
Qed.

Lemma replaceBytes_plain (b1 b2 b3 r : ascii) (cs : list ascii) :
  Forall (fun c => Ascii.eqb c b1 = false) cs ->
  replaceBytes b1 b2 b3 r cs = cs.
Proof.
  induction 1 as [|c cs Hc _ IH]; [done|].
  cbn [replaceBytes]. rewrite Hc. cbn [andb].
  destruct cs as [|c2 [|c3 rest]]; by rewrite IH.
Qed.

Lemma filter_plain (cs : list ascii) :
  Forall (fun c => keptChar c = true) cs -> List.filter keptChar cs = cs.
Proof.
  induction 1 as [|c cs Hc _ IH]; [done|]. simpl. by rewrite Hc, IH.
Qed.

Lemma trimLeft_suffix (cs : list ascii) :
  exists pre, cs = pre ++ trimLeft cs.
Proof.
  induction cs as [|c cs [pre IH]]; [by exists []|].
  simpl. destruct (trimChar c); [|by exists []].
  exists (c :: pre). simpl. by rewrite <- IH.
Qed.

Lemma trimLeft_head (cs : list ascii) (c : ascii) :
  head (trimLeft cs) = Some c -> trimChar c = false.
Proof.
  induction cs as [|c0 cs IH]; [done|]. simpl.
  destruct (trimChar c0) eqn:E; [done|]. simpl. by intros [= <-].
Qed.

Lemma trimLeft_fixed (cs : list ascii) :
  (forall c, head cs = Some c -> trimChar c = false) -> trimLeft cs = cs.
Proof.
  destruct cs as [|c cs]; [done|]. intros H. simpl.
  by rewrite (H c eq_refl).
Qed.

Lemma head_rev (cs : list ascii) : head (rev cs) = last cs.
Proof.
  induction cs as [|c cs _] using rev_ind; [done|].
  by rewrite rev_app_distr, last_snoc.
Qed.

Lemma last_rev (cs : list ascii) : last (rev cs) = head cs.
Proof. by rewrite <- head_rev, rev_involutive. Qed.

Lemma trimRight_prefix (cs : list ascii) :
  exists suf, cs = trimRight cs ++ suf.
Proof.
  unfold trimRight. destruct (trimLeft_suffix (rev cs)) as [pre E].
  exists (rev pre). rewrite <- rev_app_distr, <- E. by rewrite rev_involutive.
Qed.

Lemma trimRight_last (cs : list ascii) (c : ascii) :
  last (trimRight cs) = Some c -> trimChar c = false.
Proof. unfold trimRight. rewrite last_rev. apply trimLeft_head. Qed.

Lemma trimRight_fixed (cs : list ascii) :
  (forall c, last cs = Some c -> trimChar c = false) -> trimRight cs = cs.
Proof.
  intros H. unfold trimRight. rewrite trimLeft_fixed.
  - apply rev_involutive.
  - intros c. rewrite head_rev. apply H.
Qed.

Lemma trimmed_facts (cs : list ascii) :
  Forall (fun c => keptChar c = true) cs ->
  let r := trimRight (trimLeft cs) in
  Forall (fun c => keptChar c = true) r
  /\ (forall c, head r = Some c -> trimChar c = false)
  /\ (forall c, last r = Some c -> trimChar c = false).
Proof.
  intros Hall. cbv zeta.
  destruct (trimLeft_suffix cs) as [pre Epre].
  destruct (trimRight_prefix (trimLeft cs)) as [suf Esuf].
  split; [|split].
  - rewrite Epre, Esuf in Hall. by apply Forall_app in Hall as [_ [? _]%Forall_app].
  - intros c Hc. apply (trimLeft_head cs). rewrite Esuf.
    destruct (trimRight (trimLeft cs)); [done|]. exact Hc.
  - apply trimRight_last.
Qed.

(** X17.  The cleaned text of a token holds only letters, digits,
    apostrophes, hyphens and spaces, it neither starts nor ends with a
    space, and cleaning it again changes nothing. *)
Theorem cleanTranscriptText_clean (text : string) :
  let cleaned := list_ascii_of_string (cleanTranscriptText text) in
  Forall (fun c => keptChar c = true) cleaned
  /\ head cleaned ≠ Some " "%char
  /\ last cleaned ≠ Some " "%char
  /\ cleanTranscriptText (cleanTranscriptText text) = cleanTranscriptText text.
Proof.
  cbv zeta. unfold cleanTranscriptText at 1 2 3.
  rewrite list_ascii_of_string_of_list_ascii.
  match goal with
  | |- context [trimRight (trimLeft (List.filter keptChar ?cs))] =>
      set (filtered := List.filter keptChar cs)
  end.
  assert (Forall (fun c => keptChar c = true) filtered) as Hf.
  { apply Forall_forall. intros c Hc.
    apply list_elem_of_In, filter_In in Hc as [_ Hc]. exact Hc. }
  destruct (trimmed_facts filtered Hf) as (Hall & Hhead & Hlast).
  cbv zeta in Hall, Hhead, Hlast.
  set (r := trimRight (trimLeft filtered)) in *.
  split; [done|]. split; [|split].
  - intros Hc. by specialize (Hhead _ Hc).
  - intros Hc. by specialize (Hlast _ Hc).
  - unfold cleanTranscriptText.
    rewrite list_ascii_of_string_of_list_ascii.
    assert (Forall (fun c => Ascii.eqb c "(" = false) r) as H1.
    { eapply Forall_impl; [exact Hall|]. intros c Hc.
      by destruct (keptChar_plain c Hc) as (? & _). }
    assert (Forall (fun c => Ascii.eqb c "195" = false) r) as H2.
    { eapply Forall_impl; [exact Hall|]. intros c Hc.
      by destruct (keptChar_plain c Hc) as (_ & ? & _). }
    assert (Forall (fun c => Ascii.eqb c "226" = false) r) as H3.
    { eapply Forall_impl; [exact Hall|]. intros c Hc.
      by destruct (keptChar_plain c Hc) as (_ & _ & ? & _). }
    rewrite removeParens_plain by done.
    rewrite (replaceBytes_plain "195" _ _ _ r) by done.
    rewrite !(replaceBytes_plain "226" _ _ _ r) by done.
    rewrite filter_plain by done.
    rewrite trimLeft_fixed by done.
    by rewrite trimRight_fixed by done.
Qed.

(** ** Resampling *)

Lemma to_int_unique (x : Q) (k : Z) :
  (inject_Z k <= x < inject_Z k + 1)%Q -> 0 <= k -> to_int x = k.
Proof.
  intros [Hlo Hhi] Hk.
  assert (0 <= inject_Z k)%Q as Hkq.
  { change 0%Q with (inject_Z 0). by rewrite <- Zle_Qle. }
  destruct (to_int_floor x ltac:(lra)) as [Hlo' Hhi'].
  assert (to_int x < k + 1 /\ k < to_int x + 1); [|lia].
  rewrite !Zlt_Qlt, !inject_Z_plus. change (inject_Z 1) with 1%Q. lra.
Qed.

Section Resample.

Variables (cfg : Config) (input : list Q).

Hypothesis Hrate : sampleRate cfg ≠ 16000.
Hypothesis Hpos : 0 < sampleRate cfg.

Let n := Z.of_nat (length input).
Let ratio := (inject_Z (sampleRate cfg) / 16000)%Q.
Let outputSize := to_int (inject_Z n / ratio).
Let srcIndex (i : Z) := to_int (inject_Z i * ratio).
Let frac (i : Z) := (inject_Z i * ratio - inject_Z (srcIndex i))%Q.
Let sample (i : Z) : Q :=
  if srcIndex i + 1 <? n
  then (vec_get input (srcIndex i) * (1 - frac i)
        + vec_get input (srcIndex i + 1) * frac i)%Q
  else vec_get input (srcIndex i).

Lemma ratio_pos : (0 < ratio)%Q.
Proof.
  unfold ratio. pose proof (inject_Z_pos _ Hpos) as HF.
  apply Qlt_shift_div_l; lra.
Qed.

Lemma outputSize_bounds :
  0 <= outputSize /\ (inject_Z outputSize * ratio <= inject_Z n)%Q.
Proof.
  pose proof ratio_pos as Hr.
  assert (0 <= inject_Z n)%Q as Hn.
  { change 0%Q with (inject_Z 0). rewrite <- Zle_Qle. unfold n. lia. }
  assert (0 <= inject_Z n / ratio)%Q as Hq.
  { apply Qle_shift_div_l; lra. }
  destruct (to_int_floor _ Hq) as [Hlo Hhi]. fold outputSize in Hlo, Hhi.
  split.
  - assert (-1 < outputSize); [|lia]. rewrite Zlt_Qlt.
    change (inject_Z (-1)) with (-1 # 1)%Q. lra.
  - assert (inject_Z n / ratio * ratio == inject_Z n)%Q as E by (field; lra).
    nra.
Qed.

Lemma resample_eval :
  length (resampleTo16kHz cfg input) = Z.to_nat outputSize
  /\ forall i, 0 <= i < outputSize ->
       vec_get (resampleTo16kHz cfg input) i = sample i.
Proof.
  unfold resampleTo16kHz.
  destruct (Z.eqb_spec (sampleRate cfg) 16000) as [E|_]; [done|].
  fold n ratio outputSize.
  rewrite (for_loop_ext 0 outputSize _
             (fun i output => vec_set output i (sample i))).
  2: { intros i out Hi. unfold sample, frac, srcIndex.
       by destruct (_ <? _). }
  unfold for_loop. split.
  - rewrite (write_loop_length (fun i => i) sample), length_replicate. done.
  - intros i Hi.
    apply (write_loop_get_hit (fun i => i) sample).
    + apply elem_of_seqZ. lia.
    + done.
    + rewrite length_replicate. lia.
Qed.

Lemma srcIndex_bounds (i : Z) :
  0 <= i < outputSize ->
  0 <= srcIndex i < n
  /\ (0 <= frac i < 1)%Q.
Proof.
  intros Hi. pose proof ratio_pos as Hr.
  destruct outputSize_bounds as [_ Hout].
  assert (0 <= inject_Z i)%Q as Hiq.
  { change 0%Q with (inject_Z 0). rewrite <- Zle_Qle. lia. }
  assert (inject_Z i + 1 <= inject_Z outputSize)%Q as Hi1.
  { change 1%Q with (inject_Z 1). rewrite <- inject_Z_plus, <- Zle_Qle. lia. }
  assert (0 <= inject_Z i * ratio)%Q as Hp by nra.
  destruct (to_int_floor _ Hp) as [Hlo Hhi]. fold (srcIndex i) in Hlo, Hhi.
  split; [|unfold frac; lra].
  split.
  - assert (-1 < srcIndex i); [|lia]. rewrite Zlt_Qlt.
    change (inject_Z (-1)) with (-1 # 1)%Q. lra.
  - rewrite Zlt_Qlt. nra.
Qed.

End Resample.

(** X18.  Resampling to 16 kHz stays within the input: for a positive
    sample rate other than 16 kHz, the output has
    [trunc (size * 16000 / sampleRate)] samples, and each of them is read
    from an input position in range and lies between that input sample and
    the next one (it is the input sample itself at the last position). *)
Theorem resample_within_neighbours (cfg : Config) (input : list Q) (i : Z) :
  0 < sampleRate cfg -> sampleRate cfg ≠ 16000 ->
  let ratio := (inject_Z (sampleRate cfg) / 16000)%Q in
  let output := resampleTo16kHz cfg input in
  let k := to_int (inject_Z i * ratio) in
  0 <= i < Z.of_nat (length output) ->
  Z.of_nat (length output)
  = to_int (inject_Z (Z.of_nat (length input)) / ratio)
  /\ 0 <= k < Z.of_nat (length input)
  /\ ((fmin (vec_get input k) (vec_get input (k + 1)) <= vec_get output i)%Q
      \/ k + 1 = Z.of_nat (length input))
  /\ ((vec_get output i <= fmax (vec_get input k) (vec_get input (k + 1)))%Q
      \/ k + 1 = Z.of_nat (length input))
  /\ (k + 1 = Z.of_nat (length input) -> vec_get output i = vec_get input k).
Proof.
  intros Hpos Hrate. cbv zeta.
  destruct (resample_eval cfg input Hrate) as [Hlen Hval].
  destruct (outputSize_bounds cfg input Hpos) as [Hout _].
  rewrite Hlen, Z2Nat.id by done. intros Hi.
  destruct (srcIndex_bounds cfg input Hpos i Hi) as [Hk Hfrac].
  split; [done|]. split; [done|]. rewrite (Hval i Hi).
  set (k := to_int (inject_Z i * (inject_Z (sampleRate cfg) / 16000))) in *.
  set (f := (inject_Z i * (inject_Z (sampleRate cfg) / 16000) - inject_Z k)%Q)
    in *.
  destruct (Z.ltb_spec (k + 1) (Z.of_nat (length input))) as [Hlt|Hge].
  - pose proof (fmin_bounds (vec_get input k) (vec_get input (k + 1)))
      as (Hm1 & Hm2 & _).
    pose proof (fmax_bounds (vec_get input k) (vec_get input (k + 1)))
      as (HM1 & HM2 & _).
    split; [left; nra|]. split; [left; nra|]. lia.
  - split; [right; lia|]. split; [right; lia|]. done.
Qed.

Lemma resample_within_neighbours_witness :
  0 < sampleRate eightKilohertz /\ sampleRate eightKilohertz ≠ 16000
  /\ 0 <= 1 < Z.of_nat (length (resampleTo16kHz eightKilohertz [1; 3]%Q))
  /\ Z.of_nat (length (resampleTo16kHz eightKilohertz [1; 3]%Q))
     = to_int (inject_Z (Z.of_nat (length [1; 3]%Q))
               / (inject_Z (sampleRate eightKilohertz) / 16000)).
Proof.
  split; [simpl; lia|]. split; [simpl; lia|].
  split; [vm_compute; split; [discriminate | reflexivity]|].
  apply (resample_within_neighbours eightKilohertz [1; 3]%Q 1);
    [simpl; lia | simpl; lia | vm_compute; split; [discriminate | reflexivity]].
Defined.

(** X19.  At a sample rate that is a multiple [r] of 16 kHz (48 kHz:
    [r = 3]) resampling is decimation: the output has [size / r] samples
    and output sample [i] is input sample [r * i]; the samples between
    are dropped and nothing is averaged. *)
Theorem resample_decimates (cfg : Config) (input : list Q) (r i : Z) :
  1 <= r -> sampleRate cfg = 16000 * r ->
  let output := resampleTo16kHz cfg input in
  Z.of_nat (length output) = Z.quot (Z.of_nat (length input)) r
  /\ (0 <= i < Z.of_nat (length output) ->
      (vec_get output i == vec_get input (r * i))%Q).
Proof.
  intros Hr Hsr. cbv zeta.
  destruct (decide (r = 1)) as [->|Hr1].
  { unfold resampleTo16kHz. rewrite Hsr. simpl.
    rewrite Z.quot_1_r. split; [done|]. intros _.
    by destruct i. }
  assert (sampleRate cfg ≠ 16000) as Hrate by lia.
  assert (0 < sampleRate cfg) as Hpos by lia.
  destruct (resample_eval cfg input Hrate) as [Hlen Hval].
  destruct (outputSize_bounds cfg input Hpos) as [Hout _].
  assert (inject_Z (sampleRate cfg) / 16000 == inject_Z r)%Q as Eratio.
  { rewrite Hsr, inject_Z_mult. change (inject_Z 16000) with 16000%Q.
    field. }
  assert (0 < inject_Z r)%Q as Hrq by (apply inject_Z_pos; lia).
  set (n := Z.of_nat (length input)) in *.
  assert (to_int (inject_Z n / (inject_Z (sampleRate cfg) / 16000))
          = Z.quot n r) as Esize.
  { pose proof (Z.quot_rem' n r) as Hqr.
    pose proof (Z.rem_bound_pos n r ltac:(lia) ltac:(lia)) as Hrem.
    pose proof (Z.quot_pos n r ltac:(lia) ltac:(lia)) as Hq0.
    apply to_int_unique; [|done]. rewrite Eratio.
    assert (inject_Z n == inject_Z r * inject_Z (Z.quot n r)
                          + inject_Z (Z.rem n r))%Q as En.
    { by rewrite <- inject_Z_mult, <- inject_Z_plus, <- Hqr. }
    assert (0 <= inject_Z (Z.rem n r) < inject_Z r)%Q as [Hr0 Hr2].
    { change 0%Q with (inject_Z 0). rewrite <- Zle_Qle, <- Zlt_Qlt. lia. }
    split.
    - apply Qle_shift_div_l; [done|]. rewrite En. nra.
    - apply Qlt_shift_div_r; [done|]. rewrite En. nra. }
  rewrite Esize in Hlen, Hval, Hout.
  rewrite Hlen, Z2Nat.id by done. split; [done|]. intros Hi.
  rewrite (Hval i Hi).
  assert (inject_Z i * (inject_Z (sampleRate cfg) / 16000)
          == inject_Z (r * i))%Q as Epos.
  { rewrite Eratio, inject_Z_mult. ring. }
  rewrite (to_int_inject _ (r * i) Epos).
  destruct (_ <? _); [|reflexivity].
  rewrite Epos. ring.
Qed.

Lemma resample_decimates_witness :
  1 <= 3 /\ sampleRate fortyEightKilohertz = 16000 * 3
  /\ Z.of_nat (length (resampleTo16kHz fortyEightKilohertz (framesFrom 0 7)))
     = Z.quot (Z.of_nat (length (framesFrom 0 7))) 3.
Proof.
  split; [lia|]. split; [reflexivity|].
  apply (resample_decimates fortyEightKilohertz (framesFrom 0 7) 3 0);
    [lia | reflexivity].
Defined.

(** ** Reported values *)

(** X20.  In every run of the engine the reported buffer fill is a
    fraction of the delay line, at least 0 and below 1, and once playback
    has started the audio it reports as buffered is at least the reported
    latency: [fill * size / sampleRate] seconds are no less than
    [getCurrentLatency] milliseconds. *)
Theorem reported_fill (cfg : Config) (s : State) :
  configOk cfg -> reachable cfg s ->
  (0 <= getBufferFill s < 1)%Q
  /\ (playbackStarted s = true ->
      (getCurrentLatency s
       <= getBufferFill s * inject_Z (delayBufferSize s)
          / inject_Z (sampleRate cfg) * 1000)%Q).
Proof.
  intros Hok Hreach.
  destruct (reachable_inv cfg s Hok Hreach) as (Hc & HLs & Hinv).
  destruct (Hinv []) as (_ & HW & HR & Hfill).
  pose proof (delayLength_room cfg Hok) as [_ HL10].
  destruct Hok as [HF Hd]. pose proof (inject_Z_pos _ HF) as HFq.
  unfold getBufferFill, getCurrentLatency. rewrite Hc, HLs.
  cbn [delayLoopInit dl_writePos dl_readPos dl_playbackStarted] in HW, HR, Hfill.
  unfold currentGap in Hfill.
  cbn [delayLoopInit dl_writePos dl_readPos] in Hfill.
  set (gap := c_mod (delayWritePos s - delayReadPos s + delayLength cfg)
                (delayLength cfg)) in *.
  assert (0 <= gap < delayLength cfg) as Hgap.
  { apply c_mod_range; lia. }
  assert (0 < inject_Z (delayLength cfg))%Q as HLq by (apply inject_Z_pos; lia).
  assert (0 <= inject_Z gap < inject_Z (delayLength cfg))%Q as [Hg0 Hg1].
  { change 0%Q with (inject_Z 0). rewrite <- Zle_Qle, <- Zlt_Qlt. lia. }
  split.
  - split.
    + apply Qle_shift_div_l; lra.
    + apply Qlt_shift_div_r; lra.
  - intros Hst. rewrite Hst in Hfill.
    assert (inject_Z gap / inject_Z (delayLength cfg)
            * inject_Z (delayLength cfg) / inject_Z (sampleRate cfg) * 1000
            == inject_Z gap / inject_Z (sampleRate cfg) * 1000)%Q as E.
    { field. lra. }
    rewrite E.
    assert (initialDelaySeconds cfg
            <= inject_Z gap / inject_Z (sampleRate cfg))%Q; [|lra].
    by apply buffer_seconds_le.
Qed.

Lemma reported_fill_witness :
  configOk tinyConfig /\ reachable tinyConfig warmEngine
  /\ (0 <= getBufferFill warmEngine < 1)%Q.
Proof.
  assert (configOk tinyConfig) as Hok.
  { split; [simpl; lia | unfold Qle; simpl; lia]. }
  assert (reachable tinyConfig warmEngine) as Hreach.
  { apply reach_process, reach_start. }
  split; [exact Hok|]. split; [exact Hreach|].
  apply (reported_fill tinyConfig warmEngine Hok Hreach).
Defined.

(** ** The life cycle *)

(** X21.  [stop] never stops the engine: in every run from the
    constructor, through calls of [start] and [stop] in any order,
    [shouldStopThread] is false, so a call of [stop] returns at its first
    test and leaves the object as it is, the worker thread is never joined,
    and [start] never answers "Already running". *)
Theorem stop_has_no_effect (p : Lifecycle.Processor) :
  alive p ->
  Lifecycle.shouldStopThread p = false
  /\ Lifecycle.stop p = p
  /\ Lifecycle.whisperThread p ≠ Lifecycle.Joined
  /\ forall p' ok, Lifecycle.start p = Some (p', ok) -> ok = true.
Proof.
  intros Halive.
  assert (Lifecycle.shouldStopThread p = false
          /\ Lifecycle.whisperThread p ≠ Lifecycle.Joined) as [Hflag Hthread].
  { induction Halive as [|p p' ok _ [IH1 IH2] Hstart|p _ [IH1 IH2]
                         |p s _ [IH1 IH2]].
    - done.
    - unfold Lifecycle.start in Hstart. rewrite IH1 in Hstart.
      destruct (Lifecycle.whisperThread p); [|done|done].
      by injection Hstart as <- _.
    - unfold Lifecycle.stop. by rewrite IH1.
    - done. }
  split; [done|]. split; [|split; [done|]].
  - unfold Lifecycle.stop. by rewrite Hflag.
  - intros p' ok. unfold Lifecycle.start. rewrite Hflag.
    destruct (Lifecycle.whisperThread p); [|done|]; by intros [= _ <-].
Qed.

Lemma stop_has_no_effect_witness :
  alive startedProcessor /\ Lifecycle.stop startedProcessor = startedProcessor.
Proof.
  assert (alive startedProcessor) as Halive.
  { apply (alive_start Lifecycle.constructed startedProcessor true);
      [apply alive_constructed | reflexivity]. }
  split; [exact Halive|].
  apply (stop_has_no_effect startedProcessor Halive).
Defined.

(** ** The level of a Reverse patch *)

Lemma fadeRamp_bounds (i n : Z) :
  0 <= i < n -> (0 <= fadeRamp i n (fadeSamplesOf n) <= 1)%Q.
Proof.
  intros Hi. unfold fadeRamp.
  set (fade := fadeSamplesOf n).
  assert (0 <= inject_Z i)%Q as Hiq.
  { change 0%Q with (inject_Z 0). rewrite <- Zle_Qle. lia. }
  destruct (Z.ltb_spec i fade) as [Hlt|Hge].
  - assert (0 < inject_Z fade)%Q as Hf by (apply inject_Z_pos; lia).
    assert (inject_Z i < inject_Z fade)%Q by (rewrite <- Zlt_Qlt; lia).
    split; [apply Qle_shift_div_l; lra | apply Qle_shift_div_r; lra].
  - destruct (Z.leb_spec (n - fade) i) as [Hend|Hmid]; [|lra].
    assert (0 < inject_Z fade)%Q as Hf by (apply inject_Z_pos; lia).
    assert (0 <= inject_Z (n - i) <= inject_Z fade)%Q as [H0 H1].
    { change 0%Q with (inject_Z 0). rewrite <- !Zle_Qle. lia. }
    split; [apply Qle_shift_div_l; lra | apply Qle_shift_div_r; lra].
Qed.

(** X22.  A Reverse patch never raises the level: in every channel,
    sample [i] of the patched span is in magnitude at most half of the
    original sample that it mirrors, for the gain of the single-word
    branch and for that of the bigram branch. *)
Theorem reverse_patch_attenuates (gain : Z -> Z -> Z -> Q -> Q) (s : State)
    (chunkStartPos startSample endSample : Z) (ch : nat) (chan : list Q)
    (i : Z) :
  gain = reverseGainSingle \/ gain = reverseGainBigram ->
  censorMode (config s) = Reverse ->
  0 <= chunkStartPos -> 0 <= startSample <= endSample ->
  endSample - startSample <= delayBufferSize s ->
  Z.of_nat ch < channels (config s) ->
  delayBuffer s !! ch = Some chan ->
  Z.of_nat (length chan) = delayBufferSize s ->
  0 <= i < endSample - startSample ->
  exists chan',
    delayBuffer (applyCensorship gain s chunkStartPos startSample endSample) !! ch
    = Some chan'
    /\ (Qabs (vec_get chan'
                (c_mod (chunkStartPos + startSample + i) (delayBufferSize s)))
        <= Qabs (vec_get chan
                   (c_mod (chunkStartPos + startSample
                           + (endSample - startSample - 1 - i))
                      (delayBufferSize s)))
           * (1 # 2))%Q.
Proof.
  intros Hgain Hmode Hcs Hspan Hn Hch Hchan Hlen Hi.
  rewrite applyCensorship_channel, Hchan, Hmode. case_decide; [|lia]. simpl.
  eexists. split; [done|].
  rewrite reverseChannel_get_hit by lia.
  set (x := vec_get chan _).
  set (n := endSample - startSample) in *.
  pose proof (fadeRamp_bounds i n Hi) as [Hr0 Hr1].
  set (fade := fadeSamplesOf n) in *.
  assert (gain i n fade x == x * ((1 # 2) * fadeRamp i n fade))%Q as E.
  { destruct Hgain as [-> | ->];
      [rewrite reverseGainSingle_ramp | rewrite reverseGainBigram_ramp]; ring. }
  rewrite E, Qabs_Qmult.
  rewrite (Qabs_pos ((1 # 2) * _)) by nra.
  pose proof (Qabs_nonneg x). nra.
Qed.

Lemma reverse_patch_attenuates_witness :
  (reverseGainSingle = reverseGainSingle \/ reverseGainSingle = reverseGainBigram)
  /\ censorMode (config (demoState Reverse)) = Reverse
  /\ 0 <= 6 /\ 0 <= 1 <= 5 /\ 5 - 1 <= delayBufferSize (demoState Reverse)
  /\ Z.of_nat 0 < channels (config (demoState Reverse))
  /\ delayBuffer (demoState Reverse) !! 0%nat = Some (framesFrom 1 8)
  /\ Z.of_nat (length (framesFrom 1 8)) = delayBufferSize (demoState Reverse)
  /\ 0 <= 2 < 5 - 1
  /\ exists chan',
       delayBuffer (applyCensorship reverseGainSingle (demoState Reverse) 6 1 5)
         !! 0%nat
       = Some chan'
       /\ (Qabs (vec_get chan'
                   (c_mod (6 + 1 + 2) (delayBufferSize (demoState Reverse))))
           <= Qabs (vec_get (framesFrom 1 8)
                      (c_mod (6 + 1 + (5 - 1 - 1 - 2))
                         (delayBufferSize (demoState Reverse))))
              * (1 # 2))%Q.
Proof.
  split; [by left|]. split; [reflexivity|]. split; [lia|]. split; [lia|].
  split; [simpl; lia|]. split; [simpl; lia|]. split; [reflexivity|].
  split; [reflexivity|]. split; [lia|].
  apply (reverse_patch_attenuates reverseGainSingle (demoState Reverse) 6 1 5
           0 (framesFrom 1 8) 2);
    [by left | reflexivity | lia | lia | simpl; lia | simpl; lia
    | reflexivity | reflexivity | lia].
Defined.

(** ** The captured chunk *)

Section Capture.

Variable cfg : Config.

Hypothesis Hwhole :
  (inject_Z (sampleRate cfg) * chunkSeconds cfg
   == inject_Z (chunkFrames cfg))%Q.

(** The capture [t] frames into a chunk. *)
Let capturing (t : Z) (s : State) : Prop :=
  config s = cfg
  /\ hasNewBuffer s = false
  /\ bufferWritePos s = t /\ transcriptionInterval s = t
  /\ Z.of_nat (length (audioBuffer s)) = chunkFrames cfg
  /\ Z.of_nat (length (processingBuffer s)) = chunkFrames cfg.

Lemma due_iff (t : Z) :
  fle (inject_Z (sampleRate cfg) * chunkSeconds cfg) (inject_Z t)
  = bool_decide (chunkFrames cfg <= t).
Proof.
  pose proof (fle_spec (inject_Z (sampleRate cfg) * chunkSeconds cfg)
                (inject_Z t)) as H.
  destruct (fle _ _).
  - rewrite Hwhole, <- Zle_Qle in H. by rewrite bool_decide_true.
  - rewrite Hwhole, <- Zlt_Qlt in H. rewrite bool_decide_false; [done | lia].
Qed.

Lemma accumulate_captured (b : Block) (ab : list Q) (t : Z) :
  0 <= blk_frames b -> 0 <= t <= Z.of_nat (length ab) ->
  let r := accumulate cfg (blk_input b) (blk_frames b) (ab, t) in
  r.2 = Z.min (t + blk_frames b) (Z.of_nat (length ab))
  /\ length r.1 = length ab
  /\ take (Z.to_nat r.2) r.1
     = take (Z.to_nat r.2) (take (Z.to_nat t) ab ++ blockMono cfg b).
Proof.
  intros Hfr Ht. cbv zeta.
  destruct (accumulate_lookup cfg (blk_input b) (blk_frames b) ab t Hfr Ht)
    as (Hwp & Hlen & Hval).
  cbv zeta in Hwp, Hlen, Hval. split; [done|]. split; [done|].
  apply list_eq. intros p. rewrite !lookup_take.
  case_decide as Hp; [|done]. rewrite Hval.
  destruct (decide (t <= Z.of_nat p)) as [Hge|Hlt].
  - rewrite decide_True by lia.
    rewrite lookup_app_r by (rewrite length_take; lia).
    rewrite length_take. unfold blockMono. rewrite list_lookup_fmap.
    rewrite (lookup_seqZ_lt 0) by lia. simpl. do 2 f_equal. lia.
  - rewrite decide_False by lia.
    rewrite lookup_app_l by (rewrite length_take; lia).
    by rewrite lookup_take_lt by lia.
Qed.

Lemma process_captures (b : Block) (s : State) (t : Z) :
  capturing t s -> 0 <= t -> 0 <= blk_frames b ->
  t + blk_frames b < chunkFrames cfg ->
  let s1 := (process (blk_input b) (blk_output b) (blk_frames b) s).1 in
  capturing (t + blk_frames b) s1
  /\ take (Z.to_nat (t + blk_frames b)) (audioBuffer s1)
     = take (Z.to_nat t) (audioBuffer s) ++ blockMono cfg b.
Proof.
  intros (Hc & Hnew & Hwp & Hti & Hab & Hpb) Ht Hfr Hroom. cbv zeta.
  destruct (accumulate_captured b (audioBuffer s) t Hfr ltac:(lia))
    as (Hwp1 & Hlen1 & Hcap).
  cbv zeta in Hwp1, Hlen1, Hcap.
  unfold process. rewrite Hc, Hwp, Hti, Hnew, due_iff.
  destruct (accumulate _ _ _ _) as [ab1 wp1]. cbn [fst snd] in *.
  rewrite bool_decide_false by lia. cbn [andb negb].
  unfold capturing.
  cbn [config hasNewBuffer bufferWritePos transcriptionInterval audioBuffer
       processingBuffer].
  rewrite Z.min_l in Hwp1 by lia. subst wp1.
  split; [repeat split; (done || lia)|].
  rewrite Hcap. apply take_ge.
  rewrite length_app, length_take. unfold blockMono.
  rewrite length_fmap, length_seqZ. lia.
Qed.

Lemma process_hands_over (b : Block) (s : State) (t : Z) :
  capturing t s -> 0 <= t -> 0 <= blk_frames b ->
  t < chunkFrames cfg <= t + blk_frames b ->
  let s1 := (process (blk_input b) (blk_output b) (blk_frames b) s).1 in
  hasNewBuffer s1 = true
  /\ processingBuffer s1
     = take (Z.to_nat (chunkFrames cfg))
         (take (Z.to_nat t) (audioBuffer s) ++ blockMono cfg b)
  /\ bufferCaptureTime s1 = inject_Z (delayWritePos s)
  /\ bufferWritePos s1 = 0 /\ transcriptionInterval s1 = 0.
Proof.
  intros (Hc & Hnew & Hwp & Hti & Hab & Hpb) Ht Hfr Hdue. cbv zeta.
  destruct (accumulate_captured b (audioBuffer s) t Hfr ltac:(lia))
    as (Hwp1 & Hlen1 & Hcap).
  cbv zeta in Hwp1, Hlen1, Hcap.
  unfold process. rewrite Hc, Hwp, Hti, Hnew, due_iff.
  destruct (accumulate _ _ _ _) as [ab1 wp1]. cbn [fst snd] in *.
  rewrite bool_decide_true by lia. cbn [andb negb].
  cbn [hasNewBuffer processingBuffer bufferCaptureTime bufferWritePos
       transcriptionInterval].
  rewrite Z.min_r in Hwp1 by lia. subst wp1.
  split; [done|]. split; [|done].
  fold (chunkFrames cfg). rewrite Hab, Z.min_id.
  rewrite drop_ge by lia. rewrite app_nil_r. rewrite Hab in Hcap. exact Hcap.
Qed.

Lemma processAll_hands_over (blocks : list Block) (b : Block) :
  Forall (fun b => 0 <= blk_frames b) blocks -> 0 <= blk_frames b ->
  forall (s : State) (t : Z),
    capturing t s -> 0 <= t ->
    t + totalFrames blocks < chunkFrames cfg
                           <= t + totalFrames blocks + blk_frames b ->
    takenChunk (processAll s (blocks ++ [b])).1
    = Some (take (Z.to_nat (chunkFrames cfg))
              (take (Z.to_nat t) (audioBuffer s)
                 ++ concat (blockMono cfg <$> blocks ++ [b])),
            inject_Z (delayWritePos (processAll s blocks).1))
    /\ bufferWritePos (processAll s (blocks ++ [b])).1 = 0
    /\ transcriptionInterval (processAll s (blocks ++ [b])).1 = 0.
Proof.
  intros Hall Hfr. induction Hall as [|b0 blocks Hb0 Hall IH];
    intros s t Hcap Ht Htotal.
  - cbn [totalFrames foldr] in Htotal.
    destruct (process_hands_over b s t Hcap Ht Hfr ltac:(lia))
      as (Hnew & Hpb & Hct & Hwp & Hti).
    cbv zeta in Hnew, Hpb, Hct, Hwp, Hti.
    cbn [app processAll fmap list_fmap concat].
    destruct (process _ _ _ s) as [s1 out]. cbn [fst] in *.
    unfold takenChunk, whisperTake. rewrite Hnew. simpl.
    rewrite Hpb, Hct, app_nil_r. done.
  - cbn [totalFrames foldr] in Htotal. fold (totalFrames blocks) in Htotal.
    assert (0 <= totalFrames blocks) as Htot.
    { clear -Hall. induction Hall as [|b1 bs Hb1 _ IH']; [done|].
      cbn [totalFrames foldr]. fold (totalFrames bs). lia. }
    destruct (process_captures b0 s t Hcap Ht Hb0 ltac:(lia)) as [Hcap1 Htake].
    cbv zeta in Hcap1, Htake.
    cbn [app processAll fmap list_fmap concat].
    destruct (process _ _ _ s) as [s1 out]. cbn [fst] in *.
    destruct (IH s1 (t + blk_frames b0) Hcap1 ltac:(lia) ltac:(lia))
      as (Hchunk & Hwp & Hti).
    destruct (processAll s1 (blocks ++ [b])) as [s2 outs].
    destruct (processAll s1 blocks) as [s3 outs3]. cbn [fst] in *.
    rewrite Hchunk, Htake, <- app_assoc. done.
Qed.

End Capture.

(** X23.  What the worker is given.  When the chunk length is a whole
    number [K] of frames and a chunk starts with the capture idle, the
    calls of [process] up to the first one with which [K] frames have
    arrived hand over exactly one chunk: the mono downmix of the first [K]
    of these frames, in order.  The frames of the last call beyond [K] are
    in no chunk; the capture starts again at zero, and the capture time
    handed over is the write position before the last call. *)
Theorem chunk_is_first_frames (cfg : Config) (s : State)
    (blocks : list Block) (b : Block) :
  (inject_Z (sampleRate cfg) * chunkSeconds cfg
   == inject_Z (chunkFrames cfg))%Q ->
  captureIdle cfg s ->
  Forall (fun b => 0 <= blk_frames b) blocks -> 0 <= blk_frames b ->
  totalFrames blocks < chunkFrames cfg <= totalFrames blocks + blk_frames b ->
  takenChunk (processAll s (blocks ++ [b])).1
  = Some (take (Z.to_nat (chunkFrames cfg))
            (concat (blockMono cfg <$> blocks ++ [b])),
          inject_Z (delayWritePos (processAll s blocks).1))
  /\ bufferWritePos (processAll s (blocks ++ [b])).1 = 0
  /\ transcriptionInterval (processAll s (blocks ++ [b])).1 = 0.
Proof.
  intros Hwhole Hidle Hall Hfr Htotal.
  apply (processAll_hands_over cfg Hwhole blocks b Hall Hfr s 0);
    [exact Hidle | lia | lia].
Qed.

Lemma chunk_is_first_frames_witness :
  (inject_Z (sampleRate (config chunkEngine)) * chunkSeconds (config chunkEngine)
   == inject_Z (chunkFrames (config chunkEngine)))%Q
  /\ captureIdle (config chunkEngine) chunkEngine
  /\ Forall (fun b => 0 <= blk_frames b) [threeFrames] 
  /\ 0 <= blk_frames threeFrames
  /\ totalFrames [threeFrames] < chunkFrames (config chunkEngine)
     <= totalFrames [threeFrames] + blk_frames threeFrames
  /\ bufferWritePos (processAll chunkEngine ([threeFrames] ++ [threeFrames])).1
     = 0.
Proof.
  assert (captureIdle (config chunkEngine) chunkEngine) as Hidle.
  { by repeat split. }
  assert (Forall (fun b => 0 <= blk_frames b) [threeFrames]) as Hall.
  { repeat constructor. simpl. lia. }
  split; [reflexivity|]. split; [exact Hidle|]. split; [exact Hall|].
  split; [simpl; lia|]. split; [vm_compute; split; [reflexivity | discriminate]|].
  apply (chunk_is_first_frames (config chunkEngine) chunkEngine
           [threeFrames] threeFrames);
    [reflexivity | exact Hidle | exact Hall | simpl; lia
    | vm_compute; split; [reflexivity | discriminate]].
Defined.

(** ** What is played *)

Lemma playing_gate (cfg : Config) (st : DelayLoop) :
  configOk cfg -> GateInv cfg st -> dl_playbackStarted st = true ->
  gate cfg (inject_Z (currentGap (delayLength cfg) st)
            / inject_Z (sampleRate cfg))%Q
    (dl_playbackStarted st) (dl_wasPaused st)
  = (true, true, false).
Proof.
  intros [HF Hd] (Hp & _ & _ & Hfill) Hst.
  pose proof (inject_Z_pos _ HF) as HFq.
  rewrite Hst in *. rewrite Hp. unfold gate. cbn [negb].
  pose proof (flt_spec (inject_Z (currentGap (delayLength cfg) st)
                        / inject_Z (sampleRate cfg))
                (initialDelaySeconds cfg - 2)) as Hlt.
  destruct (flt _ _).
  - exfalso. apply buffer_seconds_lt in Hlt; [|done]. nra.
  - by rewrite andb_false_r.
Qed.

Lemma write_ahead_of_read (W R L gap k i' : Z) :
  0 < L -> 0 <= W < L -> 0 <= R < L ->
  gap = c_mod (W - R + L) L ->
  0 <= i' <= k -> k < gap ->
  (W + i') `mod` L ≠ (R + k) `mod` L.
Proof.
  intros HL HW HR Hgap Hi Hk.
  rewrite c_mod_gap in Hgap by done. case_decide.
  - apply not_eq_sym, mod_window; lia.
  - rewrite <- (Z_mod_plus_full (W + i') 1 L).
    apply not_eq_sym, mod_window; lia.
Qed.

Lemma delayFrame_plays (cfg : Config) (s : State) (inb outb : list Q)
    (frames k : Z) (st : DelayLoop) :
  configOk cfg -> 0 < channels cfg ->
  GateInv cfg (delayLoopInit s outb) ->
  Z.of_nat (length outb) = frames * channels cfg ->
  frames <= currentGap (delayLength cfg) (delayLoopInit s outb) ->
  0 <= k < frames ->
  PlayInv cfg s outb k st ->
  PlayInv cfg s outb (k + 1) (delayFrame cfg (delayLength cfg) inb k st).
Proof.
  intros Hok HC Hinv0 Houtb Hgap Hk
    (Hinv & Hst & HW & HR & Hlen & Hbuf & Hout).
  pose proof (playing_gate cfg st Hok Hinv Hst) as Hgate.
  pose proof (delayFrame_inv cfg inb k st Hok Hinv) as (Hinv' & _).
  pose proof (delayLength_room cfg Hok) as [_ HL10].
  destruct Hinv0 as (_ & HW0 & HR0 & _).
  cbn [delayLoopInit dl_writePos dl_readPos] in HW0, HR0.
  unfold currentGap in Hgap. cbn [delayLoopInit dl_writePos dl_readPos] in Hgap.
  set (C := channels cfg) in *. set (L := delayLength cfg) in *.
  assert (0 < L) as HL by lia.
  pose proof (Z.mod_pos_bound (delayWritePos s + k) L HL) as HWr.
  pose proof (Z.mod_pos_bound (delayReadPos s + k) L HL) as HRr.
  assert (forall ch p, 0 <= ch < C ->
            (forall i', 0 <= i' < k + 1 ->
               (delayWritePos s + i') `mod` L ≠ p) ->
            vec_get
              (default [] (dl_buffer (delayFrame cfg L inb k st)
                             !! Z.to_nat ch)) p
            = vec_get (delayChannel s ch) p) as Hbuf'.
  { intros ch p Hch Hp. unfold delayFrame. rewrite Hgate. cbn [dl_buffer].
    rewrite (channel_loop_lookup
               (fun ch channel =>
                  vec_set channel (dl_writePos st)
                    (vec_get inb (k * channels cfg + ch)))).
    rewrite decide_True by (fold C; lia).
    rewrite <- (Hbuf ch p Hch) by (intros i' Hi'; apply Hp; lia).
    destruct (dl_buffer st !! Z.to_nat ch) as [chan|]; [|done]. simpl.
    apply vec_get_set_ne. rewrite HW. apply Hp. lia. }
  split; [exact Hinv'|].
  split; [unfold delayFrame; by rewrite Hgate|].
  split.
  { unfold delayFrame. rewrite Hgate. cbn [dl_writePos]. rewrite HW.
    unfold c_mod. rewrite Z.rem_mod_nonneg by lia.
    rewrite Zplus_mod_idemp_l. f_equal. lia. }
  split.
  { unfold delayFrame. rewrite Hgate. cbn [dl_readPos]. rewrite HR.
    unfold c_mod. rewrite Z.rem_mod_nonneg by lia.
    rewrite Zplus_mod_idemp_l. f_equal. lia. }
  assert (dl_output (delayFrame cfg L inb k st)
          = for_loop 0 C
              (fun ch output =>
                 vec_set output (k * C + ch)
                   (vec_get (delayChannel s ch)
                      ((delayReadPos s + k) `mod` L)))
              (dl_output st)) as Eout.
  { unfold delayFrame at 1. rewrite Hgate. cbn [dl_output].
    apply for_loop_ext. intros ch out Hch. f_equal.
    pose proof (Hbuf' ch ((delayReadPos s + k) `mod` L) Hch) as Hread.
    unfold delayFrame in Hread. rewrite Hgate in Hread.
    cbn [dl_buffer] in Hread. rewrite HR. apply Hread.
    intros i' Hi'.
    apply (write_ahead_of_read _ _ L
             (c_mod (delayWritePos s - delayReadPos s + L) L)); done || lia. }
  split; [|split; [exact Hbuf'|]].
  - rewrite Eout. unfold for_loop. by rewrite write_loop_length.
  - intros i ch Hi Hch. rewrite Eout. unfold for_loop. rewrite Z.sub_0_r.
    destruct (decide (i = k)) as [->|Hne].
    + apply (write_loop_get_hit (fun ch => k * C + ch)
               (fun ch => vec_get (delayChannel s ch)
                            ((delayReadPos s + k) `mod` L))).
      * apply elem_of_seqZ. lia.
      * intros j _ Hj. lia.
      * rewrite Hlen. nia.
    + rewrite (write_loop_get_other (fun ch => k * C + ch)).
      * apply Hout; lia.
      * intros j Hj. apply elem_of_seqZ in Hj. nia.
Qed.

(** X24.  What is played is what the delay line holds, also after the
    censor has worked on it: once playback has started, a call of
    [process] with no more frames than are buffered writes to output frame
    [i], channel [ch], the sample that the delay line held at
    [(readPos + i) mod size] when the call began, in every run of the
    engine that led there. *)
Theorem playback_reads_delay_line (cfg : Config) (s : State) (b : Block)
    (i ch : Z) :
  configOk cfg -> 0 < channels cfg -> reachable cfg s ->
  playbackStarted s = true -> blockOk cfg b ->
  blk_frames b <= currentGap (delayLength cfg) (delayLoopInit s []) ->
  0 <= i < blk_frames b -> 0 <= ch < channels cfg ->
  vec_get (process (blk_input b) (blk_output b) (blk_frames b) s).2
    (i * channels cfg + ch)
  = vec_get (delayChannel s ch)
      (c_mod (delayReadPos s + i) (delayLength cfg)).
Proof.
  intros Hok HC Hreach Hst (Hfr & _ & Houtb) Hgap Hi Hch.
  destruct (reachable_inv cfg s Hok Hreach) as (Hc & HLs & Hinv).
  pose proof (delayLength_room cfg Hok) as [_ HL10].
  destruct (Hinv (blk_output b)) as (Hp0 & HW0 & HR0 & Hfill0).
  cbn [delayLoopInit dl_writePos dl_readPos] in HW0, HR0.
  assert (PlayInv cfg s (blk_output b) (blk_frames b)
            (delayFrames s (blk_input b) (blk_output b) (blk_frames b)))
    as (_ & _ & _ & _ & _ & _ & Hout).
  { unfold delayFrames. rewrite Hc, HLs.
    apply (for_loop_ind (PlayInv cfg s (blk_output b))); [done| |].
    - split; [apply Hinv|]. split; [done|].
      cbn [delayLoopInit dl_writePos dl_readPos dl_output dl_buffer].
      rewrite !Z.add_0_r, !Z.mod_small by lia.
      split; [done|]. split; [done|]. split; [done|].
      split; [done|]. intros i' ch' Hi'. lia.
    - intros k st Hk HP.
      apply (delayFrame_plays cfg s (blk_input b) (blk_output b)
               (blk_frames b)); done. }
  unfold process. destruct (accumulate _ _ _ _) as [ab wp]. cbn [snd].
  rewrite Hout by lia. unfold c_mod. by rewrite Z.rem_mod_nonneg by lia.
Qed.

Lemma playback_reads_delay_line_witness :
  configOk tinyConfig /\ 0 < channels tinyConfig
  /\ reachable tinyConfig warmEngine
  /\ playbackStarted warmEngine = true
  /\ blockOk tinyConfig (mkBlock (framesFrom 4 2) (framesFrom 0 2) 2)
  /\ 2 <= currentGap (delayLength tinyConfig) (delayLoopInit warmEngine [])
  /\ 0 <= 1 < 2 /\ 0 <= 0 < channels tinyConfig
  /\ vec_get (process (framesFrom 4 2) (framesFrom 0 2) 2 warmEngine).2
       (1 * channels tinyConfig + 0)
     = vec_get (delayChannel warmEngine 0)
         (c_mod (delayReadPos warmEngine + 1) (delayLength tinyConfig)).
Proof.
  assert (configOk tinyConfig) as Hok.
  { split; [simpl; lia | unfold Qle; simpl; lia]. }
  assert (reachable tinyConfig warmEngine) as Hreach.
  { apply reach_process, reach_start. }
  assert (blockOk tinyConfig (mkBlock (framesFrom 4 2) (framesFrom 0 2) 2))
    as Hb.
  { split; [simpl; lia|]. split; reflexivity. }
  split; [exact Hok|]. split; [simpl; lia|]. split; [exact Hreach|].
  split; [reflexivity|]. split; [exact Hb|].
  split; [vm_compute; discriminate|]. split; [lia|]. split; [simpl; lia|].
  apply (playback_reads_delay_line tinyConfig warmEngine
           (mkBlock (framesFrom 4 2) (framesFrom 0 2) 2) 1 0 Hok);
    [simpl; lia | exact Hreach | reflexivity | exact Hb
    | vm_compute; discriminate | simpl; lia | simpl; lia].
Defined.

(** ** The command line *)

Lemma pair_ind {A : Type} (P : list A -> Prop) :
  P [] -> (forall x, P [x]) -> (forall x y l, P l -> P (x :: y :: l)) ->
  forall l, P l.
Proof.
  intros Hnil Hone Htwo l.
  assert (P l /\ forall x, P (x :: l)) as [H _]; [|exact H].
  induction l as [|y l [IH1 IH2]].
  - split; [done|]. apply Hone.
  - split; [apply IH2|]. intros x. by apply Htwo.
Qed.

Lemma parseArguments_run (args : list string) :
  forall configPath path,
    Daemon.parseArguments args configPath = Daemon.Run path
    <-> exists pairs,
          Forall (fun pr => configOption pr.1) pairs
          /\ args = optionArgs pairs
          /\ path = default configPath (last (snd <$> pairs)).
Proof.
  induction args as [|arg|arg value rest IH] using pair_ind;
    intros configPath path.
  - simpl. split.
    + intros [= <-]. exists []. by repeat split.
    + intros (pairs & _ & Hargs & ->).
      destruct pairs as [|[opt v] pairs]; [done|]. discriminate Hargs.
  - split.
    + simpl. repeat (destruct (_ || _); [done|]). done.
    + intros (pairs & _ & Hargs & _).
      destruct pairs as [|[opt v] pairs]; discriminate Hargs.
  - cbn [Daemon.parseArguments]. split.
    + destruct (String.eqb arg "-h" || String.eqb arg "--help"); [done|].
      destruct (String.eqb arg "-v" || String.eqb arg "--version"); [done|].
      destruct (String.eqb arg "-c" || String.eqb arg "--config") eqn:Hc;
        [|done].
      intros Hrun. apply IH in Hrun as (pairs & Hopts & -> & ->).
      exists ((arg, value) :: pairs). split; [|split; [done|]].
      * constructor; [|done]. simpl. unfold configOption.
        apply orb_true_iff in Hc as [Hc|Hc]; apply String.eqb_eq in Hc; auto.
      * cbn [fmap list_fmap snd]. rewrite last_cons.
        by destruct (last (snd <$> pairs)).
    + intros (pairs & Hopts & Hargs & ->).
      destruct pairs as [|[opt v] pairs]; [discriminate Hargs|].
      injection Hargs as -> -> ->.
      apply Forall_cons in Hopts as [Hopt Hopts]. simpl in Hopt.
      assert (String.eqb opt "-h" || String.eqb opt "--help" = false
              /\ String.eqb opt "-v" || String.eqb opt "--version" = false
              /\ String.eqb opt "-c" || String.eqb opt "--config" = true)
        as (-> & -> & ->).
      { by destruct Hopt as [-> | ->]. }
      apply IH. exists pairs. split; [done|]. split; [done|].
      cbn [fmap list_fmap snd]. rewrite last_cons.
      by destruct (last (snd <$> pairs)).
Qed.

(** X25.  The daemon goes on to load a configuration exactly when every
    argument after the program name is a [-c] or [--config] followed by a
    value; the path it loads is then the value of the last of them, or
    [/etc/explicitly/config.yaml] when there is none.  A value is never
    read as an option, and every other command line ends the program in
    the argument loop. *)
Theorem main_runs_with_config (program : string) (args : list string)
    (path : string) :
  Daemon.main (program :: args) = Daemon.Run path
  <-> exists pairs,
        Forall (fun pr => configOption pr.1) pairs
        /\ args = optionArgs pairs
        /\ path = default "/etc/explicitly/config.yaml"%string
                    (last (snd <$> pairs)).
Proof. unfold Daemon.main. simpl. apply parseArguments_run. Qed.

(** ** The fill across a call of [process] *)

(** A frame of a run whose playback has started is played. *)
Lemma delayFrame_playing (cfg : Config) (inputBuffer : list Q) (i : Z)
    (st : DelayLoop) :
  configOk cfg -> GateInv cfg st -> dl_playbackStarted st = true ->
  let L := delayLength cfg in
  let st' := delayFrame cfg L inputBuffer i st in
  dl_playbackStarted st' = true
  /\ dl_readPos st' = (dl_readPos st + 1) `mod` L.
Proof.
  intros Hok Hinv Hst L st'.
  pose proof (playing_gate cfg st Hok Hinv Hst) as Hgate.
  pose proof (delayLength_room cfg Hok) as [_ HL10].
  pose proof (delayFrame_fields cfg L inputBuffer i st)
    as (Hs' & _ & _ & HR' & _).
  cbv zeta in Hs', HR'. fold st' in Hs', HR'. subst L.
  rewrite Hgate in Hs', HR'. cbn [fst snd] in Hs', HR'.
  destruct Hinv as (_ & _ & HR & _).
  split; [done|]. rewrite HR'. apply c_mod_nonneg; lia.
Qed.

(** The positions and the fill after [k] turns of the delay loop. *)
Lemma delayFrames_run (cfg : Config) (s : State)
    (inputBuffer outputBuffer : list Q) (k : nat) :
  configOk cfg -> config s = cfg -> delayBufferSize s = delayLength cfg ->
  GateInv cfg (delayLoopInit s outputBuffer) ->
  let L := delayLength cfg in
  let st := delayFrames s inputBuffer outputBuffer (Z.of_nat k) in
  dl_writePos st = (delayWritePos s + Z.of_nat k) `mod` L
  /\ (delayWritePos s - delayReadPos s) `mod` L
     <= (dl_writePos st - dl_readPos st) `mod` L
  /\ (playbackStarted s = true ->
      dl_playbackStarted st = true
      /\ dl_readPos st = (delayReadPos s + Z.of_nat k) `mod` L
      /\ (dl_writePos st - dl_readPos st) `mod` L
         = (delayWritePos s - delayReadPos s) `mod` L).
Proof.
  intros Hok Hcfg HL Hinit L.
  pose proof (delayLength_room cfg Hok) as [_ HL10].
  induction k as [|k (IHW & IHfill & IHplay)]; cbv zeta.
  - unfold delayFrames. rewrite for_loop_none by lia.
    destruct Hinit as (_ & HW & HR & _).
    cbn [delayLoopInit dl_writePos dl_readPos dl_playbackStarted] in *.
    change (Z.of_nat 0) with 0. subst L. rewrite !Z.add_0_r.
    rewrite (Z.mod_small (delayWritePos s)), (Z.mod_small (delayReadPos s)) by done.
    by repeat split.
  - rewrite Nat2Z.inj_succ, <- Z.add_1_r, delayFrames_succ by lia.
    rewrite Hcfg, HL. fold L.
    set (st := delayFrames s inputBuffer outputBuffer (Z.of_nat k)) in *.
    pose proof (delayFrames_inv cfg s inputBuffer outputBuffer (Z.of_nat k)
                  Hok Hcfg HL Hinit) as Hinv.
    fold st in Hinv.
    pose proof (delayFrame_inv cfg inputBuffer (Z.of_nat k) st Hok Hinv)
      as (Hinv' & HW' & _ & _ & Hgap & Hsame & _).
    cbv zeta in Hinv', HW', Hgap, Hsame. fold L in Hinv', HW', Hgap, Hsame.
    set (st' := delayFrame cfg L inputBuffer (Z.of_nat k) st) in *.
    destruct Hinv as (_ & HWr & HRr & _).
    destruct Hinv' as (_ & HWr' & HRr' & _). fold L in HWr, HRr, HWr', HRr'.
    rewrite (currentGap_mod L st HWr HRr) in Hgap, Hsame.
    rewrite (currentGap_mod L st' HWr' HRr') in Hgap, Hsame.
    split; [|split].
    + rewrite HW', c_mod_nonneg, IHW by lia.
      rewrite Zplus_mod_idemp_l. f_equal. lia.
    + lia.
    + intros Hst. destruct (IHplay Hst) as (Hst_k & HR_k & Hfill_k).
      pose proof (delayFrame_playing cfg inputBuffer (Z.of_nat k) st Hok
                    (delayFrames_inv cfg s inputBuffer outputBuffer
                       (Z.of_nat k) Hok Hcfg HL Hinit) Hst_k)
        as [Hst' HR'].
      cbv zeta in Hst', HR'. fold L st' in Hst', HR'.
      split; [done|]. split.
      * rewrite HR', HR_k, Zplus_mod_idemp_l. f_equal. lia.
      * destruct (Hsame Hst_k) as [E _]. by rewrite E.
Qed.

(** C6.  In every call of [process] in a run from [start]:
    - in every frame [i] of the call the write position advances by one
      on the ring and the read position stays or advances by one, and it
      stays unless the gate lets the frame play; so the fill [W - R] of
      the ring does not decrease from one frame to the next;
    - the call leaves the positions and the gate of its last frame in the
      engine: the write position has advanced by the number of frames of
      the call, and the fill of the engine after the call is at least the
      fill before it;
    - once playback has started every frame is played, the read position
      advances with the write position and the fill stays the same, the
      pause condition [fill < (initialDelay - 2) * F] does not hold, and
      the gate is never in Paused: [wasPaused] is clear before and after
      the call. *)
Theorem fill_never_decreases (cfg : Config) (s : State)
    (inputBuffer outputBuffer : list Q) (frames i : Z) :
  configOk cfg -> reachable cfg s -> 0 <= i < frames ->
  let L := delayBufferSize s in
  let F := inject_Z (sampleRate cfg) in
  let d := initialDelaySeconds cfg in
  let st := delayFrames s inputBuffer outputBuffer i in
  let st' := delayFrames s inputBuffer outputBuffer (i + 1) in
  let fill := (dl_writePos st - dl_readPos st) `mod` L in
  let fill' := (dl_writePos st' - dl_readPos st') `mod` L in
  let last := delayFrames s inputBuffer outputBuffer frames in
  let s' := (process inputBuffer outputBuffer frames s).1 in
  (st' = delayFrame (config s) L inputBuffer i st
   /\ dl_writePos st' = (dl_writePos st + 1) `mod` L
   /\ (dl_readPos st' = dl_readPos st
       \/ dl_readPos st' = (dl_readPos st + 1) `mod` L)
   /\ (gateOf st' ≠ Playing -> dl_readPos st' = dl_readPos st)
   /\ fill <= fill'
   /\ (dl_playbackStarted st = true ->
       dl_playbackStarted st' = true
       /\ dl_readPos st' = (dl_readPos st + 1) `mod` L
       /\ fill' = fill
       /\ ~ (inject_Z fill < (d - 2) * F)%Q)
   /\ gateOf st' ≠ Paused)
  /\ (delayWritePos s' = dl_writePos last
      /\ delayReadPos s' = dl_readPos last
      /\ playbackStarted s' = dl_playbackStarted last
      /\ wasPaused s' = dl_wasPaused last
      /\ delayBufferSize s' = L)
  /\ delayWritePos s' = (delayWritePos s + frames) `mod` L
  /\ (delayWritePos s - delayReadPos s) `mod` L
     <= (delayWritePos s' - delayReadPos s') `mod` L
  /\ (playbackStarted s = true ->
      playbackStarted s' = true
      /\ delayReadPos s' = (delayReadPos s + frames) `mod` L
      /\ (delayWritePos s' - delayReadPos s') `mod` L
         = (delayWritePos s - delayReadPos s) `mod` L)
  /\ wasPaused s = false
  /\ wasPaused s' = false.
Proof.
  intros Hok Hreach Hi L F d st st' fill fill' last s'.
  pose proof (reachable_inv cfg s Hok Hreach) as (Hc & HL & Hinv).
  pose proof (reachable_inv cfg _ Hok
                (reach_process cfg s inputBuffer outputBuffer frames Hreach))
    as (_ & _ & Hinv').
  pose proof (delayLength_room cfg Hok) as [_ HL10].
  pose proof (process_gateFields inputBuffer outputBuffer frames s) as Hf.
  cbv zeta in Hf. fold s' last in Hf. unfold gateFields in Hf.
  injection Hf as _ HL' HW' HR' Hs' Hp'.
  pose proof (delayFrames_run cfg s inputBuffer outputBuffer (Z.to_nat frames)
                Hok Hc HL (Hinv outputBuffer)) as (RW & Rfill & Rplay).
  cbv zeta in RW, Rfill, Rplay. rewrite Z2Nat.id in RW, Rfill, Rplay by lia.
  fold last in RW, Rfill, Rplay.
  assert (st' = delayFrame (config s) L inputBuffer i st) as Hst'
    by (apply delayFrames_succ; lia).
  pose proof (delayFrames_inv cfg s inputBuffer outputBuffer i Hok Hc HL
                (Hinv outputBuffer)) as Hinv_i.
  fold st in Hinv_i.
  pose proof (delayFrame_inv cfg inputBuffer i st Hok Hinv_i)
    as (Hinv_i' & F1 & F2 & F3 & F4 & F5 & F6).
  cbv zeta in Hinv_i', F1, F2, F3, F4, F5, F6.
  subst L fill fill'. rewrite HL in *. rewrite Hc in Hst'.
  rewrite <- Hst' in Hinv_i', F1, F2, F3, F4, F5, F6.
  pose proof Hinv_i as (_ & HWr & HRr & _).
  pose proof Hinv_i' as (_ & HWr' & HRr' & _).
  rewrite (currentGap_mod _ st HWr HRr) in F4, F5.
  rewrite (currentGap_mod _ st' HWr' HRr') in F4, F5.
  rewrite c_mod_nonneg in F1 by lia.
  split.
  { split; [by rewrite Hc|]. split; [exact F1|]. split.
    { destruct F2 as [F2|F2]; [by left|right].
      rewrite F2. apply c_mod_nonneg; lia. }
    split; [exact F3|]. split; [exact F4|]. split; [|exact F6].
    intros Hst. destruct (F5 Hst) as [E N].
    pose proof (delayFrame_playing cfg inputBuffer i st Hok Hinv_i Hst)
      as [P1 P2].
    cbv zeta in P1, P2. rewrite <- Hst' in P1, P2. done. }
  split; [done|].
  split; [by rewrite HW'|]. split; [by rewrite HW', HR'|]. split.
  { intros Hst. destruct (Rplay Hst) as (P1 & P2 & P3).
    by rewrite HW', HR', Hs'. }
  split.
  - by destruct (Hinv []) as [? _].
  - by destruct (Hinv' []) as [? _].
Qed.

Lemma fill_never_decreases_witness :
  let s' := (process (framesFrom 4 2) [0%Q; 0%Q] 2 warmEngine).1 in
  let L := delayBufferSize warmEngine in
  configOk tinyConfig
  /\ reachable tinyConfig warmEngine
  /\ 0 <= 1 < 2
  /\ playbackStarted warmEngine = true
  /\ (delayWritePos warmEngine, delayReadPos warmEngine) = (3, 1)
  /\ delayWritePos s' = (delayWritePos warmEngine + 2) `mod` L
  /\ playbackStarted s' = true
  /\ delayReadPos s' = (delayReadPos warmEngine + 2) `mod` L
  /\ (delayWritePos s' - delayReadPos s') `mod` L
     = (delayWritePos warmEngine - delayReadPos warmEngine) `mod` L
  /\ gateOf (delayFrames warmEngine (framesFrom 4 2) [0%Q; 0%Q] (1 + 1)) ≠ Paused
  /\ wasPaused s' = false.
Proof.
  intros s' L.
  assert (configOk tinyConfig) as Hok.
  { split; [reflexivity | unfold Qle; simpl; lia]. }
  assert (reachable tinyConfig warmEngine) as Hreach.
  { apply reach_process, reach_start. }
  split; [exact Hok|]. split; [exact Hreach|]. split; [lia|].
  split; [reflexivity|]. split; [reflexivity|].
  destruct (fill_never_decreases tinyConfig warmEngine (framesFrom 4 2)
              [0%Q; 0%Q] 2 1 Hok Hreach ltac:(lia))
    as ((_ & _ & _ & _ & _ & _ & T7) & _ & T9 & _ & T11 & _ & T13).
  destruct (T11 eq_refl) as (P1 & P2 & P3).
  split; [exact T9|]. split; [exact P1|]. split; [exact P2|].
  split; [exact P3|]. split; [exact T7 | exact T13].
Defined.

(** ** The underrun flag *)



(** ** Backtracking the matrix *)

Section Backtrack.

Variables transcribedWords lyricsWords : list string.

Let m := Z.of_nat (length transcribedWords).
Let n := Z.of_nat (length lyricsWords).
Let matrix := calculateEditDistance transcribedWords lyricsWords.

Lemma matrix_cell (i j : Z) :
  0 <= i <= m -> 0 <= j <= n ->
  mat_get matrix i j
  = levenshtein transcribedWords lyricsWords (Z.to_nat i) (Z.to_nat j).
Proof.
  intros Hi Hj.
  destruct (calculateEditDistance_filled transcribedWords lyricsWords)
    as [_ Hfill].
  apply Hfill; subst m n; lia.
Qed.

Lemma matrix_row0 (j : Z) : 0 <= j <= n -> mat_get matrix 0 j = j.
Proof.
  intros Hj. rewrite matrix_cell by (subst m; lia).
  change (Z.to_nat 0) with 0%nat. rewrite levenshtein_row0. lia.
Qed.

Lemma matrix_col0 (i : Z) : 0 <= i <= m -> mat_get matrix i 0 = i.
Proof.
  intros Hi. rewrite matrix_cell by (subst n; lia).
  change (Z.to_nat 0) with 0%nat. rewrite levenshtein_col0. lia.
Qed.

(** The recurrence of the edit distance, on the cells of the matrix. *)
Lemma matrix_step (i j : Z) :
  0 < i <= m -> 0 < j <= n ->
  mat_get matrix i j
  = if String.eqb (str_get transcribedWords (i - 1)) (str_get lyricsWords (j - 1))
    then mat_get matrix (i - 1) (j - 1)
    else 1 + Z.min (mat_get matrix (i - 1) j)
               (Z.min (mat_get matrix i (j - 1))
                  (mat_get matrix (i - 1) (j - 1))).
Proof.
  intros Hi Hj. rewrite !matrix_cell by lia.
  replace (Z.to_nat i) with (S (Z.to_nat (i - 1))) by lia.
  replace (Z.to_nat j) with (S (Z.to_nat (j - 1))) by lia.
  rewrite levenshtein_step. by rewrite !Z2Nat.id by lia.
Qed.

(** The loop of [backtrackAlignment] on the edit-distance matrix ends,
    given fuel for [i + j] turns, and what it appends to [alignments]
    retraces the matrix from the cell [(i, j)], last operation first. *)
Lemma backtrackLoop_traceback (fuel : nat) :
  forall (i j : Z) (alignments : list (Z * Z)),
    0 <= i <= m -> 0 <= j <= n -> i + j <= Z.of_nat fuel ->
    exists back,
      backtrackLoop fuel matrix transcribedWords lyricsWords i j alignments
      = Some (alignments ++ omap alignmentOf back)
      /\ Traceback matrix transcribedWords lyricsWords i j (reverse back).
Proof.
  induction fuel as [|fuel IH]; intros i j alignments Hi Hj Hfuel.
  - assert (i = 0) as -> by lia. assert (j = 0) as -> by lia.
    exists []. simpl. rewrite app_nil_r. split; [done | constructor].
  - cbn [backtrackLoop].
    assert (forall (back : list EditOp) (op : EditOp) (al : list (Z * Z)),
              backtrackLoop fuel matrix transcribedWords lyricsWords
                (match op with Inserted _ => i | _ => i - 1 end)
                (match op with Deleted _ => j | _ => j - 1 end)
                (alignments ++ al)
              = Some ((alignments ++ al) ++ omap alignmentOf back) ->
              al = option_list (alignmentOf op) ->
              Traceback matrix transcribedWords lyricsWords i j
                (reverse back ++ [op]) ->
              exists back',
                backtrackLoop fuel matrix transcribedWords lyricsWords
                  (match op with Inserted _ => i | _ => i - 1 end)
                  (match op with Deleted _ => j | _ => j - 1 end)
                  (alignments ++ al)
                = Some (alignments ++ omap alignmentOf back')
                /\ Traceback matrix transcribedWords lyricsWords i j
                     (reverse back')) as Hstep.
    { intros back op al Hloop -> Htrace. exists (op :: back). split.
      - rewrite Hloop, <- app_assoc. f_equal. f_equal. simpl.
        by destruct (alignmentOf op).
      - by rewrite reverse_cons. }
    destruct (Z.ltb_spec 0 i) as [Hi0|Hi0];
      destruct (Z.ltb_spec 0 j) as [Hj0|Hj0]; cbn [orb andb].
    + (* both indices are positive *)
      pose proof (matrix_step i j ltac:(lia) ltac:(lia)) as Hcell.
      destruct (String.eqb_spec (str_get transcribedWords (i - 1))
                  (str_get lyricsWords (j - 1))) as [Heq|Hne].
      { destruct (IH (i - 1) (j - 1) (alignments ++ [(i - 1, j - 1)]))
          as (back & Hloop & Htrace); [lia..|].
        apply (Hstep back (Aligned (i - 1) (j - 1)) [(i - 1, j - 1)]);
          [done | done |].
        replace i with (i - 1 + 1) at 1 by lia.
        replace j with (j - 1 + 1) at 1 by lia.
        apply trace_match; [lia | lia | done | | done].
        by rewrite !Z.sub_add. }
      destruct (Z.eqb_spec (mat_get matrix i j)
                  (mat_get matrix (i - 1) (j - 1) + 1)) as [Hsub|Hsub].
      { destruct (IH (i - 1) (j - 1) (alignments ++ [(i - 1, j - 1)]))
          as (back & Hloop & Htrace); [lia..|].
        apply (Hstep back (Aligned (i - 1) (j - 1)) [(i - 1, j - 1)]);
          [done | done |].
        replace i with (i - 1 + 1) at 1 by lia.
        replace j with (j - 1 + 1) at 1 by lia.
        apply trace_substitute; [lia | lia | done | | done].
        by rewrite !Z.sub_add. }
      destruct (Z.eqb_spec (mat_get matrix i j)
                  (mat_get matrix i (j - 1) + 1)) as [Hins|Hins].
      { destruct (IH i (j - 1) (alignments ++ [(-1, j - 1)]))
          as (back & Hloop & Htrace); [lia..|].
        apply (Hstep back (Inserted (j - 1)) [(-1, j - 1)]); [done | done |].
        replace j with (j - 1 + 1) at 1 by lia.
        apply trace_insert; [lia | lia | | done].
        by rewrite !Z.sub_add. }
      destruct (IH (i - 1) j alignments) as (back & Hloop & Htrace); [lia..|].
      exists (Deleted (i - 1) :: back). split; [done|].
      rewrite reverse_cons. replace i with (i - 1 + 1) at 1 by lia.
      apply trace_delete; [lia | lia | | done].
      rewrite !Z.sub_add. lia.
    + (* only transcribed words are left: deletions *)
      assert (j = 0) as -> by lia.
      destruct (IH (i - 1) 0 alignments) as (back & Hloop & Htrace); [lia..|].
      exists (Deleted (i - 1) :: back). split; [done|].
      rewrite reverse_cons. replace i with (i - 1 + 1) at 1 by lia.
      apply trace_delete; [lia | lia | | done].
      rewrite !matrix_col0 by lia. lia.
    + (* only lyric words are left: insertions *)
      assert (i = 0) as -> by lia.
      rewrite !matrix_row0 by lia.
      destruct (Z.eqb_spec j (j - 1 + 1)) as [_|Hne]; [|lia].
      destruct (IH 0 (j - 1) (alignments ++ [(-1, j - 1)]))
        as (back & Hloop & Htrace); [lia..|].
      apply (Hstep back (Inserted (j - 1)) [(-1, j - 1)]); [done | done |].
      replace j with (j - 1 + 1) at 1 by lia.
      apply trace_insert; [lia | lia | | done].
      rewrite !matrix_row0 by lia. lia.
    + assert (i = 0) as -> by lia. assert (j = 0) as -> by lia.
      exists []. simpl. rewrite app_nil_r. split; [done | constructor].
Qed.

(** Along a script that retraces the matrix, the cost of the script is
    what the matrix grows by. *)
Lemma Traceback_cost (i j : Z) (ops : list EditOp) :
  Traceback matrix transcribedWords lyricsWords i j ops ->
  scriptCost transcribedWords lyricsWords ops
  = mat_get matrix i j - mat_get matrix 0 0.
Proof.
  unfold scriptCost.
  induction 1 as [|i j ops Hi Hj Heq Hcell _ IH|i j ops Hi Hj Hne Hcell _ IH
                  |i j ops Hi Hj Hcell _ IH|i j ops Hi Hj Hcell _ IH];
    [simpl; lia|..]; rewrite foldl_app; cbn [foldl opCost]; rewrite IH.
  - rewrite Heq, String.eqb_refl. lia.
  - destruct (String.eqb_spec (str_get transcribedWords i)
                (str_get lyricsWords j)); [done|lia].
  - lia.
  - lia.
Qed.

End Backtrack.

Lemma Traceback_Script (matrix : list (list Z))
    (transcribedWords lyricsWords : list string) (i j : Z)
    (ops : list EditOp) :
  Traceback matrix transcribedWords lyricsWords i j ops -> Script i j ops.
Proof. induction 1; by constructor. Qed.

(** What has been emitted stays, and a pair emits its segment. *)
Lemma foldl_emitOp_elem (lyricsWords : list string)
    (originalSegments : list WordSegment) (ops : list EditOp) :
  forall emitted : list WordSegment,
    (forall seg, seg ∈ emitted ->
       seg ∈ foldl (emitOp lyricsWords originalSegments) emitted ops)
    /\ (forall i j, Aligned i j ∈ ops ->
          pairedSegment lyricsWords originalSegments i j
          ∈ foldl (emitOp lyricsWords originalSegments) emitted ops).
Proof.
  induction ops as [|op ops IH]; intros emitted.
  - split; [done|]. intros i j Hin. by apply elem_of_nil in Hin.
  - cbn [foldl].
    destruct (IH (emitOp lyricsWords originalSegments emitted op))
      as [Hkeep Hpair].
    assert (forall seg, seg ∈ emitted ->
              seg ∈ emitOp lyricsWords originalSegments emitted op) as Hop.
    { intros seg Hseg. destruct op; simpl; [| |done];
        apply elem_of_app; by left. }
    split; [by auto|].
    intros i j Hin. apply elem_of_cons in Hin as [<-|Hin]; [|by apply Hpair].
    apply Hkeep. simpl. apply elem_of_app. right. by apply list_elem_of_singleton.
Qed.

(** C9.  With the edit-distance matrix of the transcribed and the lyric
    words, [backtrackAlignment] returns, and its result is what the
    operations of a script [ops] emit, in order: for a match or
    substitution the lyric word with the transcribed word's start and end
    and its confidence times 0.95; for an insertion the lyric word from the
    end of the segment emitted before it (0.0 if there is none), 0.3 s
    long, with confidence 0.5; for a deletion nothing.  The script goes
    through both word lists and is the backtracking of the matrix: equal
    words are paired where the matrix does not grow, and every
    substitution, insertion and deletion is a step of one in the matrix,
    so that the script costs the edit distance of the two word lists.
    Every pair of the script, and so every matched word, is in the result
    with the times of its transcribed word. *)
Theorem lyrics_backtrack (transcribedWords lyricsWords : list string)
    (originalSegments : list WordSegment) :
  let m := Z.of_nat (length transcribedWords) in
  let n := Z.of_nat (length lyricsWords) in
  let matrix := calculateEditDistance transcribedWords lyricsWords in
  exists ops,
    Script m n ops
    /\ Traceback matrix transcribedWords lyricsWords m n ops
    /\ scriptCost transcribedWords lyricsWords ops
       = levenshtein transcribedWords lyricsWords (length transcribedWords)
           (length lyricsWords)
    /\ backtrackAlignment (length transcribedWords + length lyricsWords)
         matrix transcribedWords lyricsWords originalSegments
       = Some (foldl (emitOp lyricsWords originalSegments) [] ops)
    /\ (forall i j,
          Aligned i j ∈ ops ->
          pairedSegment lyricsWords originalSegments i j
          ∈ foldl (emitOp lyricsWords originalSegments) [] ops).
Proof.
  intros m n matrix.
  destruct (backtrackLoop_traceback transcribedWords lyricsWords
              (length transcribedWords + length lyricsWords) m n [])
    as (back & Hloop & Htrace); [lia..|].
  fold matrix in Hloop, Htrace.
  pose proof (Traceback_Script _ _ _ _ _ _ Htrace) as Hscript.
  exists (reverse back). split; [done|]. split; [done|]. split; [|split].
  - rewrite (Traceback_cost transcribedWords lyricsWords m n _ Htrace).
    rewrite matrix_row0 by lia. rewrite matrix_cell by lia.
    subst m n. rewrite !Nat2Z.id. lia.
  - unfold backtrackAlignment. fold m n. rewrite Hloop. simpl. f_equal.
    rewrite <- omap_reverse. apply emitSegment_emitOp.
    by apply Script_in_range in Hscript as (_ & _ & ?).
  - apply foldl_emitOp_elem.
Qed.
